(** * Halin: a shallow embedding of the request-dispatch engine

    The development follows [src/halin.ts].  The file holds two revisions of
    the framework; where they differ both are embedded, the first one in
    [Module Rev1] and the second one in [Module Rev2].

    Host facilities (the regular-expression engine, [JSON.stringify],
    [Headers], [ReadableStream], [Response]) are modelled by the fragment of
    their behaviour that the framework exercises. *)

From Stdlib Require Import ZArith Ascii String List Bool Lia DecimalString.
From stdpp Require Import base option list strings gmap.

Set Warnings "-register-all".
Local Open Scope string_scope.
Local Open Scope list_scope.

(** ** JavaScript values *)

Module Js.

(** Characters that cannot be written inside a string literal of this file. *)
Definition dquote : ascii := "034"%char.
Definition backslash : ascii := "092"%char.
Definition LF : ascii := "010"%char.
Definition CR : ascii := "013"%char.
Definition TAB : ascii := "009"%char.
Definition NUL : ascii := "000"%char.

Definition chr (c : ascii) : string := String c EmptyString.

(** The values handlers pass to the response builder and throw: the
    primitive values, arrays and plain objects with data properties.  Numbers
    are the integers that print in decimal notation (below 10^21 in absolute
    value); a string is a sequence of bytes.  An object is given by the
    assignments [o[k] = v] that made it, in their order. *)
Inductive Value : Type :=
| Null
| Undefined
| Bool (b : bool)
| Num (n : Z)
| Str (s : string)
| Arr (items : list Value)
| Obj (props : list (string * Value)).

(** [typeof v]. *)
Definition typeof (v : Value) : string :=
  match v with
  | Null => "object"
  | Undefined => "undefined"
  | Bool _ => "boolean"
  | Num _ => "number"
  | Str _ => "string"
  | Arr _ => "object"
  | Obj _ => "object"
  end.

Definition num_to_string (n : Z) : string :=
  NilZero.string_of_int (Z.to_int n).

Definition hex_digit (n : nat) : ascii :=
  match n with
  | 0 => "0" | 1 => "1" | 2 => "2" | 3 => "3" | 4 => "4" | 5 => "5"
  | 6 => "6" | 7 => "7" | 8 => "8" | 9 => "9" | 10 => "a" | 11 => "b"
  | 12 => "c" | 13 => "d" | 14 => "e" | _ => "f"
  end%char.

(** One character of [QuoteJSONString]. *)
Definition quote_char (c : ascii) : string :=
  let n := nat_of_ascii c in
  if Ascii.eqb c dquote then String backslash (chr dquote)
  else if Ascii.eqb c backslash then String backslash (chr backslash)
  else if Nat.eqb n 8 then String backslash "b"
  else if Nat.eqb n 9 then String backslash "t"
  else if Nat.eqb n 10 then String backslash "n"
  else if Nat.eqb n 12 then String backslash "f"
  else if Nat.eqb n 13 then String backslash "r"
  else if Nat.ltb n 32 then
    String backslash ("u00" +:+ String (hex_digit (n / 16)) (chr (hex_digit (n mod 16))))
  else chr c.

Fixpoint quote_body (s : string) : string :=
  match s with
  | EmptyString => EmptyString
  | String c s' => quote_char c +:+ quote_body s'
  end.

Definition quote (s : string) : string :=
  chr dquote +:+ quote_body s +:+ chr dquote.

Fixpoint join (sep : string) (l : list string) : string :=
  match l with
  | [] => ""
  | [x] => x
  | x :: rest => x +:+ sep +:+ join sep rest
  end.

(** *** The properties of an object, in the order the host lists them

    A key that is an array index (the decimal text of an integer below
    [2^32 - 1]) comes before every other key, the indices in ascending order;
    the other keys keep the order in which they were created.  An assignment
    to an existing key changes its value and leaves it where it is. *)

Fixpoint digits (s : string) (acc : N) : option N :=
  match s with
  | EmptyString => Some acc
  | String c s' =>
      let n := nat_of_ascii c in
      if ((48 <=? n) && (n <=? 57))%nat
      then digits s' (acc * 10 + N.of_nat (n - 48))%N
      else None
  end.

Definition array_index (k : string) : option N :=
  match k with
  | EmptyString => None
  | String c rest =>
      if Ascii.eqb c "0" && negb (String.eqb rest "") then None
      else
        match digits k 0 with
        | Some n => if (n <? 4294967295)%N then Some n else None
        | None => None
        end
  end.

Definition comes_before (k k' : string) : bool :=
  match array_index k, array_index k' with
  | Some n, Some n' => (n <? n')%N
  | Some _, None => true
  | None, _ => false
  end.

(** [o[k] = v] *)
Fixpoint define {A : Type} (k : string) (v : A) (props : list (string * A))
  : list (string * A) :=
  match props with
  | [] => [(k, v)]
  | (k', v') :: rest =>
      if String.eqb k k' then (k, v) :: rest
      else if comes_before k k' then (k, v) :: (k', v') :: rest
      else (k', v') :: define k v rest
  end.

Definition properties {A : Type} (props : list (string * A)) : list (string * A) :=
  fold_left (fun o p => define (fst p) (snd p) o) props [].

(** [o[k]] for an own property, the value it was given last; [None] when
    there is none. *)
Definition property {A : Type} (k : string) (props : list (string * A)) : option A :=
  snd <$> find (fun p => String.eqb (fst p) k) (rev props).

(** [JSON.stringify v]; [None] is the result [undefined]. *)
Fixpoint stringify (v : Value) : option string :=
  match v with
  | Null => Some "null"
  | Undefined => None
  | Bool true => Some "true"
  | Bool false => Some "false"
  | Num n => Some (num_to_string n)
  | Str s => Some (quote s)
  | Arr items =>
      let item x := match stringify x with Some t => t | None => "null" end in
      Some ("[" +:+ join "," (map item items) +:+ "]")
  | Obj props =>
      let member (p : string * option string) :=
        match snd p with
        | Some t => [quote (fst p) +:+ ":" +:+ t]
        | None => []
        end in
      Some ("{" +:+ join ","
                      (flat_map member
                         (properties (map (fun p => (fst p, stringify (snd p))) props)))
                +:+ "}")
  end.

(** Conversion of an optional string to text: [String(x)] and template
    literals print [undefined] by name. *)
Definition text_of (o : option string) : string :=
  match o with
  | Some s => s
  | None => "undefined"
  end.

(** [String(v)], and what a template literal makes of [v], when the
    conversion does not throw: an array is the list of its elements, [null]
    and [undefined] among them giving no text. *)
Fixpoint to_string (v : Value) : string :=
  match v with
  | Null => "null"
  | Undefined => "undefined"
  | Bool true => "true"
  | Bool false => "false"
  | Num n => num_to_string n
  | Str s => s
  | Arr items =>
      join "," (map (fun x => match x with
                              | Null | Undefined => ""
                              | _ => to_string x
                              end) items)
  | Obj _ => "[object Object]"
  end.

(** The conversion to a string throws for an object whose own property
    [toString] hides the method: a data property cannot be called, and the
    inherited [valueOf] gives no primitive value. *)
Fixpoint convertible (v : Value) : bool :=
  match v with
  | Arr items => forallb convertible items
  | Obj props => negb (existsb (fun p => String.eqb (fst p) "toString") props)
  | _ => true
  end.

(** [x || y] takes [y] when [x] is one of these. *)
Definition truthy (v : Value) : bool :=
  match v with
  | Null | Undefined => false
  | Bool b => b
  | Num n => negb (n =? 0)%Z
  | Str s => negb (String.eqb s "")
  | Arr _ | Obj _ => true
  end.

(** Thrown values: a [HalinError] carries a status code and a message; every
    other [Error] carries its name and its message; a program can also throw
    a value that is no [Error]. *)
Inductive Thrown : Type :=
| HalinError (statusCode : Z) (message : string)
| Error (name : string) (message : string)
| NotError (v : Value).

(** The message of an [Error]; a value that is no [Error] has none. *)
Definition message (e : Thrown) : string :=
  match e with
  | HalinError _ m => m
  | Error _ m => m
  | NotError _ => ""
  end.

(** [e instanceof HalinError]. *)
Definition is_HalinError (e : Thrown) : bool :=
  match e with
  | HalinError _ _ => true
  | _ => false
  end.

(** [e instanceof Error]. *)
Definition is_Error (e : Thrown) : bool :=
  match e with
  | NotError _ => false
  | _ => true
  end.

(** Completion of a call: it returns a value or throws. *)
Inductive Completion (A : Type) : Type :=
| Normal (a : A)
| Abrupt (e : Thrown).
Arguments Normal {A} a.
Arguments Abrupt {A} e.

(** The [TypeError]s of the language.  Their texts are the host's. *)
Definition not_an_object (what expression : string) : Thrown :=
  Error "TypeError" (what +:+ " is not an object (evaluating '" +:+ expression +:+ "')").

Definition no_default_value : Thrown := Error "TypeError" "No default value".

Definition not_a_function (expression : string) : Thrown :=
  Error "TypeError" (expression +:+ " is not a function").

(** [String(v)] *)
Definition string_of (v : Value) : Completion string :=
  if convertible v then Normal (to_string v) else Abrupt no_default_value.

(** [e.message], where the source writes the expression as [expression]:
    reading a property of [null] or [undefined] throws. *)
Definition get_message (expression : string) (e : Thrown) : Completion Value :=
  match e with
  | HalinError _ m | Error _ m => Normal (Str m)
  | NotError Null => Abrupt (not_an_object "null" expression)
  | NotError Undefined => Abrupt (not_an_object "undefined" expression)
  | NotError (Obj props) =>
      Normal (match property "message" props with Some v => v | None => Undefined end)
  | NotError _ => Normal Undefined
  end.

(** The text of [e.message] in a template literal. *)
Definition message_text (expression : string) (e : Thrown) : Completion string :=
  match get_message expression e with
  | Normal v => string_of v
  | Abrupt t => Abrupt t
  end.

End Js.

Abbreviation Completion := Js.Completion.
Abbreviation Normal := Js.Normal.
Abbreviation Abrupt := Js.Abrupt.

(** ** The host's regular expressions

    The fragment of the pattern language that path templates and the
    framework's own literals use: characters, [.], character classes with
    ranges, capturing groups, alternation, the anchors [^] and [$], identity
    escapes and the greedy quantifiers [*], [+] and [?].  A source text outside
    the fragment is reported as [Unsupported], apart from the texts the host
    rejects with a [SyntaxError]. *)

Module RegExp.

Inductive ClassItem : Type :=
| CChar (c : ascii)
| CRange (lo hi : ascii).

Inductive Regex : Type :=
| REmpty
| RChar (c : ascii)
| RAny
| RClass (negated : bool) (items : list ClassItem)
| RBol
| REol
| RGroup (idx : nat) (r : Regex)
| RSeq (r1 r2 : Regex)
| RAlt (r1 r2 : Regex)
| RStar (r : Regex)
| RPlus (r : Regex)
| ROpt (r : Regex).

(** *** Reading a pattern source *)

Inductive Token : Type :=
| TChar (c : ascii)
| TAny
| TClass (negated : bool) (items : list ClassItem)
| TBol
| TEol
| TOpen
| TClose
| TBar
| TStar
| TPlus
| TQuest.

Inductive Failure : Type := SyntaxError | Unsupported.

Inductive ClassPending : Type :=
| PNone
| PChar (c : ascii)
| PDash (c : ascii).

Inductive LexMode : Type :=
| LNormal
| LEscape
| LAfterOpen
| LClassStart
| LClass (negated : bool) (items : list ClassItem) (pending : ClassPending)
| LClassEscape (negated : bool) (items : list ClassItem) (pending : ClassPending).

Definition is_word (c : ascii) : bool :=
  let n := nat_of_ascii c in
  ((48 <=? n) && (n <=? 57) || (65 <=? n) && (n <=? 90)
   || (97 <=? n) && (n <=? 122) || (n =? 95) || (128 <=? n))%nat.

(** One more atom [x] of a character class; [items] is kept in reverse. *)
Definition class_atom (items : list ClassItem) (pending : ClassPending)
    (x : ascii) (plain : bool)
  : Failure + (list ClassItem * ClassPending) :=
  match pending with
  | PNone => inr (items, PChar x)
  | PChar c =>
      if plain && Ascii.eqb x "-" then inr (items, PDash c)
      else inr (CChar c :: items, PChar x)
  | PDash c =>
      if (nat_of_ascii x <? nat_of_ascii c)%nat then inl SyntaxError
      else inr (CRange c x :: items, PNone)
  end.

Definition class_close (items : list ClassItem) (pending : ClassPending)
  : list ClassItem :=
  match pending with
  | PNone => rev items
  | PChar c => rev (CChar c :: items)
  | PDash c => rev (CChar "-" :: CChar c :: items)
  end.

Definition lex_normal (c : ascii) : Failure + (list Token * LexMode) :=
  if Ascii.eqb c Js.backslash then inr ([], LEscape)
  else if Ascii.eqb c "[" then inr ([], LClassStart)
  else if Ascii.eqb c "(" then inr ([TOpen], LAfterOpen)
  else if Ascii.eqb c ")" then inr ([TClose], LNormal)
  else if Ascii.eqb c "|" then inr ([TBar], LNormal)
  else if Ascii.eqb c "*" then inr ([TStar], LNormal)
  else if Ascii.eqb c "+" then inr ([TPlus], LNormal)
  else if Ascii.eqb c "?" then inr ([TQuest], LNormal)
  else if Ascii.eqb c "." then inr ([TAny], LNormal)
  else if Ascii.eqb c "^" then inr ([TBol], LNormal)
  else if Ascii.eqb c "$" then inr ([TEol], LNormal)
  else if Ascii.eqb c "{" || Ascii.eqb c "}" then inl Unsupported
  else inr ([TChar c], LNormal).

Definition lex_step (mode : LexMode) (c : ascii)
  : Failure + (list Token * LexMode) :=
  match mode with
  | LNormal => lex_normal c
  | LAfterOpen => if Ascii.eqb c "?" then inl Unsupported else lex_normal c
  | LEscape => if is_word c then inl Unsupported else inr ([TChar c], LNormal)
  | LClassStart =>
      if Ascii.eqb c "^" then inr ([], LClass true [] PNone)
      else if Ascii.eqb c "]" then inr ([TClass false []], LNormal)
      else if Ascii.eqb c Js.backslash then inr ([], LClassEscape false [] PNone)
      else inr ([], LClass false [] (PChar c))
  | LClass neg items pending =>
      if Ascii.eqb c "]" then inr ([TClass neg (class_close items pending)], LNormal)
      else if Ascii.eqb c Js.backslash then inr ([], LClassEscape neg items pending)
      else match class_atom items pending c true with
           | inl f => inl f
           | inr (items', pending') => inr ([], LClass neg items' pending')
           end
  | LClassEscape neg items pending =>
      if is_word c then inl Unsupported
      else match class_atom items pending c false with
           | inl f => inl f
           | inr (items', pending') => inr ([], LClass neg items' pending')
           end
  end.

Fixpoint lex (mode : LexMode) (src : list ascii) : Failure + list Token :=
  match src with
  | [] =>
      match mode with
      | LNormal | LAfterOpen => inr []
      | _ => inl SyntaxError
      end
  | c :: rest =>
      match lex_step mode c with
      | inl f => inl f
      | inr (ts, mode') =>
          match lex mode' rest with
          | inl f => inl f
          | inr ts' => inr (ts ++ ts')%list
          end
      end
  end.

Inductive LastTerm : Type := NoTerm | Atom | Quantified | Assertion.

(** A sequence under construction: finished alternatives and the terms of the
    current alternative, both in reverse. *)
Record Frame : Type := mkFrame {
  alts : list Regex;
  terms : list Regex;
  last : LastTerm
}.

Definition empty_frame : Frame := mkFrame [] [] NoTerm.

Definition seq_of (rev_terms : list Regex) : Regex :=
  match rev_terms with
  | [] => REmpty
  | t :: earlier => fold_left (fun acc r => RSeq r acc) earlier t
  end.

Definition close_frame (f : Frame) : Regex :=
  fold_left (fun acc r => RAlt r acc) (alts f) (seq_of (terms f)).

Definition push_term (f : Frame) (r : Regex) (kind : LastTerm) : Frame :=
  mkFrame (alts f) (r :: terms f) kind.

Definition quantify (f : Frame) (q : Regex -> Regex) (lazy_mark : bool)
  : Failure + Frame :=
  match last f, terms f with
  | Atom, t :: earlier => inr (mkFrame (alts f) (q t :: earlier) Quantified)
  | Quantified, _ => if lazy_mark then inl Unsupported else inl SyntaxError
  | _, _ => inl SyntaxError
  end.

(** [parse ts cur stack n]: [stack] holds the enclosing groups, each with its
    capture index and the frame it interrupted; [n] groups were opened so
    far.  The result is the expression and its number of groups. *)
Fixpoint parse (ts : list Token) (cur : Frame) (stack : list (nat * Frame))
    (n : nat) : Failure + (Regex * nat) :=
  match ts with
  | [] =>
      match stack with
      | [] => inr (close_frame cur, n)
      | _ :: _ => inl SyntaxError
      end
  | t :: rest =>
      match t with
      | TChar c => parse rest (push_term cur (RChar c) Atom) stack n
      | TAny => parse rest (push_term cur RAny Atom) stack n
      | TClass neg items => parse rest (push_term cur (RClass neg items) Atom) stack n
      | TBol => parse rest (push_term cur RBol Assertion) stack n
      | TEol => parse rest (push_term cur REol Assertion) stack n
      | TOpen => parse rest empty_frame ((S n, cur) :: stack) (S n)
      | TClose =>
          match stack with
          | [] => inl SyntaxError
          | (idx, parent) :: stack' =>
              parse rest (push_term parent (RGroup idx (close_frame cur)) Atom) stack' n
          end
      | TBar => parse rest (mkFrame (seq_of (terms cur) :: alts cur) [] NoTerm) stack n
      | TStar =>
          match quantify cur RStar false with
          | inl f => inl f
          | inr cur' => parse rest cur' stack n
          end
      | TPlus =>
          match quantify cur RPlus false with
          | inl f => inl f
          | inr cur' => parse rest cur' stack n
          end
      | TQuest =>
          match quantify cur ROpt true with
          | inl f => inl f
          | inr cur' => parse rest cur' stack n
          end
      end
  end.

(** A compiled expression: [new RegExp(source)]. *)
Record t : Type := mk {
  ast : Regex;
  ngroups : nat
}.

Definition compile (source : string) : Failure + t :=
  match lex LNormal (list_ascii_of_string source) with
  | inl f => inl f
  | inr ts =>
      match parse ts empty_frame [] 0 with
      | inl f => inl f
      | inr (r, n) => inr (mk r n)
      end
  end.

(** *** Matching

    A backtracking matcher in continuation-passing style.  The state holds
    the position in the input and, for every group, the span it captured
    last. *)

Record MState : Type := mkM {
  pos : nat;
  caps : list (option (nat * nat))
}.

Definition Cont : Type := MState -> option MState.

Fixpoint groups_in (r : Regex) : list nat :=
  match r with
  | RGroup idx r' => idx :: groups_in r'
  | RSeq r1 r2 | RAlt r1 r2 => (groups_in r1 ++ groups_in r2)%list
  | RStar r' | RPlus r' | ROpt r' => groups_in r'
  | _ => []
  end.

(** Every iteration of a quantifier forgets what its groups captured. *)
Definition clear (gs : list nat) (x : MState) : MState :=
  mkM (pos x) (fold_right (fun g cs => <[Nat.pred g := None]> cs) (caps x) gs).

Definition in_item (d : ascii) (it : ClassItem) : bool :=
  match it with
  | CChar c => Ascii.eqb d c
  | CRange lo hi =>
      (nat_of_ascii lo <=? nat_of_ascii d)%nat && (nat_of_ascii d <=? nat_of_ascii hi)%nat
  end.

Definition in_class (d : ascii) (items : list ClassItem) : bool :=
  existsb (in_item d) items.

Definition line_terminator (d : ascii) : bool :=
  Ascii.eqb d Js.LF || Ascii.eqb d Js.CR.

(** Greedy repetition with no lower bound: an iteration that consumes nothing
    is rejected, so [n] iterations suffice when [n] exceeds the input left. *)
Fixpoint repeat_greedy (body : MState -> Cont -> option MState) (n : nat)
    (x : MState) (k : Cont) : option MState :=
  match n with
  | 0 => k x
  | S n' =>
      match body x (fun y => if (pos y =? pos x)%nat then None
                             else repeat_greedy body n' y k) with
      | Some z => Some z
      | None => k x
      end
  end.

Fixpoint run (r : Regex) (input : list ascii) (x : MState) (k : Cont)
  : option MState :=
  match r with
  | REmpty => k x
  | RChar c =>
      match input !! pos x with
      | Some d => if Ascii.eqb d c then k (mkM (S (pos x)) (caps x)) else None
      | None => None
      end
  | RAny =>
      match input !! pos x with
      | Some d => if line_terminator d then None else k (mkM (S (pos x)) (caps x))
      | None => None
      end
  | RClass neg items =>
      match input !! pos x with
      | Some d =>
          if xorb neg (in_class d items) then k (mkM (S (pos x)) (caps x)) else None
      | None => None
      end
  | RBol => if (pos x =? 0)%nat then k x else None
  | REol => if (pos x =? length input)%nat then k x else None
  | RGroup idx r' =>
      run r' input x
        (fun y => k (mkM (pos y) (<[Nat.pred idx := Some (pos x, pos y)]> (caps y))))
  | RSeq r1 r2 => run r1 input x (fun y => run r2 input y k)
  | RAlt r1 r2 =>
      match run r1 input x k with
      | Some z => Some z
      | None => run r2 input x k
      end
  | RStar r' =>
      repeat_greedy (fun y c => run r' input (clear (groups_in r') y) c)
        (S (length input - pos x)) x k
  | RPlus r' =>
      run r' input (clear (groups_in r') x)
        (fun y =>
           repeat_greedy (fun y' c => run r' input (clear (groups_in r') y') c)
             (S (length input - pos y)) y k)
  | ROpt r' =>
      match run r' input (clear (groups_in r') x)
              (fun y => if (pos y =? pos x)%nat then None else k y) with
      | Some z => Some z
      | None => k x
      end
  end.

(** The result of a successful match: where it starts and ends, and the
    text of every group ([None] for a group that took no part). *)
Record Match : Type := mkMatch {
  index : nat;
  end_index : nat;
  matched : string;
  groups : list (option string)
}.

Definition slice (input : list ascii) (s e : nat) : string :=
  string_of_list_ascii (take (e - s) (drop s input)).

Definition exec_at (re : t) (input : list ascii) (start : nat) : option Match :=
  match run (ast re) input (mkM start (replicate (ngroups re) None)) Some with
  | Some y =>
      Some (mkMatch start (pos y) (slice input start (pos y))
              (map (fun c => match c with
                             | Some (s, e) => Some (slice input s e)
                             | None => None
                             end) (caps y)))
  | None => None
  end.

Fixpoint search (re : t) (input : list ascii) (n start : nat) : option Match :=
  match exec_at re input start with
  | Some mt => Some mt
  | None =>
      match n with
      | 0 => None
      | S n' => search re input n' (S start)
      end
  end.

(** [re.exec(input)] with [lastIndex = from]: the leftmost match that starts
    at [from] or later. *)
Definition exec (re : t) (input : list ascii) (from : nat) : option Match :=
  if (length input <? from)%nat then None
  else search re input (length input - from) from.

(** [s.match(re)] for an expression without the [g] flag: the matched text
    followed by the groups, or [None] for [null]. *)
Definition match_first (s : string) (re : t) : option (list (option string)) :=
  match exec re (list_ascii_of_string s) 0 with
  | Some mt => Some (Some (matched mt) :: groups mt)
  | None => None
  end.

(** The successive matches of an expression with the [g] flag; after an
    empty match the search resumes one character further. *)
Fixpoint scan (re : t) (input : list ascii) (fuel from : nat) : list Match :=
  match fuel with
  | 0 => []
  | S fuel' =>
      match exec re input from with
      | None => []
      | Some mt =>
          mt :: scan re input fuel'
                  (if (end_index mt =? index mt)%nat then S (end_index mt)
                   else end_index mt)
      end
  end.

Definition matches (re : t) (s : string) : list Match :=
  let input := list_ascii_of_string s in
  scan re input (S (length input)) 0.

(** [s.match(re)] for an expression with the [g] flag: every matched text, or
    [None] for [null] when there is none. *)
Definition match_all (s : string) (re : t) : option (list string) :=
  match matches re s with
  | [] => None
  | ms => Some (map matched ms)
  end.

Fixpoint substitute (input : list ascii) (ms : list Match) (from : nat)
    (replacement : list ascii) : list ascii :=
  match ms with
  | [] => drop from input
  | mt :: rest =>
      (take (index mt - from) (drop from input) ++ replacement
       ++ substitute input rest (end_index mt) replacement)%list
  end.

(** [s.replace(re, replacement)] for an expression with the [g] flag and a
    replacement text without [$]. *)
Definition replace_all (s : string) (re : t) (replacement : string) : string :=
  string_of_list_ascii
    (substitute (list_ascii_of_string s) (matches re s) 0
       (list_ascii_of_string replacement)).

(** An expression literal of the program: its source is inside the fragment. *)
Definition literal (source : string) : t :=
  match compile source with
  | inr re => re
  | inl _ => mk REmpty 0
  end.

End RegExp.

(** ** The response builder and the SSE writer *)

(** [Headers]: a map from lower-cased field names to values. *)
Abbreviation Headers := (gmap string string).

Definition lower_char (c : ascii) : ascii :=
  let n := nat_of_ascii c in
  if ((65 <=? n) && (n <=? 90))%nat then ascii_of_nat (n + 32) else c.

Definition upper_char (c : ascii) : ascii :=
  let n := nat_of_ascii c in
  if ((97 <=? n) && (n <=? 122))%nat then ascii_of_nat (n - 32) else c.

Fixpoint map_string (f : ascii -> ascii) (s : string) : string :=
  match s with
  | EmptyString => EmptyString
  | String c s' => String (f c) (map_string f s')
  end.

(** [s.toLowerCase()] and [s.toUpperCase()] on the letters of ASCII, of which
    the names of headers and methods are made. *)
Definition toLowerCase : string -> string := map_string lower_char.
Definition toUpperCase : string -> string := map_string upper_char.

(** A character of a token of HTTP, of which header names are made. *)
Definition token_char (c : ascii) : bool :=
  let n := nat_of_ascii c in
  ((48 <=? n) && (n <=? 57) || (65 <=? n) && (n <=? 90) || (97 <=? n) && (n <=? 122))%nat
  || existsb (Ascii.eqb c)
       ["!"; "#"; "$"; "%"; "&"; "'"; "*"; "+"; "-"; "."; "^"; "_"; "`"; "|"; "~"]%char.

(** The white space that the host strips from both ends of a header value. *)
Definition http_space (c : ascii) : bool :=
  Ascii.eqb c " " || Ascii.eqb c Js.TAB || Ascii.eqb c Js.LF || Ascii.eqb c Js.CR.

Fixpoint drop_spaces (l : list ascii) : list ascii :=
  match l with
  | c :: rest => if http_space c then drop_spaces rest else l
  | [] => []
  end.

Definition normalize_value (value : string) : string :=
  string_of_list_ascii
    (rev (drop_spaces (rev (drop_spaces (list_ascii_of_string value))))).

Definition valid_name (name : string) : bool :=
  negb (String.eqb name "") && forallb token_char (list_ascii_of_string name).

Definition valid_value (value : string) : bool :=
  forallb (fun c => negb (Ascii.eqb c Js.NUL || Ascii.eqb c Js.LF || Ascii.eqb c Js.CR))
    (list_ascii_of_string value).

(** The [TypeError]s of [Headers]; their texts are the host's. *)
Definition invalid_header_name (name : string) : Js.Thrown :=
  Js.Error "TypeError" ("Invalid header name: '" +:+ name +:+ "'").

Definition invalid_header_value (name value : string) : Js.Thrown :=
  Js.Error "TypeError" ("Header '" +:+ name +:+ "' has invalid value: '" +:+ value +:+ "'").

(** [headers.set(name, value)]: the host strips the white space around the
    value, and refuses a name that is no token and a value with a NUL, a line
    feed or a carriage return in it. *)
Definition headers_set (name value : string) (h : Headers) : Completion Headers :=
  let v := normalize_value value in
  if negb (valid_name name) then Abrupt (invalid_header_name name)
  else if negb (valid_value v) then Abrupt (invalid_header_value name v)
  else Normal (<[toLowerCase name := v]> h).

(** [headers.get(name)], for a name that is a token. *)
Definition headers_get (name : string) (h : Headers) : option string :=
  h !! toLowerCase name.

(** [new Headers({ name: value, ... })] for names and values that the host
    accepts as they are. *)
Definition headers_of (entries : list (string * string)) : Headers :=
  fold_left (fun h e => <[toLowerCase (fst e) := snd e]> h) entries ∅.

(** *** The stream behind an SSE writer *)

Inductive StreamState : Type := Readable | Closed | Cancelled.

(** The controller of a [ReadableStream]: the chunks enqueued so far, and how
    many times the stream was told to finish. *)
Record Controller : Type := mkController {
  stream_state : StreamState;
  chunks : list string;
  close_signals : nat
}.

Definition new_stream : Controller := mkController Readable [] 0.

Definition stream_not_readable : Js.Thrown :=
  Js.Error "TypeError" "Invalid state: the stream is not readable".

(** [controller.enqueue(chunk)]: the host refuses it on a finished stream. *)
Definition enqueue (chunk : string) (c : Controller) : Completion Controller :=
  match stream_state c with
  | Readable => Normal (mkController Readable (chunks c ++ [chunk]) (close_signals c))
  | _ => Abrupt stream_not_readable
  end.

(** [controller.close()]: the host refuses a second one. *)
Definition controller_close (c : Controller) : Completion Controller :=
  match stream_state c with
  | Readable => Normal (mkController Closed (chunks c) (S (close_signals c)))
  | _ => Abrupt stream_not_readable
  end.

(** *** [class SSEWriter] *)

Record SSEWriter : Type := mkSSEWriter {
  sse_statusCode : Z;
  sse_headers : Headers;
  controller : Controller;
  closed : bool
}.

(** [new SSEWriter()]. *)
Definition new_SSEWriter : SSEWriter :=
  mkSSEWriter 200
    (headers_of [("Content-Type", "text/event-stream");
                 ("Cache-Control", "no-cache");
                 ("Connection", "keep-alive")])
    new_stream false.

(** The [cancel()] callback of the stream: the consumer went away. *)
Definition sse_cancel (w : SSEWriter) : SSEWriter :=
  mkSSEWriter (sse_statusCode w) (sse_headers w)
    (mkController Cancelled (chunks (controller w)) (close_signals (controller w)))
    true.

(** The text of an event. *)
Definition sse_message (data : Js.Value) : string :=
  match data with
  | Js.Str s => s
  | _ => Js.text_of (Js.stringify data)
  end.

Definition sse_frame (data : Js.Value) : string :=
  "data: " +:+ sse_message data +:+ String Js.LF (Js.chr Js.LF).

(** [SSEWriter.send(data)] of the first revision: the writer afterwards, and
    the boolean it returns unless the host throws. *)
Definition sse_send (data : Js.Value) (w : SSEWriter) : Completion bool * SSEWriter :=
  if closed w then (Normal false, w)
  else
    match enqueue (sse_frame data) (controller w) with
    | Normal c => (Normal true, mkSSEWriter (sse_statusCode w) (sse_headers w) c (closed w))
    | Abrupt e => (Abrupt e, w)
    end.

(** [SSEWriter.send(data)] of the second revision returns nothing. *)
Definition sse_send_void (data : Js.Value) (w : SSEWriter) : Completion unit * SSEWriter :=
  if closed w then (Normal tt, w)
  else
    match enqueue (sse_frame data) (controller w) with
    | Normal c => (Normal tt, mkSSEWriter (sse_statusCode w) (sse_headers w) c (closed w))
    | Abrupt e => (Abrupt e, w)
    end.

(** What the caller of [send] holds afterwards: the boolean of the first
    revision, and [undefined] in the second, where [send] returns nothing. *)
Definition returned_bool (c : Completion bool) : Completion Js.Value :=
  match c with
  | Normal b => Normal (Js.Bool b)
  | Abrupt e => Abrupt e
  end.

Definition returned_void (c : Completion unit) : Completion Js.Value :=
  match c with
  | Normal _ => Normal Js.Undefined
  | Abrupt e => Abrupt e
  end.

(** [SSEWriter.close()]: the flag is set before the controller is told. *)
Definition sse_close (w : SSEWriter) : Completion unit * SSEWriter :=
  if closed w then (Normal tt, w)
  else
    let w' := mkSSEWriter (sse_statusCode w) (sse_headers w) (controller w) true in
    match controller_close (controller w) with
    | Normal c => (Normal tt, mkSSEWriter (sse_statusCode w) (sse_headers w) c true)
    | Abrupt e => (Abrupt e, w')
    end.

(** *** The response object [res] *)

Inductive Body : Type :=
| BNull
| BUndefined
| BText (s : string)
| BStream (content : list string).

Record Response : Type := mkResponse {
  statusCode : Z;
  headers : Headers;
  body : Body
}.

(** The object literal [res] at the start of a request. *)
Definition new_Response : Response := mkResponse 200 ∅ BNull.

Definition res_status (code : Z) (r : Response) : Response :=
  mkResponse code (headers r) (body r).

Definition res_header (name value : string) (r : Response) : Completion Response :=
  match headers_set name value (headers r) with
  | Normal h => Normal (mkResponse (statusCode r) h (body r))
  | Abrupt e => Abrupt e
  end.

(** [this.header('Content-Type', value)] for the two values that [json] and
    [text] write, which the host accepts: lemma [content_type_accepted]. *)
Definition res_content_type (value : string) (r : Response) : Response :=
  mkResponse (statusCode r) (<["content-type" := value]> (headers r)) (body r).

Definition res_json (data : Js.Value) (r : Response) : Response :=
  let r' := res_content_type "application/json" r in
  mkResponse (statusCode r') (headers r')
    (match Js.stringify data with Some t => BText t | None => BUndefined end).

Definition res_text (data : string) (r : Response) : Response :=
  let r' := res_content_type "text/plain" r in
  mkResponse (statusCode r') (headers r') (BText data).

(** In the branch of [String(data)] the value is no object. *)
Definition res_send (data : Js.Value) (r : Response) : Response :=
  if String.eqb (Js.typeof data) "object" then res_json data r
  else res_text (Js.to_string data) r.

Definition res_stream (content : list string) (r : Response) : Response :=
  mkResponse (statusCode r) (headers r) (BStream content).

(** *** The response handed to the host *)

Inductive WireBody : Type :=
| WEmpty
| WText (s : string)
| WStream (content : list string)
| WEvents (c : Controller).

Record Wire : Type := mkWire {
  status : Z;
  wire_headers : Headers;
  wire_body : WireBody
}.

Definition wire_of_body (b : Body) : WireBody :=
  match b with
  | BNull | BUndefined => WEmpty
  | BText s => WText s
  | BStream content => WStream content
  end.

(** The statuses of a response that has no body. *)
Definition null_body_status (code : Z) : bool :=
  ((code =? 204) || (code =? 205) || (code =? 304))%Z.

(** The errors of the constructor of a response; their texts are the
    host's. *)
Definition status_out_of_range (code : Z) : Js.Thrown :=
  Js.Error "RangeError"
    ("The status provided (" +:+ Js.num_to_string code
     +:+ ") must be 101 or in the range of [200, 599]").

Definition body_with_null_body_status : Js.Thrown :=
  Js.Error "TypeError" "Response with null body status cannot have body".

(** [new Response(body, { status, headers })], as the Fetch standard defines
    the constructor: it refuses a status outside 200..599 and a body together
    with a status that has none, and it names the content type of a text that
    comes without one. *)
Definition construct (init : Wire) : Completion Wire :=
  if ((status init <? 200) || (599 <? status init))%Z
  then Abrupt (status_out_of_range (status init))
  else
    match wire_body init with
    | WEmpty => Normal init
    | b =>
        if null_body_status (status init) then Abrupt body_with_null_body_status
        else
          match b, wire_headers init !! "content-type" with
          | WText _, None =>
              Normal (mkWire (status init)
                        (<["content-type" := "text/plain;charset=UTF-8"]> (wire_headers init))
                        b)
          | _, _ => Normal init
          end
    end.

(** A status that the constructor accepts together with a body. *)
Definition replies_with_body (code : Z) : Prop :=
  (200 <= code <= 599)%Z /\ null_body_status code = false.

(** [new Response(res.body, { status: res.statusCode, headers: res.headers })]. *)
Definition wire_of_res (r : Response) : Completion Wire :=
  construct (mkWire (statusCode r) (headers r) (wire_of_body (body r))).

(** The same for an SSE writer, whose body is its stream. *)
Definition wire_of_sse (w : SSEWriter) : Completion Wire :=
  construct (mkWire (sse_statusCode w) (sse_headers w) (WEvents (controller w))).

Definition json_headers : Headers := headers_of [("Content-Type", "application/json")].

(** [JSON.stringify({ error: text })]. *)
Definition error_body (text : string) : string :=
  Js.text_of (Js.stringify (Js.Obj [("error", Js.Str text)])).

(** ** Requests *)

Record RawBody : Type := mkRawBody {
  body_text : string;                                  (* request.text() *)
  body_json : Completion Js.Value;                     (* request.json() *)
  body_form : Completion (list (string * string))      (* request.formData() *)
}.

(** The transport request, with its URL also split into the path and the
    entries of the query. *)
Record RawRequest : Type := mkRaw {
  raw_method : string;
  raw_path : string;
  raw_query : list (string * string);
  raw_headers : Headers;
  raw_body : option RawBody;
  raw_url : string
}.

(** What [req.json()] resolves to, where the entry point defines it: the
    parsed body in [listen], the body of the transport request, a stream or
    [null], in [handle]. *)
Inductive JsonThunk : Type :=
| ResolvesBody (v : Js.Value)
| ResolvesStream (b : option RawBody).

(** The request context [req]; handlers read it.  [req_raw] is [None] for the
    empty object that [handle] of the second revision puts there, and
    [req_json] is [None] in the first revision, whose context has no such
    method. *)
Record Request : Type := mkRequest {
  req_method : string;
  req_path : string;
  req_params : gmap string (option string);
  req_query : gmap string string;
  req_headers : Headers;
  req_body : Js.Value;
  req_url : string;
  req_raw : option RawRequest;
  req_json : option JsonThunk
}.

(** ** Handlers

    A handler is a JavaScript function.  Its body is given as a script over
    the operations it can perform on the response, the continuation and
    exceptions; a handler awaits the continuation when it calls it, or
    returns its promise. *)

Inductive ResOp : Type :=
| OpStatus (code : Z)                 (* res.status(code) *)
| OpHeader (name value : string)      (* res.header(name, value) *)
| OpJson (data : Js.Value)            (* res.json(data) *)
| OpText (data : string)              (* res.text(data) *)
| OpSend (data : Js.Value)            (* res.send(data) *)
| OpStream (content : list string)    (* res.stream(stream) *)
| OpSse                               (* sse = res.sse() *)
| OpSseSend (data : Js.Value)         (* sse.send(data) *)
| OpSseClose.                         (* sse.close() *)

Inductive Script : Type :=
| Return
| Do (op : ResOp) (k : Script)
| Inspect (f : Response -> option SSEWriter -> Script)
| AwaitNext (k : Script)                                  (* await next(); k *)
| Try (block : Script) (handler : Js.Thrown -> Script) (k : Script)
| Throw (e : Js.Thrown).

(** A function value: its declared number of parameters, what it does when
    called as [f(req, res, next)] and as [f(error, req, res, next)]. *)
Record JsFn : Type := mkFn {
  fn_length : nat;
  call3 : Request -> Script;
  call4 : Js.Thrown -> Request -> Script
}.

(** ** Routing *)

Record RouteDefinition : Type := mkRoute {
  route_method : string;
  route_path : string;
  route_pattern : RegExp.t;
  route_handlers : list JsFn
}.

Record RouteMatch : Type := mkRouteMatch {
  route : RouteDefinition;
  params : gmap string (option string)
}.

(** [class Halin]: the private fields. *)
Record Halin : Type := mkHalin {
  routes : list RouteDefinition;
  middlewares : list JsFn;
  errorHandlers : list JsFn;
  prefix : string;
  currentGroupMiddlewares : list JsFn
}.

(** [new Halin()]. *)
Definition new_Halin : Halin := mkHalin [] [] [] "" [].

(** [use(...handlers)]. *)
Definition use1 (app : Halin) (handler : JsFn) : Halin :=
  if (fn_length handler =? 4)%nat then
    mkHalin (routes app) (middlewares app) (errorHandlers app ++ [handler])
      (prefix app) (currentGroupMiddlewares app)
  else
    mkHalin (routes app) (middlewares app ++ [handler]) (errorHandlers app)
      (prefix app) (currentGroupMiddlewares app).

Definition use (handlers : list JsFn) (app : Halin) : Halin :=
  fold_left use1 handlers app.

(** The expression literals of the router. *)
Definition param_segment : RegExp.t := RegExp.literal "\/:([^/]+)".
Definition star : RegExp.t := RegExp.literal "\*".
Definition param_name : RegExp.t := RegExp.literal ":[^/]+".

(** The source text that [pathToPattern] hands to [new RegExp]. *)
Definition pattern_source (path : string) : string :=
  let pattern :=
    RegExp.replace_all (RegExp.replace_all path param_segment "/([^/]+)") star ".*" in
  "^" +:+ pattern +:+ "$".

Definition pathToPattern (path : string) : RegExp.Failure + RegExp.t :=
  RegExp.compile (pattern_source path).

(** [addRoute(method, path, ...handlers)]; the constructor of the pattern
    may throw. *)
Definition addRoute (method path : string) (handlers : list JsFn) (app : Halin)
  : RegExp.Failure + Halin :=
  match pathToPattern path with
  | inl f => inl f
  | inr pattern =>
      inr (mkHalin (routes app ++ [mkRoute method path pattern handlers])
             (middlewares app) (errorHandlers app) (prefix app)
             (currentGroupMiddlewares app))
  end.

Definition on (method path : string) (handlers : list JsFn) (app : Halin)
  : RegExp.Failure + Halin :=
  addRoute (toUpperCase method) path handlers app.

Definition get (path : string) (handlers : list JsFn) (app : Halin)
  : RegExp.Failure + Halin :=
  on "GET" path handlers app.

Definition post (path : string) (handlers : list JsFn) (app : Halin)
  : RegExp.Failure + Halin :=
  on "POST" path handlers app.

(** [params[name] = value] on a plain object: the key [__proto__] reaches the
    prototype setter, which ignores a value that is no object. *)
Definition set_param (ps : gmap string (option string)) (name : string)
    (value : option string) : gmap string (option string) :=
  if String.eqb name "__proto__" then ps else <[name := value]> ps.

(** [param.slice(1)]. *)
Definition slice1 (s : string) : string :=
  match s with
  | EmptyString => EmptyString
  | String _ s' => s'
  end.

(** The loop [paramNames.forEach((param, index) => ...)], from [index]. *)
Fixpoint bind_params (names : list string) (index : nat)
    (found : list (option string)) (ps : gmap string (option string))
  : gmap string (option string) :=
  match names with
  | [] => ps
  | param :: rest =>
      bind_params rest (S index) found
        (set_param ps (slice1 param) (mjoin (found !! S index)))
  end.

Definition paramNames (path : string) : list string :=
  match RegExp.match_all path param_name with
  | Some names => names
  | None => []
  end.

Definition extractParams (r : RouteDefinition) (path : string)
  : option (gmap string (option string)) :=
  match RegExp.match_first path (route_pattern r) with
  | None => None
  | Some found => Some (bind_params (paramNames (route_path r)) 0 found ∅)
  end.

Fixpoint find_in (rs : list RouteDefinition) (method path : string)
  : option RouteMatch :=
  match rs with
  | [] => None
  | r :: rest =>
      if String.eqb (route_method r) method then
        match extractParams r path with
        | Some ps => Some (mkRouteMatch r ps)
        | None => find_in rest method path
        end
      else find_in rest method path
  end.

Definition findRoute (app : Halin) (method path : string) : option RouteMatch :=
  find_in (routes app) method path.

(** ** The dispatch engine *)

(** What the engine was seen to call: a ghost record kept beside the
    program's own state. *)
Inductive Call : Type :=
| Invoked (position : nat) (h : JsFn)
| InvokedOnError (position : nat) (h : JsFn) (error : Js.Thrown).

(** The variables of one request: [res], [currentResponse], [index] and
    [errorIndex], and the record of calls. *)
Record Store : Type := mkStore {
  res : Response;
  currentResponse : option SSEWriter;
  index : nat;
  errorIndex : nat;
  calls : list Call
}.

Definition new_Store : Store := mkStore new_Response None 0 0 [].

Definition with_res (f : Response -> Response) (s : Store) : Store :=
  mkStore (f (res s)) (currentResponse s) (index s) (errorIndex s) (calls s).

Definition with_sse (w : option SSEWriter) (s : Store) : Store :=
  mkStore (res s) w (index s) (errorIndex s) (calls s).

Definition currentResponse_undeclared : Js.Thrown :=
  Js.Error "ReferenceError" "currentResponse is not defined".

Definition no_writer : Js.Thrown :=
  Js.Error "TypeError" "undefined is not an object".

(** A method of [res] that returns [res] or throws. *)
Definition update_res (c : Completion Response) (s : Store) : Completion unit * Store :=
  match c with
  | Normal r => (Normal tt, with_res (fun _ => r) s)
  | Abrupt e => (Abrupt e, s)
  end.

Definition discard {A : Type} (c : Completion A) : Completion unit :=
  match c with
  | Normal _ => Normal tt
  | Abrupt e => Abrupt e
  end.

(** One operation of a handler.  [declared] tells whether the entry point
    declares the variable [currentResponse] that [res.sse()] assigns. *)
Definition apply_op (declared : bool) (op : ResOp) (s : Store)
  : Completion unit * Store :=
  match op with
  | OpStatus code => (Normal tt, with_res (res_status code) s)
  | OpHeader name value => update_res (res_header name value (res s)) s
  | OpJson data => (Normal tt, with_res (res_json data) s)
  | OpText data => (Normal tt, with_res (res_text data) s)
  | OpSend data => (Normal tt, with_res (res_send data) s)
  | OpStream content => (Normal tt, with_res (res_stream content) s)
  | OpSse =>
      if declared then (Normal tt, with_sse (Some new_SSEWriter) s)
      else (Abrupt currentResponse_undeclared, s)
  | OpSseSend data =>
      match currentResponse s with
      | Some w => let (c, w') := sse_send data w in (discard c, with_sse (Some w') s)
      | None => (Abrupt no_writer, s)
      end
  | OpSseClose =>
      match currentResponse s with
      | Some w => let (c, w') := sse_close w in (c, with_sse (Some w') s)
      | None => (Abrupt no_writer, s)
      end
  end.

(** How a call of the continuation ends; [Exhausted] marks a run that was
    given too little fuel. *)
Inductive Outcome : Type :=
| Done (s : Store)
| Threw (e : Js.Thrown) (s : Store)
| Exhausted.

Definition rethrow (wrap : Js.Thrown -> Js.Thrown) (o : Outcome) : Outcome :=
  match o with
  | Threw e s => Threw (wrap e) s
  | _ => o
  end.

Section Chain.

Variable declared : bool.

(** The body of a handler, run with [next] as its continuation. *)
Fixpoint run_script (next : Store -> Outcome) (sc : Script) (s : Store) : Outcome :=
  match sc with
  | Return => Done s
  | Do op k =>
      match apply_op declared op s with
      | (Normal _, s') => run_script next k s'
      | (Abrupt e, s') => Threw e s'
      end
  | Inspect f => run_script next (f (res s) (currentResponse s)) s
  | AwaitNext k =>
      match next s with
      | Done s' => run_script next k s'
      | other => other
      end
  | Try block handler k =>
      match run_script next block s with
      | Done s' => run_script next k s'
      | Threw e s' =>
          match run_script next (handler e) s' with
          | Done s'' => run_script next k s''
          | other => other
          end
      | Exhausted => Exhausted
      end
  | Throw e => Threw e s
  end.

(** The shape shared by [next] and [errorNext]: a cursor into a list of
    functions, advanced before the function it pointed at is called with the
    continuation itself.  [wrap] is what the [catch] clause of the
    continuation rethrows, [at_end] what it throws past the last function. *)
Section Drive.

Variable cursor : Store -> nat.
Variable enter : JsFn -> Store -> Store.
Variable body_of : JsFn -> Script.
Variable wrap : Js.Thrown -> Js.Thrown.
Variable chain : list JsFn.
Variable at_end : option Js.Thrown.

Fixpoint drive (fuel : nat) (s : Store) : Outcome :=
  match chain !! cursor s with
  | Some h =>
      match fuel with
      | S fuel' => rethrow wrap (run_script (drive fuel') (body_of h) (enter h s))
      | 0 => Exhausted
      end
  | None =>
      match at_end with
      | Some e => Threw (wrap e) s
      | None => Done s
      end
  end.

End Drive.

Variable req : Request.

(** [const handler = handlers[index++]] *)
Definition enter_handler (h : JsFn) (s : Store) : Store :=
  mkStore (res s) (currentResponse s) (S (index s)) (errorIndex s)
    (calls s ++ [Invoked (index s) h]).

(** [const handler = this.errorHandlers[errorIndex++]] *)
Definition enter_errorHandler (error : Js.Thrown) (h : JsFn) (s : Store) : Store :=
  mkStore (res s) (currentResponse s) (index s) (S (errorIndex s))
    (calls s ++ [InvokedOnError (errorIndex s) h error]).

(** The closure [next] over the list [handlers]. *)
Definition next (wrap : Js.Thrown -> Js.Thrown) (handlers : list JsFn)
    (at_end : option Js.Thrown) : nat -> Store -> Outcome :=
  drive index enter_handler (fun h => call3 h req) wrap handlers at_end.

(** The closure [errorNext] over [this.errorHandlers] and the caught [error]. *)
Definition errorNext (wrap : Js.Thrown -> Js.Thrown) (handlers : list JsFn)
    (error : Js.Thrown) : nat -> Store -> Outcome :=
  drive errorIndex (enter_errorHandler error) (fun h => call4 h error req) wrap
    handlers (Some error).

(** [let errorIndex = 0] *)
Definition reset_errorIndex (s : Store) : Store :=
  mkStore (res s) (currentResponse s) (index s) 0 (calls s).

(** The [catch] clause around [await next()]: the error chain when there are
    error handlers, the error itself otherwise. *)
Definition recover (wrap : Js.Thrown -> Js.Thrown) (handlers : list JsFn)
    (error : Js.Thrown) (s : Store) : Outcome :=
  match handlers with
  | [] => Threw error s
  | _ :: _ => errorNext wrap handlers error (length handlers) (reset_errorIndex s)
  end.

End Chain.

(** What leaves an error chain of [n] handlers that hand the failure [e] on:
    past the last handler [errorNext] throws it, and the [catch] clause of
    every call of [errorNext] that it leaves rethrows what [wrap] makes of
    it. *)
Definition escaped (wrap : Js.Thrown -> Js.Thrown) (n : nat) (e : Js.Thrown)
  : Js.Thrown :=
  match n with
  | 0 => e
  | S _ => Nat.iter (S n) wrap e
  end.

(** ** The two entry points *)

Fixpoint includes (needle hay : string) : bool :=
  String.prefix needle hay
  || match hay with
     | EmptyString => false
     | String _ hay' => includes needle hay'
     end.

(** [contentType?.includes(what)] *)
Definition content_type_includes (what : string) (raw : RawRequest) : bool :=
  match headers_get "Content-Type" (raw_headers raw) with
  | Some ct => includes what ct
  | None => false
  end.

(** [Object.fromEntries(url.searchParams)]: the last value of a key wins. *)
Definition query_of (entries : list (string * string)) : gmap string string :=
  fold_left (fun m e => <[fst e := snd e]> m) entries ∅.

(** [Object.fromEntries(formData)]: every field defines a property. *)
Definition form_object (entries : list (string * string)) : Js.Value :=
  Js.Obj (map (fun e => (fst e, Js.Str (snd e))) entries).

Definition not_found : Js.Thrown := Js.HalinError 404 "Not Found".

(** What a [try] block comes to: a response, an exception for the enclosing
    [catch], or a run out of fuel. *)
Inductive Attempt : Type :=
| Returned (w : Wire) (s : Store)
| Failed (e : Js.Thrown) (s : Store)
| Stuck.

(** What becomes of a request: the promise of the entry point is fulfilled
    with a response, or it is rejected; and the store at the end of the
    dispatch. *)
Record Result : Type := mkResult {
  response : Completion Wire;
  final : Store
}.

Definition halin_status (e : Js.Thrown) : Z :=
  match e with
  | Js.HalinError code _ => code
  | _ => 500
  end.

(** [x || 'Internal Server Error'] *)
Definition or_default (v : Js.Value) : Js.Value :=
  if Js.truthy v then v else Js.Str "Internal Server Error".

(** [error.message || 'Internal Server Error'] for an [Error]. *)
Definition message_or_default (e : Js.Thrown) : string :=
  if String.eqb (Js.message e) "" then "Internal Server Error" else Js.message e.

(** The reply of the branch [error instanceof HalinError] of every boundary. *)
Definition typed_reply (e : Js.Thrown) : Completion Wire :=
  construct (mkWire (halin_status e) json_headers (WText (error_body (Js.message e)))).

(** The reply of the other branch in [handle], with
    [JSON.stringify({ error: error.message || 'Internal Server Error' })] for
    its body. *)
Definition untyped_reply (e : Js.Thrown) : Completion Wire :=
  match Js.get_message "error.message" e with
  | Normal v =>
      construct
        (mkWire 500 json_headers
           (WText (Js.text_of (Js.stringify (Js.Obj [("error", or_default v)])))))
  | Abrupt t => Abrupt t
  end.

(** [err instanceof Error ? err : new Error(String(err))] *)
Definition as_Error (err : Js.Thrown) : Completion Js.Thrown :=
  match err with
  | Js.NotError v =>
      match Js.string_of v with
      | Normal text => Normal (Js.Error "Error" text)
      | Abrupt t => Abrupt t
      end
  | _ => Normal err
  end.

Definition settle (boundary : Js.Thrown -> Completion Wire) (a : Attempt)
  : option Result :=
  match a with
  | Returned w s => Some (mkResult (Normal w) s)
  | Failed e s => Some (mkResult (boundary e) s)
  | Stuck => None
  end.

(** [return new Response(...)] inside a [try] block. *)
Definition answer (c : Completion Wire) (s : Store) : Attempt :=
  match c with
  | Normal w => Returned w s
  | Abrupt e => Failed e s
  end.

(** The response built after the chain where [currentResponse] is declared. *)
Definition final_response (s : Store) : Completion Wire :=
  match currentResponse s with
  | Some w => wire_of_sse w
  | None => wire_of_res (res s)
  end.

(** The body of a request as [handle] reads it: JSON only. *)
Definition handle_body (raw : RawRequest) : Completion Js.Value :=
  match raw_body raw with
  | None => Normal Js.Null
  | Some b =>
      if content_type_includes "application/json" raw then
        match body_json b with
        | Normal v => Normal v
        | Abrupt _ => Abrupt (Js.HalinError 400 "Invalid JSON body")
        end
      else Normal Js.Null
  end.

(** What the two revisions of [handle] share.  [coerce] is what a [catch]
    clause does with the value it caught before it uses it: nothing in the
    first revision, [as_Error] in the second. *)
Section Handle.

Variable coerce : Js.Thrown -> Completion Js.Thrown.

(** The final [catch] of [handle]. *)
Definition handle_boundary (err : Js.Thrown) : Completion Wire :=
  match coerce err with
  | Normal error =>
      if Js.is_HalinError error then typed_reply error else untyped_reply error
  | Abrupt t => Abrupt t
  end.

(** The [catch] clause of [handle] around the dispatch: after the error
    chain the reply is built from [res] alone. *)
Definition handle_catch (app : Halin) (req : Request) (err : Js.Thrown)
    (s : Store) : Attempt :=
  match coerce err with
  | Normal error =>
      match recover true req (fun e => e) (errorHandlers app) error s with
      | Done s' => answer (wire_of_res (res s')) s'
      | Threw e s' => Failed e s'
      | Exhausted => Stuck
      end
  | Abrupt t => Failed t s
  end.

(** [handle] from the comment "Execute handler chain" on, with its [catch],
    which also catches what the constructor of the response throws.
    [at_end] is the failure that [next] of the first revision throws past the
    last handler when no route matched. *)
Definition handle_dispatch (app : Halin) (req : Request) (handlers : list JsFn)
    (at_end : option Js.Thrown) : Attempt :=
  match next true req (fun e => e) handlers at_end (length handlers) new_Store with
  | Done s =>
      match final_response s with
      | Normal w => Returned w s
      | Abrupt error => handle_catch app req error s
      end
  | Threw error s => handle_catch app req error s
  | Exhausted => Stuck
  end.

End Handle.

Module Rev1.

(** The final [catch] of [listen]. *)
Definition listen_boundary (e : Js.Thrown) : Completion Wire :=
  if Js.is_HalinError e then typed_reply e
  else construct (mkWire 500 json_headers (WText (error_body "Internal Server Error"))).

Definition listen_body (raw : RawRequest) : Completion Js.Value :=
  match raw_body raw with
  | None => Normal Js.Null
  | Some b =>
      if content_type_includes "application/json" raw then
        match body_json b with
        | Normal v => Normal v
        | Abrupt _ => Abrupt (Js.HalinError 400 "Invalid JSON body")
        end
      else if content_type_includes "application/x-www-form-urlencoded" raw then
        match body_form b with
        | Normal entries => Normal (form_object entries)
        | Abrupt _ => Abrupt (Js.HalinError 400 "Invalid form data")
        end
      else Normal (Js.Str (body_text b))
  end.

(** The context [req] of both entry points. *)
Definition context (raw : RawRequest) (ps : gmap string (option string))
    (body : Js.Value) : Request :=
  mkRequest (raw_method raw) (raw_path raw) ps (query_of (raw_query raw))
    (raw_headers raw) body (raw_url raw) (Some raw) None.

(** [listen] from the comment "Execute middleware stack" to the end of its
    [try] block.  The callback does not declare [currentResponse]: the test
    [currentResponse instanceof SSEWriter] after the chain, like the
    assignment in [res.sse()], throws a [ReferenceError]. *)
Definition listen_dispatch (app : Halin) (req : Request) (chain : list JsFn)
  : Attempt :=
  match next false req (fun e => e) chain None (length chain) new_Store with
  | Done s => Failed currentResponse_undeclared s
  | Threw error s =>
      match recover false req (fun e => e) (errorHandlers app) error s with
      | Done s' => Failed currentResponse_undeclared s'
      | Threw e s' => Failed e s'
      | Exhausted => Stuck
      end
  | Exhausted => Stuck
  end.

(** The [try] block of the [fetch] callback of [listen]. *)
Definition listen_try (app : Halin) (raw : RawRequest) : Attempt :=
  match findRoute app (raw_method raw) (raw_path raw) with
  | None => Failed not_found new_Store
  | Some m =>
      match listen_body raw with
      | Abrupt e => Failed e new_Store
      | Normal body =>
          listen_dispatch app (context raw (params m) body)
            (middlewares app ++ route_handlers (route m))
      end
  end.

Definition listen (app : Halin) (raw : RawRequest) : option Result :=
  settle listen_boundary (listen_try app raw).

(** The catch clauses of [handle] use the value they caught as it is. *)
Definition coerce (err : Js.Thrown) : Completion Js.Thrown := Normal err.

(** The inner [try] block of [handle] and its [catch]. *)
Definition handle_try (app : Halin) (raw : RawRequest) : Attempt :=
  let found := findRoute app (raw_method raw) (raw_path raw) in
  let ps := match found with Some m => params m | None => ∅ end in
  match handle_body raw with
  | Abrupt e => handle_catch coerce app (context raw ps Js.Null) e new_Store
  | Normal body =>
      handle_dispatch coerce app (context raw ps body)
        (middlewares app
         ++ match found with Some m => route_handlers (route m) | None => [] end)
        (match found with Some _ => None | None => Some not_found end)
  end.

Definition handle (app : Halin) (raw : RawRequest) : option Result :=
  settle (handle_boundary coerce) (handle_try app raw).

End Rev1.

Module Rev2.

(** [throw error instanceof HalinError ? error : new HalinError(500, ...)],
    where the text of the new error ends with [error.message]; reading the
    message or making a text of it can throw in its turn. *)
Definition as_HalinError (label expression : string) (e : Js.Thrown) : Js.Thrown :=
  if Js.is_HalinError e then e
  else
    match Js.message_text expression e with
    | Normal text => Js.HalinError 500 (label +:+ text)
    | Abrupt t => t
    end.

Definition middleware_error : Js.Thrown -> Js.Thrown :=
  as_HalinError "Middleware error: " "error.message".

Definition error_handler_failed : Js.Thrown -> Js.Thrown :=
  as_HalinError "Error handler failed: " "innerError.message".

(** What the [catch] clauses of [next] make of a failure on its way up from
    the handler at position [i]: every call of [next] that it leaves converts
    it. *)
Definition caught (i : nat) (e : Js.Thrown) : Js.Thrown :=
  Nat.iter (S i) middleware_error e.

(** What leaves an error chain of [n] handlers that hand the failure on. *)
Definition uncaught (n : nat) (e : Js.Thrown) : Js.Thrown :=
  escaped error_handler_failed n e.

(** What the final [catch] of [listen] answers for an [Error] that is no
    [HalinError]; [development] is the test
    [process.env.NODE_ENV === 'development']. *)
Definition generic_reply (development : bool) (error : Js.Thrown) : Wire :=
  mkWire 500 json_headers
    (WText (Js.text_of (Js.stringify
       (Js.Obj [("error", Js.Str "Internal Server Error");
                ("message", if development then Js.Str (message_or_default error)
                            else Js.Undefined)])))).

(** The final [catch] of [listen]. *)
Definition listen_boundary (development : bool) (err : Js.Thrown) : Completion Wire :=
  match as_Error err with
  | Normal error =>
      if Js.is_HalinError error then typed_reply error
      else construct (generic_reply development error)
  | Abrupt t => Abrupt t
  end.

(** The object that [formData.forEach] fills by assignment: the key
    [__proto__] reaches the prototype setter, which ignores a string. *)
Definition form_object (entries : list (string * string)) : Js.Value :=
  Js.Obj (map (fun e => (fst e, Js.Str (snd e)))
            (filter (fun e => negb (String.eqb (fst e) "__proto__")) entries)).

Definition listen_body (raw : RawRequest) : Completion Js.Value :=
  match raw_body raw with
  | None => Normal Js.Null
  | Some b =>
      let parsed :=
        if content_type_includes "application/json" raw then body_json b
        else if content_type_includes "application/x-www-form-urlencoded" raw then
          match body_form b with
          | Normal entries => Normal (form_object entries)
          | Abrupt e => Abrupt e
          end
        else Normal (Js.Str (body_text b)) in
      match parsed with
      | Normal v => Normal v
      | Abrupt e =>
          Abrupt (match Js.message_text "error.message" e with
                  | Normal text => Js.HalinError 400 ("Invalid request body: " +:+ text)
                  | Abrupt t => t
                  end)
      end
  end.

(** The context [req] of [listen]. *)
Definition listen_context (raw : RawRequest) (ps : gmap string (option string))
    (body : Js.Value) : Request :=
  mkRequest (raw_method raw) (raw_path raw) ps (query_of (raw_query raw))
    (raw_headers raw) body (raw_url raw) (Some raw) (Some (ResolvesBody body)).

(** The context [req] of [handle]: a transport request has no property
    [raw], so that [request.raw || {}] is the empty object. *)
Definition handle_context (raw : RawRequest) (ps : gmap string (option string))
    (body : Js.Value) : Request :=
  mkRequest (raw_method raw) (raw_path raw) ps (query_of (raw_query raw))
    (raw_headers raw) body (raw_url raw) None (Some (ResolvesStream (raw_body raw))).

(** [listen] from the comment "Execute middleware stack" to the end of its
    [try] block. *)
Definition listen_dispatch (app : Halin) (req : Request) (chain : list JsFn)
  : Attempt :=
  match next true req middleware_error chain None (length chain) new_Store with
  | Done s => answer (final_response s) s
  | Threw error s =>
      match recover true req error_handler_failed (errorHandlers app) error s with
      | Done s' => answer (final_response s') s'
      | Threw e s' => Failed e s'
      | Exhausted => Stuck
      end
  | Exhausted => Stuck
  end.

(** The [try] block of the [fetch] callback of [listen]. *)
Definition listen_try (app : Halin) (raw : RawRequest) : Attempt :=
  match findRoute app (raw_method raw) (raw_path raw) with
  | None => Failed not_found new_Store
  | Some m =>
      match listen_body raw with
      | Abrupt e => Failed e new_Store
      | Normal body =>
          listen_dispatch app (listen_context raw (params m) body)
            (middlewares app ++ route_handlers (route m))
      end
  end.

Definition listen (development : bool) (app : Halin) (raw : RawRequest)
  : option Result :=
  settle (listen_boundary development) (listen_try app raw).

(** The catch clauses of [handle] make an [Error] of the value they caught. *)
Definition coerce : Js.Thrown -> Completion Js.Thrown := as_Error.

(** The inner [try] block of [handle] and its [catch]. *)
Definition handle_try (app : Halin) (raw : RawRequest) : Attempt :=
  match findRoute app (raw_method raw) (raw_path raw) with
  | None => handle_catch coerce app (handle_context raw ∅ Js.Null) not_found new_Store
  | Some m =>
      match handle_body raw with
      | Abrupt e =>
          handle_catch coerce app (handle_context raw (params m) Js.Null) e new_Store
      | Normal body =>
          handle_dispatch coerce app (handle_context raw (params m) body)
            (middlewares app ++ route_handlers (route m)) None
      end
  end.

Definition handle (app : Halin) (raw : RawRequest) : option Result :=
  settle (handle_boundary coerce) (handle_try app raw).

End Rev2.

(** ** Properties of handlers *)

(** A continuation that gives up: a script run with it gives up exactly when
    it calls the continuation. *)
Definition probe : Store -> Outcome := fun _ => Exhausted.

(** The handler calls [next], whatever the request and the store. *)
Definition invokes_next (h : JsFn) : Prop :=
  forall declared req s, run_script declared probe (call3 h req) s = Exhausted.

(** The script does not mention the continuation. *)
Inductive NoNext : Script -> Prop :=
| nn_return : NoNext Return
| nn_do op k : NoNext k -> NoNext (Do op k)
| nn_inspect f : (forall r w, NoNext (f r w)) -> NoNext (Inspect f)
| nn_try block handler k :
    NoNext block -> (forall e, NoNext (handler e)) -> NoNext k ->
    NoNext (Try block handler k)
| nn_throw e : NoNext (Throw e).

(** The script calls the continuation at most once on every path. *)
Inductive OnceNext : Script -> Prop :=
| once_none sc : NoNext sc -> OnceNext sc
| once_do op k : OnceNext k -> OnceNext (Do op k)
| once_inspect f : (forall r w, OnceNext (f r w)) -> OnceNext (Inspect f)
| once_await k : NoNext k -> OnceNext (AwaitNext k)
| once_try_block block handler k :
    OnceNext block -> (forall e, NoNext (handler e)) -> NoNext k ->
    OnceNext (Try block handler k)
| once_try_handler block handler k :
    NoNext block -> (forall e, OnceNext (handler e)) -> NoNext k ->
    OnceNext (Try block handler k)
| once_try_after block handler k :
    NoNext block -> (forall e, NoNext (handler e)) -> OnceNext k ->
    OnceNext (Try block handler k).

(** The host accepts the header. *)
Definition header_accepted (name value : string) : bool :=
  valid_name name && valid_value (normalize_value value).

(** Operations that cannot throw: those on [res], with a header that the
    host accepts. *)
Definition quiet (op : ResOp) : bool :=
  match op with
  | OpSse | OpSseSend _ | OpSseClose => false
  | OpHeader name value => header_accepted name value
  | _ => true
  end.

(** The script sets up the response and then awaits the continuation outside
    any [try]: what the continuation throws, the script throws. *)
Inductive Forwards : Script -> Prop :=
| fw_await k : Forwards (AwaitNext k)
| fw_do op k : quiet op = true -> Forwards k -> Forwards (Do op k)
| fw_inspect f : (forall r w, Forwards (f r w)) -> Forwards (Inspect f).

(** The script throws [e] before it calls the continuation. *)
Inductive Raises (e : Js.Thrown) : Script -> Prop :=
| rs_throw : Raises e (Throw e)
| rs_do op k : quiet op = true -> Raises e k -> Raises e (Do op k)
| rs_inspect f : (forall r w, Raises e (f r w)) -> Raises e (Inspect f).

(** The state an outcome ends in. *)
Definition outcome_store (o : Outcome) : option Store :=
  match o with
  | Done s | Threw _ s => Some s
  | Exhausted => None
  end.

(** A property of the store an outcome ends in, if it ends. *)
Definition ends_in (P : Store -> Prop) (o : Outcome) : Prop :=
  match o with
  | Done s | Threw _ s => P s
  | Exhausted => True
  end.

(** The host could read the body of the request. *)
Definition readable_body (raw : RawRequest) : Prop :=
  match raw_body raw with
  | None => True
  | Some b => (exists v, body_json b = Normal v) /\ (exists l, body_form b = Normal l)
  end.

(** The errors that reached an error handler, in order. *)
Definition delivered (l : list Call) : list Js.Thrown :=
  flat_map (fun c => match c with
                     | InvokedOnError _ _ e => [e]
                     | Invoked _ _ => []
                     end) l.

(** The positions of the chain handlers that ran, in order. *)
Definition positions (l : list Call) : list nat :=
  flat_map (fun c => match c with
                     | Invoked p _ => [p]
                     | InvokedOnError _ _ _ => []
                     end) l.

(** The calls that running the functions [l] from position [k] records. *)
Fixpoint trace_from (note : nat -> JsFn -> Call) (k : nat) (l : list JsFn)
  : list Call :=
  match l with
  | [] => []
  | h :: rest => note k h :: trace_from note (S k) rest
  end.

(** The reply to a request and the calls recorded for it. *)
Definition ran (reply : option Result) (l : list Call) : Prop :=
  exists r, reply = Some r /\ calls (final r) = l.

(** The writer after the events [events] were sent through a new one. *)
Definition sse_after (events : list Js.Value) : SSEWriter :=
  fold_left (fun w d => snd (sse_send d w)) events new_SSEWriter.

(** [r] is the first route of [rs], in registration order, with the method
    [method] whose pattern matches [path], and [found] is what the match
    returned: the matched text followed by the captured groups. *)
Definition first_match (rs : list RouteDefinition) (method path : string)
    (r : RouteDefinition) (found : list (option string)) : Prop :=
  exists before after,
    rs = before ++ r :: after
    /\ route_method r = method
    /\ RegExp.match_first path (route_pattern r) = Some found
    /\ forall r', In r' before -> route_method r' = method ->
                  RegExp.match_first path (route_pattern r') = None.

(** Whether the route registered for [template] matches [path]. *)
Definition template_matches (template path : string) : bool :=
  match pathToPattern template with
  | inr re =>
      match RegExp.match_first path re with
      | Some _ => true
      | None => false
      end
  | inl _ => false
  end.

(** The text has neither a colon nor a star. *)
Definition plain_text (s : string) : bool :=
  forallb (fun c => negb (Ascii.eqb c ":") && negb (Ascii.eqb c "*"))
    (list_ascii_of_string s).

(** ** Handlers and requests of the examples

    A function that is called with more arguments than it reads, or with
    other arguments than it expects, finds the request where it expects the
    response, or the response where it expects the continuation: its first
    use of that one throws a [TypeError]. *)

(** [async (req, res, next) => { await next() }] *)
Definition passes : JsFn :=
  mkFn 3 (fun _ => AwaitNext Return) (fun _ _ => Throw (Js.not_a_function "next")).

(** [async (req, res, next) => { await next(); await next() }] *)
Definition twice : JsFn :=
  mkFn 3 (fun _ => AwaitNext (AwaitNext Return))
    (fun _ _ => Throw (Js.not_a_function "next")).

(** [(req, res) => {}] *)
Definition stops : JsFn :=
  mkFn 2 (fun _ => Return) (fun _ _ => Return).

(** [(req, res) => { res.status(418) }] *)
Definition teapot : JsFn :=
  mkFn 2 (fun _ => Do (OpStatus 418) Return)
    (fun _ _ => Throw (Js.not_a_function "res.status")).

(** [(req, res) => { res.json({ ok: true }) }] *)
Definition answers : JsFn :=
  mkFn 2 (fun _ => Do (OpJson (Js.Obj [("ok", Js.Bool true)])) Return)
    (fun _ _ => Throw (Js.not_a_function "res.json")).

(** [(req, res) => { throw e }] *)
Definition fails (e : Js.Thrown) : JsFn :=
  mkFn 2 (fun _ => Throw e) (fun _ _ => Throw e).

(** [(error, req, res, next) => { res.status(500).json({ error: error.message }) }]:
    the status is set before the message is read. *)
Definition reports : JsFn :=
  mkFn 4 (fun _ => Throw (Js.not_a_function "res.status"))
    (fun e _ =>
       Do (OpStatus 500)
         (match Js.get_message "error.message" e with
          | Normal v => Do (OpJson (Js.Obj [("error", v)])) Return
          | Abrupt t => Throw t
          end)).

(** A request without query, headers and body. *)
Definition bare (method path : string) : RawRequest :=
  mkRaw method path [] ∅ None ("http://localhost" +:+ path).

(** The context that [handle] of the second revision makes of it. *)
Definition bare_request (method path : string) : Request :=
  Rev2.handle_context (bare method path) ∅ Js.Null.

(** Properties of the store that the error chain for [error] keeps. *)
Definition error_stable (error : Js.Thrown) (P : Store -> Prop) : Prop :=
  (forall declared op s, P s -> P (snd (apply_op declared op s)))
  /\ (forall h s, P s -> P (enter_errorHandler error h s))
  /\ (forall s, P s -> P (reset_errorIndex s)).

(** The failure [e] reached the error chain, and the boundary when nothing
    recovered it: every error handler that was called received [e]; the first
    one was called when there is one; and when there is none, or when every
    one of them hands [e] on, each of them was called once and the request
    ends as [unrecovered] says, the reply of the boundary. *)
Definition error_reaches (handlers : list JsFn) (req : Request) (e : Js.Thrown)
    (unrecovered : Completion Wire) (reply : option Result) : Prop :=
  exists r,
    reply = Some r
    /\ Forall (eq e) (delivered (calls (final r)))
    /\ match handlers with
       | [] => response r = unrecovered /\ delivered (calls (final r)) = []
       | first :: _ =>
           (exists l1 l2, calls (final r) = l1 ++ InvokedOnError 0 first e :: l2
                          /\ delivered l1 = [])
           /\ ((forall g, In g handlers -> Forwards (call4 g e req)) ->
               delivered (calls (final r)) = repeat e (length handlers)
               /\ response r = unrecovered)
       end.

(** ** Templates made of segments

    A template as the router's documentation writes them: every segment is
    literal text or a named parameter.  A piece holds a segment and, for a
    parameter, the text that a path puts in its place. *)

Inductive Piece : Type :=
| Fixed (text : string)
| Named (name value : string).

(** The characters with a meaning of their own in a template or a pattern. *)
Definition reserved : list ascii :=
  ["/"; ":"; "*"; "."; "+"; "?"; "("; ")"; "["; "]"; "{"; "}"; "^"; "$"; "|";
   Js.backslash]%char.

Definition ordinary (c : ascii) : bool :=
  negb (existsb (Ascii.eqb c) reserved).

Definition not_slash (c : ascii) : bool := negb (Ascii.eqb c "/").

Definition well_formed (p : Piece) : bool :=
  match p with
  | Fixed text => forallb ordinary (list_ascii_of_string text)
  | Named name value =>
      negb (String.eqb name "") && forallb not_slash (list_ascii_of_string name)
      && negb (String.eqb value "") && forallb not_slash (list_ascii_of_string value)
  end.

Fixpoint template_chars (ps : list Piece) : list ascii :=
  match ps with
  | [] => []
  | Fixed text :: rest => "/"%char :: list_ascii_of_string text ++ template_chars rest
  | Named name _ :: rest =>
      "/"%char :: ":"%char :: list_ascii_of_string name ++ template_chars rest
  end.

Fixpoint path_chars (ps : list Piece) : list ascii :=
  match ps with
  | [] => []
  | Fixed text :: rest => "/"%char :: list_ascii_of_string text ++ path_chars rest
  | Named _ value :: rest => "/"%char :: list_ascii_of_string value ++ path_chars rest
  end.

(** The template and a path that fits it. *)
Definition template_of (ps : list Piece) : string :=
  string_of_list_ascii (template_chars ps).

Definition path_of (ps : list Piece) : string :=
  string_of_list_ascii (path_chars ps).

Fixpoint names_of (ps : list Piece) : list string :=
  match ps with
  | [] => []
  | Fixed _ :: rest => names_of rest
  | Named name _ :: rest => name :: names_of rest
  end.

Fixpoint values_of (ps : list Piece) : list string :=
  match ps with
  | [] => []
  | Fixed _ :: rest => values_of rest
  | Named _ value :: rest => value :: values_of rest
  end.

(** The end of a template or its next segment. *)
Definition boundary (r : list ascii) : Prop :=
  match r with
  | [] => True
  | c :: _ => c = "/"%char
  end.

(** The class [[^/]]. *)
Definition non_slash : RegExp.Regex := RegExp.RClass true [RegExp.CChar "/"].

(** What [replace] puts in the place of a parameter. *)
Definition capture_chars : list ascii := list_ascii_of_string "/([^/]+)".

(** The source of the pattern of a template, before the anchors. *)
Fixpoint pattern_chars (ps : list Piece) : list ascii :=
  match ps with
  | [] => []
  | Fixed text :: rest => "/"%char :: list_ascii_of_string text ++ pattern_chars rest
  | Named _ _ :: rest => capture_chars ++ pattern_chars rest
  end.

(** The number of parameters of a template. *)
Fixpoint count_named (ps : list Piece) : nat :=
  match ps with
  | [] => 0
  | Fixed _ :: rest => count_named rest
  | Named _ _ :: rest => S (count_named rest)
  end.

(** The tokens and the terms of the pattern of a template. *)
Definition group_tokens : list RegExp.Token :=
  [RegExp.TChar "/"; RegExp.TOpen; RegExp.TClass true [RegExp.CChar "/"];
   RegExp.TPlus; RegExp.TClose].

Fixpoint tokens_of (ps : list Piece) : list RegExp.Token :=
  match ps with
  | [] => []
  | Fixed text :: rest =>
      RegExp.TChar "/" :: map RegExp.TChar (list_ascii_of_string text) ++ tokens_of rest
  | Named _ _ :: rest => group_tokens ++ tokens_of rest
  end.

(** The terms of the pattern; [g] groups precede them. *)
Fixpoint terms_of (ps : list Piece) (g : nat) : list RegExp.Regex :=
  match ps with
  | [] => []
  | Fixed text :: rest =>
      RegExp.RChar "/" :: map RegExp.RChar (list_ascii_of_string text) ++ terms_of rest g
  | Named _ _ :: rest =>
      RegExp.RChar "/" :: RegExp.RGroup (S g) (RegExp.RPlus non_slash)
        :: terms_of rest (S g)
  end.

(** The expression that the pattern of a template denotes. *)
Definition pattern_ast (ps : list Piece) : RegExp.Regex :=
  fold_right RegExp.RSeq RegExp.REol (RegExp.RBol :: terms_of ps 0).

(** ** More about the dispatch *)

(** The positions of the error handlers that ran, in order. *)
Definition error_positions (l : list Call) : list nat :=
  flat_map (fun c => match c with
                     | InvokedOnError p _ _ => [p]
                     | Invoked _ _ => []
                     end) l.

(** What holds of the store while the chain runs: the handlers that were
    called are those before the cursor, and no error handler was called. *)
Definition chain_phase (s : Store) : Prop :=
  positions (calls s) = seq 0 (index s)
  /\ error_positions (calls s) = [] /\ errorIndex s = 0.

(** The script cannot end with an exception, unless the continuation does:
    its operations are those that cannot throw, and it throws nothing that it
    does not catch. *)
Inductive Calm : Script -> Prop :=
| calm_return : Calm Return
| calm_do op k : quiet op = true -> Calm k -> Calm (Do op k)
| calm_inspect f : (forall r w, Calm (f r w)) -> Calm (Inspect f)
| calm_await k : Calm k -> Calm (AwaitNext k)
| calm_try block handler k :
    (forall e, Calm (handler e)) -> Calm k -> Calm (Try block handler k)
| calm_try_block block handler k :
    Calm block -> Calm k -> Calm (Try block handler k).

(** The statuses that the script sets are statuses that the host accepts
    together with a body. *)
Definition accepted_status (op : ResOp) : Prop :=
  match op with
  | OpStatus code => replies_with_body code
  | _ => True
  end.

Inductive Accepted : Script -> Prop :=
| acc_return : Accepted Return
| acc_do op k : accepted_status op -> Accepted k -> Accepted (Do op k)
| acc_inspect f : (forall r w, Accepted (f r w)) -> Accepted (Inspect f)
| acc_await k : Accepted k -> Accepted (AwaitNext k)
| acc_try block handler k :
    Accepted block -> (forall e, Accepted (handler e)) -> Accepted k ->
    Accepted (Try block handler k)
| acc_throw e : Accepted (Throw e).

(** An outcome that is no exception. *)
Definition not_thrown (o : Outcome) : Prop :=
  match o with
  | Threw _ _ => False
  | _ => True
  end.

(** [createTestApp()] of the test utilities: an application whose only error
    handler answers 500 with the message of the error. *)
Definition createTestApp : Halin := use [reports] new_Halin.

(** The headers of every SSE writer. *)
Definition sse_wire_headers : Headers := sse_headers new_SSEWriter.

(** The writer of a request, if there is one, has the status and the headers
    it was made with. *)
Definition plain_writer (s : Store) : Prop :=
  forall w, currentResponse s = Some w ->
            sse_statusCode w = 200%Z /\ sse_headers w = sse_wire_headers.

(** The response that the store holds is one that the host accepts. *)
Definition buildable (s : Store) : Prop :=
  replies_with_body (statusCode (res s)) /\ plain_writer s.

(** ** The other shortcuts, and groups of routes *)

Definition put (path : string) (handlers : list JsFn) (app : Halin)
  : RegExp.Failure + Halin :=
  on "PUT" path handlers app.

Definition delete (path : string) (handlers : list JsFn) (app : Halin)
  : RegExp.Failure + Halin :=
  on "DELETE" path handlers app.

Definition patch (path : string) (handlers : list JsFn) (app : Halin)
  : RegExp.Failure + Halin :=
  on "PATCH" path handlers app.

Definition options (path : string) (handlers : list JsFn) (app : Halin)
  : RegExp.Failure + Halin :=
  on "OPTIONS" path handlers app.

Definition head (path : string) (handlers : list JsFn) (app : Halin)
  : RegExp.Failure + Halin :=
  on "HEAD" path handlers app.

(** [addGroupRoute(method, path, handlers)], a private method that nothing
    calls. *)
Definition addGroupRoute (method path : string) (handlers : list JsFn) (app : Halin)
  : RegExp.Failure + Halin :=
  let fullPath := prefix app +:+ path in
  match pathToPattern fullPath with
  | inl f => inl f
  | inr pattern =>
      inr (mkHalin
             (routes app
              ++ [mkRoute method fullPath pattern (currentGroupMiddlewares app ++ handlers)])
             (middlewares app) (errorHandlers app) (prefix app)
             (currentGroupMiddlewares app))
  end.

(** [class GroupBuilder] and [class GroupRouter].  Both hold the application
    they were made for; it is the one threaded through the operations below. *)
Record GroupBuilder : Type := mkGroupBuilder {
  _middlewares : list JsFn;
  builder_prefix : string
}.

Record GroupRouter : Type := mkGroupRouter {
  router_prefix : string;
  groupMiddlewares : list JsFn
}.

(** The argument of [group(pathOrMiddleware?)]. *)
Inductive GroupArg : Type :=
| NoArg
| PathArg (path : string)
| HandlerArg (handler : JsFn)
| HandlersArg (handlers : list JsFn).

(** [GroupBuilder.use(...handlers)] *)
Definition builder_use (handlers : list JsFn) (b : GroupBuilder) : GroupBuilder :=
  mkGroupBuilder (_middlewares b ++ handlers) (builder_prefix b).

(** [Halin.group(pathOrMiddleware)] *)
Definition group (arg : GroupArg) (app : Halin) : GroupBuilder :=
  match arg with
  | PathArg path => mkGroupBuilder [] (prefix app +:+ path)
  | HandlersArg handlers => builder_use handlers (mkGroupBuilder [] "")
  | HandlerArg handler => builder_use [handler] (mkGroupBuilder [] "")
  | NoArg => mkGroupBuilder [] ""
  end.

(** [new GroupRouter(this.app, this.prefix, this._middlewares)] *)
Definition router_of (b : GroupBuilder) : GroupRouter :=
  mkGroupRouter (builder_prefix b) (_middlewares b).

(** [GroupRouter.addRoute(method, path, ...handlers)] *)
Definition router_addRoute (method path : string) (handlers : list JsFn)
    (r : GroupRouter) (app : Halin) : RegExp.Failure + Halin :=
  let fullPath := router_prefix r +:+ path in
  match pathToPattern fullPath with
  | inl f => inl f
  | inr pattern =>
      inr (mkHalin
             (routes app
              ++ [mkRoute method fullPath pattern (groupMiddlewares r ++ handlers)])
             (middlewares app) (errorHandlers app) (prefix app)
             (currentGroupMiddlewares app))
  end.

Definition router_get := router_addRoute "GET".
Definition router_post := router_addRoute "POST".
Definition router_put := router_addRoute "PUT".
Definition router_delete := router_addRoute "DELETE".
Definition router_patch := router_addRoute "PATCH".

Definition router_on (method path : string) (handlers : list JsFn)
    (r : GroupRouter) (app : Halin) : RegExp.Failure + Halin :=
  router_addRoute (toUpperCase method) path handlers r app.

(** [GroupRouter.group(path)] *)
Definition router_group (path : string) (r : GroupRouter) : GroupBuilder :=
  builder_use (groupMiddlewares r) (mkGroupBuilder [] (router_prefix r +:+ path)).

(** The shortcuts that the application and the router of a group share. *)
Inductive Verb : Type := Get | Post | Put | Delete | Patch.

Definition router_verb (v : Verb) :=
  match v with
  | Get => router_get
  | Post => router_post
  | Put => router_put
  | Delete => router_delete
  | Patch => router_patch
  end.

Definition app_verb (v : Verb) :=
  match v with
  | Get => get
  | Post => post
  | Put => put
  | Delete => delete
  | Patch => patch
  end.

(** What the callback given to [routes] does with the router it receives:
    it registers routes through it, opens a nested group through it, or
    opens a group through the application it closes over. *)
Inductive RouterCall : Type :=
| CallVerb (v : Verb) (path : string) (handlers : list JsFn)
| CallOn (method path : string) (handlers : list JsFn)
| CallGroup (path : string) (uses : list (list JsFn)) (body : list RouterCall)
| CallAppGroup (arg : GroupArg) (uses : list (list JsFn)) (body : list RouterCall).

(** A registration leaves the application as it is when it throws. *)
Definition attempt (x : RegExp.Failure + Halin) (app : Halin)
  : Halin * option RegExp.Failure :=
  match x with
  | inr app' => (app', None)
  | inl f => (app, Some f)
  end.

(** [b.use(...).use(...)] *)
Definition builder_uses (uses : list (list JsFn)) (b : GroupBuilder) : GroupBuilder :=
  fold_left (fun b handlers => builder_use handlers b) uses b.

(** One call of the callback: the application afterwards, and the exception
    if the call threw.  An exception ends the callback; what was registered
    before it stays registered. *)
Fixpoint run_call (c : RouterCall) (r : GroupRouter) (app : Halin) {struct c}
  : Halin * option RegExp.Failure :=
  let run_calls :=
    fix run_calls (cs : list RouterCall) (r : GroupRouter) (app : Halin) {struct cs}
      : Halin * option RegExp.Failure :=
      match cs with
      | [] => (app, None)
      | c :: rest =>
          match run_call c r app with
          | (app', None) => run_calls rest r app'
          | failed => failed
          end
      end in
  match c with
  | CallVerb v path handlers => attempt (router_verb v path handlers r app) app
  | CallOn method path handlers => attempt (router_on method path handlers r app) app
  | CallGroup path uses body =>
      run_calls body (router_of (builder_uses uses (router_group path r))) app
  | CallAppGroup arg uses body =>
      run_calls body (router_of (builder_uses uses (group arg app))) app
  end.

Fixpoint run_calls (cs : list RouterCall) (r : GroupRouter) (app : Halin)
  : Halin * option RegExp.Failure :=
  match cs with
  | [] => (app, None)
  | c :: rest =>
      match run_call c r app with
      | (app', None) => run_calls rest r app'
      | failed => failed
      end
  end.

(** [GroupBuilder.routes(callback)] *)
Definition builder_routes (callback : list RouterCall) (b : GroupBuilder) (app : Halin)
  : Halin * option RegExp.Failure :=
  run_calls callback (router_of b) app.

(** The calls by which a program sets up an application. *)
Inductive Registration : Type :=
| RegUse (handlers : list JsFn)
| RegVerb (v : Verb) (path : string) (handlers : list JsFn)
| RegOptions (path : string) (handlers : list JsFn)
| RegHead (path : string) (handlers : list JsFn)
| RegOn (method path : string) (handlers : list JsFn)
| RegGroup (arg : GroupArg) (uses : list (list JsFn)) (callback : list RouterCall).

Definition register (c : Registration) (app : Halin) : Halin * option RegExp.Failure :=
  match c with
  | RegUse handlers => (use handlers app, None)
  | RegVerb v path handlers => attempt (app_verb v path handlers app) app
  | RegOptions path handlers => attempt (options path handlers app) app
  | RegHead path handlers => attempt (head path handlers app) app
  | RegOn method path handlers => attempt (on method path handlers app) app
  | RegGroup arg uses callback =>
      builder_routes callback (builder_uses uses (group arg app)) app
  end.

(** The applications a program can set up, starting from [new Halin()]. *)
Inductive Built : Halin -> Prop :=
| built_new : Built new_Halin
| built_step c app : Built app -> Built (fst (register c app)).

(** The callback works through its router only. *)
Inductive through_router : RouterCall -> Prop :=
| tr_verb v path handlers : through_router (CallVerb v path handlers)
| tr_on method path handlers : through_router (CallOn method path handlers)
| tr_group path uses body :
    Forall through_router body -> through_router (CallGroup path uses body).

(** [l1] is the start of [l2]. *)
Definition starts_with {A : Type} (l1 l2 : list A) : Prop :=
  exists rest, l2 = l1 ++ rest.

(** What every registration makes sure of for a route: its pattern is the
    one its path compiles to, and its method is in upper case. *)
Definition sound_route (r : RouteDefinition) : Prop :=
  pathToPattern (route_path r) = inr (route_pattern r)
  /\ toUpperCase (route_method r) = route_method r.

(** A route of the group behind the router [r]. *)
Definition in_group (r : GroupRouter) (route : RouteDefinition) : Prop :=
  (exists suffix, route_path route = router_prefix r +:+ suffix)
  /\ starts_with (groupMiddlewares r) (route_handlers route).

(** [app'] is [app] with the routes [added] at the end. *)
Definition adds_routes (app app' : Halin) (added : list RouteDefinition) : Prop :=
  routes app' = routes app ++ added
  /\ middlewares app' = middlewares app
  /\ errorHandlers app' = errorHandlers app
  /\ prefix app' = prefix app
  /\ currentGroupMiddlewares app' = currentGroupMiddlewares app.

(** ** Sequences of operations on an SSE writer *)

(** What can happen to a writer: the handler sends an event or closes the
    writer, or the consumer of the stream goes away. *)
Inductive SseEvent : Type :=
| SseSend (data : Js.Value)
| SseClose
| SseCancel.

Definition sse_step (ev : SseEvent) (w : SSEWriter) : Completion unit * SSEWriter :=
  match ev with
  | SseSend data => let (c, w') := sse_send data w in (discard c, w')
  | SseClose => sse_close w
  | SseCancel => (Normal tt, sse_cancel w)
  end.

(** The writer after the events, and whether one of the calls threw. *)
Fixpoint sse_run (evs : list SseEvent) (w : SSEWriter) : bool * SSEWriter :=
  match evs with
  | [] => (false, w)
  | ev :: rest =>
      match sse_step ev w with
      | (Normal _, w') => sse_run rest w'
      | (Abrupt _, w') => (true, snd (sse_run rest w'))
      end
  end.

(** The data sent before the writer was closed or its stream cancelled. *)
Fixpoint sent_while_open (evs : list SseEvent) : list Js.Value :=
  match evs with
  | SseSend data :: rest => data :: sent_while_open rest
  | _ => []
  end.

(** [createMockStream(data)] of the test utilities: the controller after the
    [start] callback enqueued every message and closed the stream. *)
Definition createMockStream (messages : list string) : Completion Controller :=
  match
    fold_left (fun acc msg => match acc with
                              | Normal c => enqueue msg c
                              | Abrupt e => Abrupt e
                              end) messages (Normal new_stream)
  with
  | Normal c => controller_close c
  | Abrupt e => Abrupt e
  end.

(** ** Templates that end with a wildcard *)

(** A character that a template can hold as literal text: a slash, or a
    character that the pattern language does not reserve. *)
Definition literal_char (c : ascii) : bool :=
  Ascii.eqb c "/" || ordinary c.

(** A printable character of ASCII, as the path of a URL is made of. *)
Definition printable (c : ascii) : bool :=
  ((32 <? nat_of_ascii c) && (nat_of_ascii c <? 127))%nat.

(** * Theorems *)

(** ** Headers and the constructor of a response *)

Lemma headers_set_accepted name value h :
  header_accepted name value = true ->
  headers_set name value h = Normal (<[toLowerCase name := normalize_value value]> h).
Proof.
  unfold header_accepted, headers_set. intros H.
  apply andb_prop in H. destruct H as [-> ->]. reflexivity.
Qed.

Lemma headers_set_refused name value h :
  header_accepted name value = false ->
  exists e, headers_set name value h = Abrupt e.
Proof.
  unfold header_accepted, headers_set. intros H.
  destruct (valid_name name); simpl in *; [rewrite H|]; eauto.
Qed.

(** The two headers that [json] and [text] write are accepted. *)
Lemma content_type_accepted value r :
  value = "application/json" \/ value = "text/plain" ->
  res_header "Content-Type" value r = Normal (res_content_type value r).
Proof. intros [->| ->]; reflexivity. Qed.

Lemma construct_text code h text ct :
  replies_with_body code -> h !! "content-type" = Some ct ->
  construct (mkWire code h (WText text)) = Normal (mkWire code h (WText text)).
Proof.
  intros [Hc Hn] Hh. unfold construct. cbn [status wire_body wire_headers].
  destruct (Z.ltb_spec code 200); [lia|]. destruct (Z.ltb_spec 599 code); [lia|].
  cbn [orb]. rewrite Hn, Hh. reflexivity.
Qed.

Lemma json_headers_content_type : json_headers !! "content-type" = Some "application/json".
Proof. reflexivity. Qed.

Lemma construct_json code text :
  replies_with_body code ->
  construct (mkWire code json_headers (WText text))
  = Normal (mkWire code json_headers (WText text)).
Proof. intros H. apply (construct_text _ _ _ _ H json_headers_content_type). Qed.

Lemma replies_500 : replies_with_body 500.
Proof. split; [lia|reflexivity]. Qed.

(** A JSON reply that the constructor accepts is the one it was given. *)
Lemma construct_json_inv code text w :
  construct (mkWire code json_headers (WText text)) = Normal w ->
  w = mkWire code json_headers (WText text).
Proof.
  unfold construct. cbn [status wire_body wire_headers].
  destruct ((code <? 200) || (599 <? code))%Z; [discriminate|].
  destruct (null_body_status code); [discriminate|].
  rewrite json_headers_content_type. intros [= <-]. reflexivity.
Qed.

(** A status outside 200..599 is refused. *)
Lemma construct_refused init :
  (status init < 200 \/ 599 < status init)%Z ->
  construct init = Abrupt (status_out_of_range (status init)).
Proof.
  intros H. unfold construct.
  destruct (Z.ltb_spec (status init) 200); [reflexivity|].
  destruct (Z.ltb_spec 599 (status init)); [reflexivity|lia].
Qed.

(** What the constructor accepts it keeps, but for the content type of a
    text. *)
Lemma construct_keeps init w :
  construct init = Normal w ->
  status w = status init /\ wire_body w = wire_body init
  /\ (200 <= status init <= 599)%Z.
Proof.
  unfold construct.
  destruct (Z.ltb_spec (status init) 200); [discriminate|].
  destruct (Z.ltb_spec 599 (status init)); [discriminate|]. cbn [orb].
  destruct (wire_body init) eqn:Eb;
    try (destruct (null_body_status (status init)); [discriminate|]);
    try destruct (wire_headers init !! "content-type");
    intros [= <-]; cbn [status wire_body]; rewrite ?Eb; repeat split; lia.
Qed.

(** ** The continuation *)

Lemma apply_op_index declared op s :
  index (snd (apply_op declared op s)) = index s.
Proof.
  destruct op; simpl; try reflexivity.
  - destruct (res_header name value (res s)); reflexivity.
  - destruct declared; reflexivity.
  - destruct (currentResponse s) as [w|]; [|reflexivity].
    destruct (sse_send data w); reflexivity.
  - destruct (currentResponse s) as [w|]; [|reflexivity].
    destruct (sse_close w); reflexivity.
Qed.

Lemma apply_op_errorIndex declared op s :
  errorIndex (snd (apply_op declared op s)) = errorIndex s.
Proof.
  destruct op; simpl; try reflexivity.
  - destruct (res_header name value (res s)); reflexivity.
  - destruct declared; reflexivity.
  - destruct (currentResponse s) as [w|]; [|reflexivity].
    destruct (sse_send data w); reflexivity.
  - destruct (currentResponse s) as [w|]; [|reflexivity].
    destruct (sse_close w); reflexivity.
Qed.

Lemma apply_op_calls declared op s :
  calls (snd (apply_op declared op s)) = calls s.
Proof.
  destruct op; simpl; try reflexivity.
  - destruct (res_header name value (res s)); reflexivity.
  - destruct declared; reflexivity.
  - destruct (currentResponse s) as [w|]; [|reflexivity].
    destruct (sse_send data w); reflexivity.
  - destruct (currentResponse s) as [w|]; [|reflexivity].
    destruct (sse_close w); reflexivity.
Qed.

Section ScriptFacts.

Variable declared : bool.

(** A property of the store that operations keep, and that the continuation
    keeps, is kept by every script. *)
Lemma run_script_keeps (P : Store -> Prop) (nx : Store -> Outcome) :
  (forall op s, P s -> P (snd (apply_op declared op s))) ->
  (forall s, P s -> ends_in P (nx s)) ->
  forall sc s, P s -> ends_in P (run_script declared nx sc s).
Proof.
  intros Hop Hnx sc.
  induction sc as [|op k IH|f IH|k IH|b IHb h IHh k IHk|e]; intros s Hs; simpl.
  - exact Hs.
  - specialize (Hop op s Hs).
    destruct (apply_op declared op s) as [[[]|e] s']; simpl in *; auto.
  - apply IH, Hs.
  - specialize (Hnx s Hs). destruct (nx s) as [s'|e s'|]; simpl in *; auto.
  - specialize (IHb s Hs).
    destruct (run_script declared nx b s) as [s'|e s'|]; simpl in *; auto.
    specialize (IHh e s' IHb).
    destruct (run_script declared nx (h e) s') as [s''|e' s''|]; simpl in *; auto.
  - exact Hs.
Qed.

(** A script that ends under [probe] never called the continuation: it
    ends the same way under any other one. *)
Lemma run_script_probe (nx : Store -> Outcome) sc :
  forall s, run_script declared probe sc s <> Exhausted ->
            run_script declared nx sc s = run_script declared probe sc s.
Proof.
  induction sc as [|op k IH|f IH|k IH|b IHb h IHh k IHk|e]; intros s Hs; simpl in *.
  - reflexivity.
  - destruct (apply_op declared op s) as [[[]|e] s']; auto.
  - apply IH, Hs.
  - exfalso. apply Hs. reflexivity.
  - destruct (run_script declared probe b s) as [s'|e s'|] eqn:Eb.
    + rewrite IHb, Eb by (rewrite Eb; discriminate). auto.
    + rewrite IHb, Eb by (rewrite Eb; discriminate).
      destruct (run_script declared probe (h e) s') as [s''|e' s''|] eqn:Eh.
      * rewrite IHh, Eh by (rewrite Eh; discriminate). auto.
      * rewrite IHh, Eh by (rewrite Eh; discriminate). reflexivity.
      * exfalso. apply Hs. reflexivity.
    + exfalso. apply Hs. reflexivity.
  - reflexivity.
Qed.

(** Two phases of a script that calls the continuation: up to the first
    call the store satisfies [I]; the first call leads from [I] to [F], and
    from [F] the continuation leads to [F] again. *)
Lemma run_script_phases (I F : Store -> Prop) (nx : Store -> Outcome) :
  (forall op s, I s -> I (snd (apply_op declared op s))) ->
  (forall op s, F s -> F (snd (apply_op declared op s))) ->
  (forall s, I s -> ends_in F (nx s)) ->
  (forall s, F s -> ends_in F (nx s)) ->
  forall sc s, I s -> run_script declared probe sc s = Exhausted ->
               ends_in F (run_script declared nx sc s).
Proof.
  intros HI HF HnI HnF.
  assert (Hkeep : forall sc s, F s -> ends_in F (run_script declared nx sc s))
    by (intros; apply run_script_keeps; auto).
  assert (HkeepI : forall sc s, I s -> ends_in I (run_script declared probe sc s))
    by (intros; apply run_script_keeps; simpl; auto).
  induction sc as [|op k IH|f IH|k IH|b IHb h IHh k IHk|e]; intros s Hs Hp; simpl in *.
  - discriminate.
  - specialize (HI op s Hs).
    destruct (apply_op declared op s) as [[[]|e] s']; simpl in *; [auto|discriminate].
  - apply IH; auto.
  - specialize (HnI s Hs). destruct (nx s) as [s'|e s'|]; simpl in *; auto.
  - destruct (run_script declared probe b s) as [s'|e s'|] eqn:Eb.
    + pose proof (HkeepI b s Hs) as Hs'. rewrite Eb in Hs'. simpl in Hs'.
      rewrite run_script_probe, Eb by (rewrite Eb; discriminate). auto.
    + pose proof (HkeepI b s Hs) as Hs'. rewrite Eb in Hs'. simpl in Hs'.
      rewrite run_script_probe, Eb by (rewrite Eb; discriminate).
      destruct (run_script declared probe (h e) s') as [s''|e' s''|] eqn:Eh.
      * pose proof (HkeepI (h e) s' Hs') as Hs''. rewrite Eh in Hs''. simpl in Hs''.
        rewrite run_script_probe, Eh by (rewrite Eh; discriminate). auto.
      * discriminate.
      * specialize (IHh e s' Hs' Eh).
        destruct (run_script declared nx (h e) s') as [s''|e' s''|]; simpl in *; auto.
    + specialize (IHb s Hs Eb).
      destruct (run_script declared nx b s) as [s'|e s'|]; simpl in *; auto.
      pose proof (Hkeep (h e) s' IHb) as Hh.
      destruct (run_script declared nx (h e) s') as [s''|e' s''|]; simpl in *; auto.
  - discriminate.
Qed.

(** What a script gives up on, the continuation gave up on. *)
Lemma run_script_live (P : Store -> Prop) (nx : Store -> Outcome) :
  (forall op s, P s -> P (snd (apply_op declared op s))) ->
  (forall s, P s -> ends_in P (nx s)) ->
  (forall s, P s -> nx s <> Exhausted) ->
  forall sc s, P s -> run_script declared nx sc s <> Exhausted.
Proof.
  intros Hop Hnx Hlive.
  assert (Hkeep : forall sc s, P s -> ends_in P (run_script declared nx sc s))
    by (intros; apply run_script_keeps; auto).
  induction sc as [|op k IH|f IH|k IH|b IHb h IHh k IHk|e]; intros s Hs; simpl.
  - discriminate.
  - specialize (Hop op s Hs).
    destruct (apply_op declared op s) as [[[]|e] s']; simpl in *; [auto|discriminate].
  - apply IH, Hs.
  - pose proof (Hnx s Hs) as H1. pose proof (Hlive s Hs) as H2.
    destruct (nx s) as [s'|e s'|]; simpl in *; [auto|discriminate|congruence].
  - pose proof (Hkeep b s Hs) as H1. pose proof (IHb s Hs) as H2.
    destruct (run_script declared nx b s) as [s'|e s'|]; simpl in *; [auto| |congruence].
    pose proof (Hkeep (h e) s' H1) as H3. pose proof (IHh e s' H1) as H4.
    destruct (run_script declared nx (h e) s') as [s''|e' s''|]; simpl in *;
      [auto|discriminate|congruence].
  - discriminate.
Qed.

(** More fuel for the continuation changes nothing once the run ends. *)
Lemma run_script_more (nx nx' : Store -> Outcome) :
  (forall s, nx s <> Exhausted -> nx' s = nx s) ->
  forall sc s, run_script declared nx sc s <> Exhausted ->
               run_script declared nx' sc s = run_script declared nx sc s.
Proof.
  intros Hnx.
  induction sc as [|op k IH|f IH|k IH|b IHb h IHh k IHk|e]; intros s Hs; simpl in *.
  - reflexivity.
  - destruct (apply_op declared op s) as [[[]|e] s']; auto.
  - apply IH, Hs.
  - destruct (nx s) as [s'|e s'|] eqn:En.
    + rewrite Hnx, En by (rewrite En; discriminate). auto.
    + rewrite Hnx, En by (rewrite En; discriminate). reflexivity.
    + congruence.
  - destruct (run_script declared nx b s) as [s'|e s'|] eqn:Eb.
    + rewrite IHb, Eb by (rewrite Eb; discriminate). auto.
    + rewrite IHb, Eb by (rewrite Eb; discriminate).
      destruct (run_script declared nx (h e) s') as [s''|e' s''|] eqn:Eh.
      * rewrite IHh, Eh by (rewrite Eh; discriminate). auto.
      * rewrite IHh, Eh by (rewrite Eh; discriminate). reflexivity.
      * congruence.
    + congruence.
  - reflexivity.
Qed.

End ScriptFacts.

Lemma ends_in_impl (P Q : Store -> Prop) o :
  (forall s, P s -> Q s) -> ends_in P o -> ends_in Q o.
Proof. destruct o; simpl; auto. Qed.

Lemma ends_in_rethrow (P : Store -> Prop) wrap o :
  ends_in P (rethrow wrap o) <-> ends_in P o.
Proof. destruct o; simpl; tauto. Qed.

Lemma rethrow_live wrap o : rethrow wrap o <> Exhausted <-> o <> Exhausted.
Proof. destruct o; simpl; split; intros H; try discriminate; exact H. Qed.

(** Scripts that do not mention the continuation. *)
Section NoNextFacts.

Variable declared : bool.

Lemma nonext_any (nx1 nx2 : Store -> Outcome) sc :
  NoNext sc -> forall s, run_script declared nx1 sc s = run_script declared nx2 sc s.
Proof.
  induction 1 as [|op k Hk IH|f Hf IH|b h k Hb IHb Hh IHh Hk IHk|e]; intros s; simpl.
  - reflexivity.
  - destruct (apply_op declared op s) as [[[]|e] s']; auto.
  - apply IH.
  - rewrite (IHb s). destruct (run_script declared nx2 b s) as [s'|e s'|]; auto.
    rewrite (IHh e s'). destruct (run_script declared nx2 (h e) s'); auto.
  - reflexivity.
Qed.

Lemma nonext_probe sc :
  NoNext sc -> forall s, run_script declared probe sc s <> Exhausted.
Proof.
  induction 1 as [|op k Hk IH|f Hf IH|b h k Hb IHb Hh IHh Hk IHk|e]; intros s; simpl.
  - discriminate.
  - destruct (apply_op declared op s) as [[[]|e] s']; [auto|discriminate].
  - apply IH.
  - specialize (IHb s). destruct (run_script declared probe b s) as [s'|e s'|];
      [auto| |congruence].
    specialize (IHh e s'). destruct (run_script declared probe (h e) s');
      [auto|discriminate|congruence].
  - discriminate.
Qed.

Lemma nonext_keeps (P : Store -> Prop) (nx : Store -> Outcome) sc :
  (forall op s, P s -> P (snd (apply_op declared op s))) ->
  NoNext sc -> forall s, P s -> ends_in P (run_script declared nx sc s).
Proof.
  intros Hop Hsc s Hs. rewrite (nonext_any nx probe sc Hsc).
  apply run_script_keeps; simpl; auto.
Qed.

(** A script that calls the continuation at most once: the call starts
    from [I] and leads to [F]; without the call the script stays in [I]. *)
Lemma once_keeps (I F : Store -> Prop) (nx : Store -> Outcome) sc :
  (forall op s, I s -> I (snd (apply_op declared op s))) ->
  (forall op s, F s -> F (snd (apply_op declared op s))) ->
  (forall s, I s -> F s) ->
  (forall s, I s -> ends_in F (nx s)) ->
  OnceNext sc -> forall s, I s -> ends_in F (run_script declared nx sc s).
Proof.
  intros HI HF HIF Hnx.
  assert (HnI : forall sc s, NoNext sc -> I s -> ends_in I (run_script declared nx sc s))
    by (intros; apply nonext_keeps; auto).
  assert (HnF : forall sc s, NoNext sc -> F s -> ends_in F (run_script declared nx sc s))
    by (intros; apply nonext_keeps; auto).
  induction 1 as [sc Hsc|op k Hk IH|f Hf IH|k Hk
                  |b h k Hb IHb Hh Hk|b h k Hb Hh IHh Hk|b h k Hb Hh Hk IHk];
    intros s Hs; simpl.
  - eapply ends_in_impl; [apply HIF|]. apply HnI; auto.
  - specialize (HI op s Hs). specialize (HIF (snd (apply_op declared op s)) HI).
    destruct (apply_op declared op s) as [[[]|e] s']; simpl in *; auto.
  - apply IH, Hs.
  - specialize (Hnx s Hs). destruct (nx s) as [s'|e s'|]; simpl in *; auto.
  - specialize (IHb s Hs).
    destruct (run_script declared nx b s) as [s'|e s'|]; simpl in *; auto.
    pose proof (HnF (h e) s' (Hh e) IHb) as H2.
    destruct (run_script declared nx (h e) s') as [s''|e' s''|]; simpl in *; auto.
  - pose proof (HnI b s Hb Hs) as H1.
    destruct (run_script declared nx b s) as [s'|e s'|]; simpl in H1; [| |exact Logic.I].
    + eapply ends_in_impl; [apply HIF|]. apply HnI; auto.
    + specialize (IHh e s' H1).
      destruct (run_script declared nx (h e) s') as [s''|e' s''|]; simpl in *; auto.
  - pose proof (HnI b s Hb Hs) as H1.
    destruct (run_script declared nx b s) as [s'|e s'|]; simpl in *; auto.
    pose proof (HnI (h e) s' (Hh e) H1) as H2.
    destruct (run_script declared nx (h e) s') as [s''|e' s''|]; simpl in *; auto.
Qed.

(** Two continuations that agree where the first call can happen are the
    same to a script that calls at most once. *)
Lemma once_agree (I : Store -> Prop) (nx1 nx2 : Store -> Outcome) sc :
  (forall op s, I s -> I (snd (apply_op declared op s))) ->
  (forall s, I s -> nx1 s = nx2 s) ->
  OnceNext sc -> forall s, I s ->
  run_script declared nx1 sc s = run_script declared nx2 sc s.
Proof.
  intros HI Hnx.
  assert (HnI : forall sc s, NoNext sc -> I s -> ends_in I (run_script declared nx2 sc s))
    by (intros; apply nonext_keeps; auto).
  induction 1 as [sc Hsc|op k Hk IH|f Hf IH|k Hk
                  |b h k Hb IHb Hh Hk|b h k Hb Hh IHh Hk|b h k Hb Hh Hk IHk];
    intros s Hs; simpl.
  - apply nonext_any, Hsc.
  - specialize (HI op s Hs).
    destruct (apply_op declared op s) as [[[]|e] s']; simpl in *; auto.
  - apply IH, Hs.
  - rewrite (Hnx s Hs). destruct (nx2 s); auto using nonext_any.
  - rewrite (IHb s Hs).
    destruct (run_script declared nx2 b s) as [s'|e s'|]; auto using nonext_any.
    rewrite (nonext_any nx1 nx2 (h e) (Hh e) s').
    destruct (run_script declared nx2 (h e) s'); auto using nonext_any.
  - rewrite (nonext_any nx1 nx2 b Hb s). pose proof (HnI b s Hb Hs) as H1.
    destruct (run_script declared nx2 b s) as [s'|e s'|]; simpl in *;
      auto using nonext_any.
    rewrite (IHh e s' H1).
    destruct (run_script declared nx2 (h e) s'); auto using nonext_any.
  - rewrite (nonext_any nx1 nx2 b Hb s). pose proof (HnI b s Hb Hs) as H1.
    destruct (run_script declared nx2 b s) as [s'|e s'|]; simpl in *; auto.
    rewrite (nonext_any nx1 nx2 (h e) (Hh e) s').
    pose proof (HnI (h e) s' (Hh e) H1) as H2.
    destruct (run_script declared nx2 (h e) s'); simpl in *; auto.
Qed.

End NoNextFacts.

Section DriveFacts.

Variable declared : bool.
Variable cursor : Store -> nat.
Variable enter : JsFn -> Store -> Store.
Variable note : nat -> JsFn -> Call.
Variable body_of : JsFn -> Script.
Variable wrap : Js.Thrown -> Js.Thrown.

Hypothesis enter_cursor : forall h s, cursor (enter h s) = S (cursor s).
Hypothesis enter_calls : forall h s, calls (enter h s) = calls s ++ [note (cursor s) h].
Hypothesis op_cursor : forall op s, cursor (snd (apply_op declared op s)) = cursor s.

Local Abbreviation drv := (drive declared cursor enter body_of wrap).

Lemma drive_end chain at_end fuel s :
  chain !! cursor s = None ->
  drv chain at_end fuel s
  = match at_end with Some e => Threw (wrap e) s | None => Done s end.
Proof. intros H. destruct fuel; simpl; rewrite H; reflexivity. Qed.

Lemma drive_step chain at_end fuel s h :
  chain !! cursor s = Some h ->
  drv chain at_end (S fuel) s
  = rethrow wrap (run_script declared (drv chain at_end fuel) (body_of h) (enter h s)).
Proof. intros H. simpl. rewrite H. reflexivity. Qed.

(** The cursor only moves forward. *)
Lemma drive_grows chain at_end fuel :
  forall s, ends_in (fun s' => cursor s <= cursor s') (drv chain at_end fuel s).
Proof.
  induction fuel as [|fuel IH]; intros s.
  - simpl. destruct (chain !! cursor s); [exact I|]. destruct at_end; simpl; lia.
  - destruct (chain !! cursor s) as [h|] eqn:E.
    + rewrite (drive_step _ _ _ _ _ E). apply ends_in_rethrow.
      eapply ends_in_impl;
        [|apply (run_script_keeps declared (fun s' => S (cursor s) <= cursor s'))].
      * simpl. intros; lia.
      * intros op s1 H1. rewrite op_cursor. exact H1.
      * intros s1 H1. eapply ends_in_impl; [|apply IH]. simpl. intros; lia.
      * rewrite enter_cursor. lia.
    + rewrite (drive_end _ _ _ _ E). destruct at_end; simpl; lia.
Qed.

(** Fuel for the functions that are left is enough. *)
Lemma drive_live chain at_end fuel :
  forall s, length chain - cursor s <= fuel -> drv chain at_end fuel s <> Exhausted.
Proof.
  induction fuel as [|fuel IH]; intros s Hs.
  - rewrite drive_end; [destruct at_end; discriminate|].
    apply lookup_ge_None_2. lia.
  - destruct (chain !! cursor s) as [h|] eqn:E.
    + rewrite (drive_step _ _ _ _ _ E). apply rethrow_live.
      apply (run_script_live declared (fun s' => S (cursor s) <= cursor s')).
      * intros op s1 H1. rewrite op_cursor. exact H1.
      * intros s1 H1. eapply ends_in_impl; [|apply drive_grows]. simpl. intros; lia.
      * intros s1 H1. apply IH. lia.
      * rewrite enter_cursor. lia.
    + rewrite (drive_end _ _ _ _ E). destruct at_end; discriminate.
Qed.

(** More fuel than enough gives the same outcome. *)
Lemma drive_more chain at_end fuel :
  forall fuel' s, fuel <= fuel' -> drv chain at_end fuel s <> Exhausted ->
                  drv chain at_end fuel' s = drv chain at_end fuel s.
Proof.
  induction fuel as [|fuel IH]; intros fuel' s Hle Hs.
  - destruct (chain !! cursor s) as [h|] eqn:E.
    + simpl in Hs. rewrite E in Hs. congruence.
    + rewrite !drive_end by exact E. reflexivity.
  - destruct fuel' as [|fuel']; [lia|].
    destruct (chain !! cursor s) as [h|] eqn:E.
    + rewrite !(drive_step _ _ _ _ _ E) in *. f_equal.
      apply run_script_more.
      * intros s1 H1. apply IH; [lia|exact H1].
      * apply rethrow_live in Hs. exact Hs.
    + rewrite !drive_end by exact E. reflexivity.
Qed.

(** When every function before the last one calls the continuation, every
    function of the list is called once, in order. *)
Lemma drive_all pre lst at_end fuel :
  (forall h, In h pre -> forall s, run_script declared probe (body_of h) s = Exhausted) ->
  forall s, cursor s <= length pre ->
  ends_in (fun s' => cursor s' = S (length pre)
                     /\ calls s' = calls s
                          ++ trace_from note (cursor s) (drop (cursor s) (pre ++ [lst])))
    (drv (pre ++ [lst]) at_end fuel s).
Proof.
  intros Hpre. set (chain := pre ++ [lst]).
  assert (Hlen : length chain = S (length pre))
    by (unfold chain; rewrite length_app; simpl; lia).
  assert (Hstay : forall f s2 (F : Store -> Prop),
             cursor s2 = S (length pre) -> F s2 -> ends_in F (drv chain at_end f s2)).
  { intros f s2 F Hc HF. rewrite drive_end.
    - destruct at_end; exact HF.
    - apply lookup_ge_None_2. lia. }
  induction fuel as [|fuel IH]; intros s Hs.
  - simpl. destruct (chain !! cursor s) eqn:E; [exact I|].
    apply lookup_ge_None_1 in E. lia.
  - destruct (chain !! cursor s) as [h|] eqn:E;
      [|apply lookup_ge_None_1 in E; lia].
    rewrite (drive_step _ _ _ _ _ E). apply ends_in_rethrow.
    assert (Hdrop : drop (cursor s) chain = h :: drop (S (cursor s)) chain)
      by (apply drop_S; exact E).
    rewrite Hdrop. simpl.
    destruct (decide (cursor s = length pre)) as [Heq|Hne].
    + (* the last function *)
      assert (Htail : drop (S (cursor s)) chain = [])
        by (apply drop_ge; lia).
      rewrite Htail. simpl.
      apply (run_script_keeps declared
               (fun s' => cursor s' = S (length pre)
                          /\ calls s' = calls s ++ [note (cursor s) h])).
      * intros op s1 [H1 H2]. rewrite op_cursor, apply_op_calls. auto.
      * intros s1 [H1 H2]. apply Hstay; auto.
      * rewrite enter_cursor, enter_calls. auto.
    + assert (Hin : In h pre).
      { unfold chain in E. rewrite lookup_app_l in E by lia.
        apply list_elem_of_In, list_elem_of_lookup. eauto. }
      apply (run_script_phases declared
               (fun s1 => cursor s1 = S (cursor s)
                          /\ calls s1 = calls s ++ [note (cursor s) h])
               (fun s' => cursor s' = S (length pre)
                          /\ calls s' = calls s ++ note (cursor s) h
                               :: trace_from note (S (cursor s))
                                    (drop (S (cursor s)) chain))).
      * intros op s1 [H1 H2]. rewrite op_cursor, apply_op_calls. auto.
      * intros op s1 [H1 H2]. rewrite op_cursor, apply_op_calls. auto.
      * intros s1 [H1 H2]. eapply ends_in_impl; [|apply IH; lia].
        simpl. intros s' [H3 H4]. split; [exact H3|].
        rewrite H4, H2, H1, <- app_assoc. reflexivity.
      * intros s1 [H1 H2]. apply Hstay; auto.
      * rewrite enter_cursor, enter_calls. auto.
      * apply Hpre, Hin.
Qed.

(** Two lists with the same functions up to position [length pre], whose
    function at that position does not call the continuation and whose
    earlier functions call it at most once, drive the same runs. *)
Lemma drive_prefix pre h post1 post2 at_end1 at_end2 fuel :
  (forall g, In g pre -> OnceNext (body_of g)) ->
  NoNext (body_of h) ->
  forall s, cursor s <= length pre ->
  drv (pre ++ h :: post1) at_end1 fuel s = drv (pre ++ h :: post2) at_end2 fuel s.
Proof.
  intros Hpre Hh.
  assert (Hlook : forall post c, c <= length pre ->
             (pre ++ h :: post) !! c = (pre ++ [h]) !! c).
  { intros post c Hc. destruct (decide (c = length pre)) as [->|Hne].
    - rewrite !list_lookup_middle by reflexivity. reflexivity.
    - rewrite !lookup_app_l by lia. reflexivity. }
  induction fuel as [|fuel IH]; intros s Hs.
  - destruct ((pre ++ [h]) !! cursor s) as [g|] eqn:E.
    + simpl. rewrite (Hlook post1), (Hlook post2), E by exact Hs. reflexivity.
    + apply lookup_ge_None_1 in E. rewrite length_app in E. simpl in E. lia.
  - destruct ((pre ++ [h]) !! cursor s) as [g|] eqn:E.
    + rewrite (drive_step (pre ++ h :: post1) _ _ _ g) by (rewrite Hlook; auto).
      rewrite (drive_step (pre ++ h :: post2) _ _ _ g) by (rewrite Hlook; auto).
      f_equal.
      destruct (decide (cursor s = length pre)) as [Heq|Hne].
      * rewrite Heq, list_lookup_middle in E by reflexivity.
        injection E as <-. apply nonext_any, Hh.
      * assert (Hin : In g pre).
        { rewrite lookup_app_l in E by lia.
          apply list_elem_of_In, list_elem_of_lookup. eauto. }
        apply (once_agree declared (fun s1 => cursor s1 = S (cursor s))).
        -- intros op s1 H1. rewrite op_cursor. exact H1.
        -- intros s1 H1. apply IH. lia.
        -- apply Hpre, Hin.
        -- apply enter_cursor.
    + apply lookup_ge_None_1 in E. rewrite length_app in E. simpl in E. lia.
Qed.

(** Under the same discipline the cursor stops right after position
    [length pre], and a property of the store kept by entering a function up
    to that position is kept by the run. *)
Lemma drive_bounded pre h post at_end (P : Store -> Prop) fuel :
  (forall g, In g pre -> OnceNext (body_of g)) ->
  NoNext (body_of h) ->
  (forall op s, P s -> P (snd (apply_op declared op s))) ->
  (forall g s, cursor s <= length pre -> P s -> P (enter g s)) ->
  forall s, cursor s <= length pre -> P s ->
  ends_in (fun s' => cursor s' <= S (length pre) /\ P s')
    (drv (pre ++ h :: post) at_end fuel s).
Proof.
  intros Hpre Hh Hop Henter.
  induction fuel as [|fuel IH]; intros s Hs HP.
  - simpl. destruct ((pre ++ h :: post) !! cursor s); [exact I|].
    destruct at_end; simpl; auto with lia.
  - destruct ((pre ++ h :: post) !! cursor s) as [g|] eqn:E.
    + rewrite (drive_step _ _ _ _ _ E). apply ends_in_rethrow.
      destruct (decide (cursor s = length pre)) as [Heq|Hne].
      * rewrite Heq, list_lookup_middle in E by reflexivity. injection E as <-.
        apply nonext_keeps; [| exact Hh |].
        -- intros op s1 [H1 H2]. rewrite op_cursor. auto.
        -- rewrite enter_cursor. split; [lia|]. apply Henter; auto.
      * assert (Hin : In g pre).
        { rewrite lookup_app_l in E by lia.
          apply list_elem_of_In, list_elem_of_lookup. eauto. }
        apply (once_keeps declared
                 (fun s1 => cursor s1 = S (cursor s) /\ P s1)
                 (fun s' => cursor s' <= S (length pre) /\ P s')).
        -- intros op s1 [H1 H2]. rewrite op_cursor. auto.
        -- intros op s1 [H1 H2]. rewrite op_cursor. auto.
        -- intros s1 [H1 H2]. split; [lia|exact H2].
        -- intros s1 [H1 H2]. apply IH; [lia|exact H2].
        -- apply Hpre, Hin.
        -- rewrite enter_cursor. split; [reflexivity|]. apply Henter; auto.
    + rewrite (drive_end _ _ _ _ E). destruct at_end; simpl; auto with lia.
Qed.

End DriveFacts.

(** ** The chain of a request *)

Section NextFacts.

Variable declared : bool.
Variable req : Request.
Variable wrap : Js.Thrown -> Js.Thrown.

(** [next] with the fuel that the entry points give it always ends. *)
Lemma next_live chain at_end :
  next declared req wrap chain at_end (length chain) new_Store <> Exhausted.
Proof.
  apply drive_live; simpl; auto using apply_op_index with lia.
Qed.

Lemma errorNext_live handlers error s :
  errorNext declared req wrap handlers error (length handlers) (reset_errorIndex s)
  <> Exhausted.
Proof.
  apply drive_live; simpl; auto using apply_op_errorIndex with lia.
Qed.

Lemma recover_live handlers error s :
  recover declared req wrap handlers error s <> Exhausted.
Proof.
  destruct handlers as [|h hs]; [discriminate|]. apply errorNext_live.
Qed.

(** When every handler before the last one calls [next], the whole chain
    runs, every handler once and in order. *)
Lemma next_all pre lst at_end :
  (forall h, In h pre -> invokes_next h) ->
  ends_in (fun s => calls s = trace_from Invoked 0 (pre ++ [lst]))
    (next declared req wrap (pre ++ [lst]) at_end (length (pre ++ [lst])) new_Store).
Proof.
  intros Hpre.
  eapply ends_in_impl;
    [|apply (drive_all declared index enter_handler Invoked (fun h => call3 h req) wrap)].
  - simpl. intros s [_ H]. exact H.
  - reflexivity.
  - reflexivity.
  - apply apply_op_index.
  - intros h Hh s. apply Hpre, Hh.
  - simpl. lia.
Qed.

End NextFacts.

(** The route of the template ["/x"]. *)
Lemma pathToPattern_x : pathToPattern "/x" = inr (RegExp.literal "^/x$").
Proof. vm_compute. reflexivity. Qed.

Lemma extractParams_x method handlers :
  extractParams (mkRoute method "/x" (RegExp.literal "^/x$") handlers) "/x" = Some ∅.
Proof. vm_compute. reflexivity. Qed.

Lemma use1_regular app h :
  fn_length h <> 4 ->
  use1 app h = mkHalin (routes app) (middlewares app ++ [h]) (errorHandlers app)
                 (prefix app) (currentGroupMiddlewares app).
Proof.
  intros H. unfold use1. destruct (Nat.eqb_spec (fn_length h) 4); [contradiction|reflexivity].
Qed.

Lemma use1_error app h :
  fn_length h = 4 ->
  use1 app h = mkHalin (routes app) (middlewares app) (errorHandlers app ++ [h])
                 (prefix app) (currentGroupMiddlewares app).
Proof. intros H. unfold use1. rewrite H. reflexivity. Qed.

Lemma readable_handle_body raw :
  readable_body raw -> exists v, handle_body raw = Normal v.
Proof.
  unfold readable_body, handle_body. destruct (raw_body raw) as [b|]; [|eauto].
  intros [[v Hv] _]. destruct (content_type_includes _ raw); [|eauto].
  rewrite Hv. eauto.
Qed.

Lemma readable_listen_body1 raw :
  readable_body raw -> exists v, Rev1.listen_body raw = Normal v.
Proof.
  unfold readable_body, Rev1.listen_body. destruct (raw_body raw) as [b|]; [|eauto].
  intros [[v Hv] [l Hl]]. rewrite Hv, Hl.
  repeat destruct (content_type_includes _ raw); eauto.
Qed.

Lemma readable_listen_body2 raw :
  readable_body raw -> exists v, Rev2.listen_body raw = Normal v.
Proof.
  unfold readable_body, Rev2.listen_body. destruct (raw_body raw) as [b|]; [|eauto].
  intros [[v Hv] [l Hl]]. rewrite Hv, Hl.
  repeat destruct (content_type_includes _ raw); eauto.
Qed.

(** The store of a request is the one its [try] block ends with. *)
Lemma settle_answer boundary c s :
  exists w, settle boundary (answer c s) = Some (mkResult w s).
Proof. destruct c; simpl; eauto. Qed.

(** Without error handlers the [catch] clause of [handle] fails with the
    store it was given. *)
Lemma handle_catch_plain coerce app req e s :
  errorHandlers app = [] ->
  exists e', handle_catch coerce app req e s = Failed e' s.
Proof.
  intros He. unfold handle_catch, recover. rewrite He. destruct (coerce e); eauto.
Qed.

(** The reply exists and its store satisfies what the store satisfies when
    the chain ends, in an application without error handlers. *)
Lemma handle_dispatch_plain coerce app req chain at_end (P : Store -> Prop) :
  errorHandlers app = [] ->
  ends_in P (next true req (fun e => e) chain at_end (length chain) new_Store) ->
  exists r, settle (handle_boundary coerce) (handle_dispatch coerce app req chain at_end)
            = Some r
            /\ P (final r).
Proof.
  intros He HP. unfold handle_dispatch.
  pose proof (next_live true req (fun e => e) chain at_end) as Hl.
  destruct (next true req _ chain at_end (length chain) new_Store) as [s|e s|];
    [| |congruence]; simpl in HP.
  - destruct (final_response s) as [w|e].
    + eexists. split; [reflexivity|exact HP].
    + destruct (handle_catch_plain coerce app req e s He) as [e' ->].
      eexists. split; [reflexivity|exact HP].
  - destruct (handle_catch_plain coerce app req e s He) as [e' ->].
    eexists. split; [reflexivity|exact HP].
Qed.

Lemma listen1_dispatch_plain app req chain (P : Store -> Prop) :
  errorHandlers app = [] ->
  ends_in P (next false req (fun e => e) chain None (length chain) new_Store) ->
  exists r, settle Rev1.listen_boundary (Rev1.listen_dispatch app req chain) = Some r
            /\ P (final r).
Proof.
  intros He HP. unfold Rev1.listen_dispatch, recover.
  pose proof (next_live false req (fun e => e) chain None) as Hl.
  destruct (next false req _ chain None (length chain) new_Store) as [s|e s|];
    [| |congruence]; simpl in HP.
  - eexists. split; [reflexivity|exact HP].
  - rewrite He. eexists. split; [reflexivity|exact HP].
Qed.

Lemma listen2_dispatch_plain dev app req chain (P : Store -> Prop) :
  errorHandlers app = [] ->
  ends_in P (next true req Rev2.middleware_error chain None (length chain) new_Store) ->
  exists r, settle (Rev2.listen_boundary dev) (Rev2.listen_dispatch app req chain) = Some r
            /\ P (final r).
Proof.
  intros He HP. unfold Rev2.listen_dispatch, recover.
  pose proof (next_live true req Rev2.middleware_error chain None) as Hl.
  destruct (next true req _ chain None (length chain) new_Store) as [s|e s|];
    [| |congruence]; simpl in HP.
  - destruct (settle_answer (Rev2.listen_boundary dev) (final_response s) s) as [w ->].
    eexists. split; [reflexivity|exact HP].
  - rewrite He. eexists. split; [reflexivity|exact HP].
Qed.


(** ** The SSE writer and the response builder *)

Lemma sse_close_closed w : closed (snd (sse_close w)) = true.
Proof.
  unfold sse_close. destruct (closed w) eqn:E; [exact E|].
  destruct (controller_close (controller w)); reflexivity.
Qed.

(** A writer that only sent events is open, its stream readable and not yet
    told to finish. *)
Lemma sse_after_open events :
  closed (sse_after events) = false
  /\ stream_state (controller (sse_after events)) = Readable
  /\ close_signals (controller (sse_after events)) = 0.
Proof.
  unfold sse_after.
  assert (H : forall w, closed w = false /\ stream_state (controller w) = Readable
                        /\ close_signals (controller w) = 0 ->
              closed (fold_left (fun w d => snd (sse_send d w)) events w) = false
              /\ stream_state (controller (fold_left (fun w d => snd (sse_send d w)) events w))
                 = Readable
              /\ close_signals (controller (fold_left (fun w d => snd (sse_send d w)) events w))
                 = 0).
  { induction events as [|d ds IH]; intros w Hw; [exact Hw|].
    simpl. apply IH. destruct Hw as (Hc & Hs & Hn).
    unfold sse_send, enqueue. rewrite Hc, Hs. simpl. auto. }
  apply H. repeat split.
Qed.

(** The second revision's [send] returns nothing; after [close()] it has no
    effect either. *)
Lemma sse_send_void_after_close w data :
  sse_send_void data (snd (sse_close w)) = (Normal tt, snd (sse_close w)).
Proof. unfold sse_send_void. rewrite sse_close_closed. reflexivity. Qed.

(** C8.  After [close()], another [close()] returns without a change and
    without an error, and [send()] returns without an error and leaves the
    writer, so also the chunks of its stream, as they were.  A writer that
    only sent events tells its stream to finish once, however often it is
    closed.  [send()] of the first revision returns [false] after
    [close()]; [send()] of the second revision returns nothing, after
    [close()] as at any other time. *)
Theorem C8_sse_close_once_send_after_close :
  (forall w, sse_close (snd (sse_close w)) = (Normal tt, snd (sse_close w)))
  /\ (forall w data, sse_send data (snd (sse_close w)) = (Normal false, snd (sse_close w)))
  /\ (forall events,
        fst (sse_close (sse_after events)) = Normal tt
        /\ close_signals (controller (snd (sse_close (sse_after events)))) = 1
        /\ close_signals
             (controller (snd (sse_close (snd (sse_close (sse_after events)))))) = 1
        /\ chunks (controller (snd (sse_close (sse_after events))))
           = chunks (controller (sse_after events)))
  /\ (forall w data,
        sse_send_void data (snd (sse_close w)) = (Normal tt, snd (sse_close w)))
  /\ (forall w data,
        returned_bool (fst (sse_send data (snd (sse_close w)))) = Normal (Js.Bool false))
  /\ (forall w data v,
        returned_void (fst (sse_send_void data w)) = Normal v -> v = Js.Undefined).
Proof.
  split; [|split; [|split; [|split; [|split]]]].
  - intros w. unfold sse_close at 1. rewrite sse_close_closed. reflexivity.
  - intros w data. unfold sse_send. rewrite sse_close_closed. reflexivity.
  - intros events. destruct (sse_after_open events) as (Hc & Hs & Hn).
    assert (E : sse_close (sse_after events)
                = (Normal tt,
                   mkSSEWriter (sse_statusCode (sse_after events))
                     (sse_headers (sse_after events))
                     (mkController Closed (chunks (controller (sse_after events))) 1)
                     true)).
    { unfold sse_close, controller_close. rewrite Hc, Hs, Hn. reflexivity. }
    rewrite E. simpl. repeat split.
  - apply sse_send_void_after_close.
  - intros w data. unfold sse_send. rewrite sse_close_closed. reflexivity.
  - intros w data v. destruct (fst (sse_send_void data w)); simpl; congruence.
Qed.

(** C8 fails as stated for the writer of the second revision: a [send()]
    after [close()] gives the caller [undefined], which is also what a
    [send()] that wrote its event gives; nothing tells the caller that the
    event was dropped. *)
Lemma C8_counterexample :
  returned_void (fst (sse_send_void (Js.Str "late") (snd (sse_close new_SSEWriter))))
  = Normal Js.Undefined
  /\ returned_void (fst (sse_send_void (Js.Str "early") new_SSEWriter))
     = Normal Js.Undefined
  /\ chunks (controller (snd (sse_send_void (Js.Str "late")
                                (snd (sse_close new_SSEWriter))))) = []
  /\ chunks (controller (snd (sse_send_void (Js.Str "early") new_SSEWriter)))
     = [sse_frame (Js.Str "early")].
Proof. repeat split. Qed.

(** After the consumer cancelled the stream, [send] and [close] do nothing. *)
Lemma sse_after_cancel w data :
  sse_send data (sse_cancel w) = (Normal false, sse_cancel w)
  /\ sse_close (sse_cancel w) = (Normal tt, sse_cancel w).
Proof. split; reflexivity. Qed.

(** C10.  [send(null)] takes the [json] branch: [typeof null] is
    ["object"], the body becomes the text [null] and the content type
    [application/json]. *)
Theorem C10_send_null_is_json (r : Response) :
  Js.typeof Js.Null = "object"
  /\ res_send Js.Null r = res_json Js.Null r
  /\ body (res_send Js.Null r) = BText "null"
  /\ headers_get "Content-Type" (headers (res_send Js.Null r)) = Some "application/json"
  /\ statusCode (res_send Js.Null r) = statusCode r.
Proof.
  repeat split.
  unfold res_send, res_json, res_header, headers_get, headers_set. simpl.
  change (toLowerCase "Content-Type") with "content-type".
  apply lookup_insert_eq.
Qed.

(** ** Resolution of a route *)

Lemma find_in_some rs method path m :
  find_in rs method path = Some m ->
  exists found,
    first_match rs method path (route m) found
    /\ params m = bind_params (paramNames (route_path (route m))) 0 found ∅.
Proof.
  induction rs as [|r rs IH]; simpl; [discriminate|].
  destruct (String.eqb_spec (route_method r) method) as [Hm|Hm].
  - unfold extractParams.
    destruct (RegExp.match_first path (route_pattern r)) as [found|] eqn:E.
    + intros [= <-]. exists found. split; [|reflexivity].
      exists [], rs. simpl. repeat split; auto. intros r' [].
    + intros H. destruct (IH H) as (found & (before & after & -> & H1 & H2 & H3) & H4).
      exists found. split; [|exact H4].
      exists (r :: before), after. repeat split; auto.
      intros r' [<-|Hin] Hr'; auto.
  - intros H. destruct (IH H) as (found & (before & after & -> & H1 & H2 & H3) & H4).
    exists found. split; [|exact H4].
    exists (r :: before), after. repeat split; auto.
    intros r' [<-|Hin] Hr'; [contradiction|auto].
Qed.

Lemma find_in_none rs method path :
  find_in rs method path = None ->
  forall r, In r rs -> route_method r = method ->
            RegExp.match_first path (route_pattern r) = None.
Proof.
  induction rs as [|r rs IH]; simpl; [intros _ r' []|].
  destruct (String.eqb_spec (route_method r) method) as [Hm|Hm].
  - unfold extractParams.
    destruct (RegExp.match_first path (route_pattern r)) as [found|] eqn:E;
      [discriminate|].
    intros H r' [<-|Hin] Hr'; auto.
  - intros H r' [<-|Hin] Hr'; [contradiction|auto].
Qed.

(** What the loop over the parameter names leaves in the object. *)
Lemma bind_params_other names : forall k found ps key,
  (forall name, In name names -> slice1 name <> key) ->
  bind_params names k found ps !! key = ps !! key.
Proof.
  induction names as [|n names IH]; intros k found ps key Hk; simpl; [reflexivity|].
  rewrite IH by (intros; apply Hk; right; assumption).
  unfold set_param. destruct (String.eqb (slice1 n) "__proto__"); [reflexivity|].
  apply lookup_insert_ne. apply Hk. left. reflexivity.
Qed.

Lemma bind_params_lookup names : forall k found ps i name,
  names !! i = Some name ->
  slice1 name <> "__proto__" ->
  (forall j name', i < j -> names !! j = Some name' -> slice1 name' <> slice1 name) ->
  bind_params names k found ps !! slice1 name = Some (mjoin (found !! S (k + i))).
Proof.
  induction names as [|n names IH]; intros k found ps i name Hi Hp Hlast;
    [discriminate|].
  destruct i as [|i]; simpl in *.
  - injection Hi as ->. rewrite bind_params_other.
    + unfold set_param. destruct (String.eqb_spec (slice1 name) "__proto__");
        [contradiction|].
      rewrite lookup_insert_eq, Nat.add_0_r. reflexivity.
    + intros name' Hin. apply list_elem_of_In, list_elem_of_lookup in Hin.
      destruct Hin as [j Hj]. apply (Hlast (S j)); [lia|exact Hj].
  - rewrite (IH (S k) found _ i name Hi Hp).
    + do 3 f_equal. lia.
    + intros j name' Hj Hn. apply (Hlast (S j)); [lia|exact Hn].
Qed.

Lemma pathToPattern_users_id :
  pathToPattern "/users/:id" = inr (RegExp.literal "^/users/([^/]+)$").
Proof. vm_compute. reflexivity. Qed.

Lemma extractParams_users_id method handlers :
  extractParams
    (mkRoute method "/users/:id" (RegExp.literal "^/users/([^/]+)$") handlers)
    "/users/123"
  = Some {[ "id" := Some "123" ]}.
Proof. vm_compute. reflexivity. Qed.

(** ** Compilation of a template *)

Section NoMatch.

Variable re : RegExp.t.
Variable input : list ascii.

Hypothesis nowhere : forall start, RegExp.exec_at re input start = None.

Lemma search_none n : forall start, RegExp.search re input n start = None.
Proof.
  induction n as [|n IH]; intros start; simpl; rewrite nowhere; [reflexivity|apply IH].
Qed.

Lemma exec_none from : RegExp.exec re input from = None.
Proof. unfold RegExp.exec. destruct (_ <? _)%nat; [reflexivity|apply search_none]. Qed.

Lemma scan_none fuel from : RegExp.scan re input fuel from = [].
Proof. destruct fuel; simpl; [reflexivity|]. rewrite exec_none. reflexivity. Qed.

End NoMatch.

(** An expression that matches nowhere in [s] leaves [s] as it is. *)
Lemma replace_all_none re s replacement :
  (forall start, RegExp.exec_at re (list_ascii_of_string s) start = None) ->
  RegExp.replace_all s re replacement = s.
Proof.
  intros H. unfold RegExp.replace_all, RegExp.matches.
  rewrite scan_none by exact H. simpl. rewrite drop_0.
  apply string_of_list_ascii_of_string.
Qed.

Lemma lookup_forallb {A} (f : A -> bool) (l : list A) i x :
  forallb f l = true -> l !! i = Some x -> f x = true.
Proof.
  intros H Hi. rewrite forallb_forall in H. apply H.
  apply list_elem_of_In, list_elem_of_lookup. eauto.
Qed.

Lemma param_segment_none s :
  plain_text s = true ->
  forall start, RegExp.exec_at param_segment (list_ascii_of_string s) start = None.
Proof.
  intros H start. unfold plain_text in H. unfold RegExp.exec_at.
  change (RegExp.ast param_segment)
    with (RegExp.RSeq (RegExp.RChar "/")
            (RegExp.RSeq (RegExp.RChar ":")
               (RegExp.RGroup 1 (RegExp.RPlus (RegExp.RClass true [RegExp.CChar "/"]))))).
  cbn [RegExp.run RegExp.pos RegExp.caps].
  destruct (list_ascii_of_string s !! start) as [d|]; [|reflexivity].
  destruct (Ascii.eqb d "/"); [|reflexivity].
  destruct (list_ascii_of_string s !! S start) as [d'|] eqn:E; [|reflexivity].
  pose proof (lookup_forallb _ _ _ _ H E) as Hd. simpl in Hd.
  destruct (Ascii.eqb d' ":"); [discriminate|reflexivity].
Qed.

Lemma star_none s :
  plain_text s = true ->
  forall start, RegExp.exec_at star (list_ascii_of_string s) start = None.
Proof.
  intros H start. unfold plain_text in H. unfold RegExp.exec_at.
  change (RegExp.ast star) with (RegExp.RChar "*").
  cbn [RegExp.run RegExp.pos RegExp.caps].
  destruct (list_ascii_of_string s !! start) as [d|] eqn:E; [|reflexivity].
  pose proof (lookup_forallb _ _ _ _ H E) as Hd. simpl in Hd.
  destruct (Ascii.eqb d "*"); [|reflexivity].
  rewrite andb_false_r in Hd. discriminate.
Qed.




(** C9, as the code has it.  Registration checks nothing of its own: it
    fails exactly when the constructor of the pattern rejects the source
    built from the template, as for ["/a(b"], and otherwise appends the
    route.  A colon without a name stays literal text, and of two
    parameters with one name the later one gives the value. *)
Theorem C9_registration_checks_nothing :
  (forall method path handlers app failure,
     addRoute method path handlers app = inl failure
     <-> RegExp.compile (pattern_source path) = inl failure)
  /\ (forall method path handlers app pattern,
        RegExp.compile (pattern_source path) = inr pattern ->
        addRoute method path handlers app
        = inr (mkHalin (routes app ++ [mkRoute method path pattern handlers])
                 (middlewares app) (errorHandlers app) (prefix app)
                 (currentGroupMiddlewares app)))
  /\ get "/a(b" [] new_Halin = inl RegExp.SyntaxError
  /\ (exists app, get "/:" [] new_Halin = inr app
                  /\ params <$> findRoute app "GET" "/:" = Some ∅
                  /\ findRoute app "GET" "/x" = None)
  /\ (exists app, get "/:id/:id" [] new_Halin = inr app
                  /\ params <$> findRoute app "GET" "/a/b" = Some {[ "id" := Some "b" ]}).
Proof.
  split; [|split; [|split; [|split]]].
  - intros method path handlers app failure. unfold addRoute, pathToPattern.
    destruct (RegExp.compile (pattern_source path)); split; congruence.
  - intros method path handlers app pattern H. unfold addRoute, pathToPattern.
    rewrite H. reflexivity.
  - vm_compute. reflexivity.
  - eexists. split; [vm_compute; reflexivity|]. split; vm_compute; reflexivity.
  - eexists. split; [vm_compute; reflexivity|]. vm_compute. reflexivity.
Qed.

(** C9 fails as stated: the template with two parameters of one name is
    registered without an error, and so is the one with a colon without a
    name; the first value of the duplicate is lost when a request comes. *)
Lemma C9_counterexample :
  (exists app, get "/:id/:id" [] new_Halin = inr app
               /\ params <$> findRoute app "GET" "/a/b" = Some {[ "id" := Some "b" ]})
  /\ (exists app, get "/:" [] new_Halin = inr app).
Proof.
  split.
  - eexists. split; [vm_compute; reflexivity|]. vm_compute. reflexivity.
  - eexists. vm_compute. reflexivity.
Qed.

(** ** A template of segments and the path that fits it *)

Section Reading.

Variable input : list ascii.

Lemma read_cons p c r :
  drop p input = c :: r -> input !! p = Some c /\ drop (S p) input = r.
Proof.
  intros H. split.
  - rewrite <- (Nat.add_0_r p), <- lookup_drop, H. reflexivity.
  - replace (S p) with (p + 1) by lia. rewrite <- drop_drop, H. reflexivity.
Qed.

Lemma read_nil p : drop p input = [] -> input !! p = None.
Proof.
  intros H. rewrite <- (Nat.add_0_r p), <- lookup_drop, H. reflexivity.
Qed.

Lemma read_app p l r : drop p input = l ++ r -> drop (p + length l) input = r.
Proof. intros H. rewrite <- drop_drop, H. apply drop_app_length. Qed.

Lemma read_bound p c r : drop p input = c :: r -> p < length input.
Proof.
  intros H. destruct (Nat.lt_ge_cases p (length input)) as [Hlt|Hge]; [exact Hlt|].
  rewrite drop_ge in H by lia. discriminate.
Qed.

End Reading.

Section Searching.

Variable re : RegExp.t.
Variable input : list ascii.

Lemma exec_at_index start mt :
  RegExp.exec_at re input start = Some mt -> RegExp.index mt = start.
Proof.
  unfold RegExp.exec_at. destruct (RegExp.run _ _ _ _); [|discriminate].
  intros [= <-]. reflexivity.
Qed.

Lemma search_skip k : forall n start,
  (forall j, j < k -> RegExp.exec_at re input (start + j) = None) ->
  k <= n ->
  RegExp.search re input n start = RegExp.search re input (n - k) (start + k).
Proof.
  induction k as [|k IH]; intros n start Hnone Hle.
  - rewrite Nat.sub_0_r, Nat.add_0_r. reflexivity.
  - destruct n as [|n]; [lia|]. simpl RegExp.search at 1.
    rewrite <- (Nat.add_0_r start) at 1. rewrite Hnone by lia.
    rewrite IH; [|intros j Hj; replace (S start + j) with (start + S j) by lia;
                   apply Hnone; lia|lia].
    replace (S start + k) with (start + S k) by lia. reflexivity.
Qed.

Lemma exec_skip from from' :
  from <= from' <= length input ->
  (forall p, from <= p < from' -> RegExp.exec_at re input p = None) ->
  RegExp.exec re input from = RegExp.exec re input from'.
Proof.
  intros [H1 H2] Hnone. unfold RegExp.exec.
  destruct (Nat.ltb_spec (length input) from); [lia|].
  destruct (Nat.ltb_spec (length input) from'); [lia|].
  rewrite (search_skip (from' - from)).
  - f_equal; lia.
  - intros j Hj. apply Hnone. lia.
  - lia.
Qed.

Lemma exec_hit from mt :
  from <= length input ->
  RegExp.exec_at re input from = Some mt ->
  RegExp.exec re input from = Some mt.
Proof.
  intros H1 H2. unfold RegExp.exec.
  destruct (Nat.ltb_spec (length input) from); [lia|].
  destruct (length input - from); simpl; rewrite H2; reflexivity.
Qed.

Lemma exec_end from :
  length input <= from ->
  RegExp.exec_at re input (length input) = None ->
  RegExp.exec re input from = None.
Proof.
  intros H1 H2. unfold RegExp.exec.
  destruct (Nat.ltb_spec (length input) from); [reflexivity|].
  assert (from = length input) as -> by lia.
  rewrite Nat.sub_diag. simpl. rewrite H2. reflexivity.
Qed.

Lemma search_index n : forall start mt,
  RegExp.search re input n start = Some mt -> start <= RegExp.index mt.
Proof.
  induction n as [|n IH]; intros start mt; simpl;
    destruct (RegExp.exec_at re input start) as [mt'|] eqn:E.
  - intros [= <-]. rewrite (exec_at_index _ _ E). lia.
  - discriminate.
  - intros [= <-]. rewrite (exec_at_index _ _ E). lia.
  - intros H. apply IH in H. lia.
Qed.

Lemma exec_index from mt :
  RegExp.exec re input from = Some mt -> from <= RegExp.index mt.
Proof.
  unfold RegExp.exec. destruct (_ <? _)%nat; [discriminate|]. apply search_index.
Qed.

End Searching.

Lemma template_chars_boundary ps : boundary (template_chars ps).
Proof. destruct ps as [|[t|n v] ps]; simpl; auto. Qed.

Lemma path_chars_boundary ps : boundary (path_chars ps).
Proof. destruct ps as [|[t|n v] ps]; simpl; auto. Qed.

Section Greedy.

Variable input : list ascii.

Lemma run_non_slash_some y d (c : RegExp.Cont) :
  input !! RegExp.pos y = Some d -> not_slash d = true ->
  RegExp.run non_slash input (RegExp.clear [] y) c
  = c (RegExp.mkM (S (RegExp.pos y)) (RegExp.caps y)).
Proof.
  intros Hd Hn. simpl. rewrite Hd. unfold RegExp.in_class, not_slash in *. simpl.
  destruct (Ascii.eqb d "/"); [discriminate|reflexivity].
Qed.

Lemma run_non_slash_none y r (c : RegExp.Cont) :
  drop (RegExp.pos y) input = r -> boundary r ->
  RegExp.run non_slash input (RegExp.clear [] y) c = None.
Proof.
  intros Hd Hr. simpl. destruct r as [|d r]; simpl in Hr.
  - rewrite (read_nil _ _ Hd). reflexivity.
  - subst d. destruct (read_cons _ _ _ _ Hd) as [-> _]. reflexivity.
Qed.

Lemma repeat_greedy_S body n x k :
  RegExp.repeat_greedy body (S n) x k
  = match body x (fun y => if (RegExp.pos y =? RegExp.pos x)%nat then None
                           else RegExp.repeat_greedy body n y k) with
    | Some z => Some z
    | None => k x
    end.
Proof. reflexivity. Qed.

(** The loop of [[^/]+] takes the text up to the next slash, when the rest
    of the expression matches from there. *)
Lemma greedy_non_slash v : forall r n x k z,
  drop (RegExp.pos x) input = v ++ r ->
  forallb not_slash v = true ->
  boundary r ->
  length v <= n ->
  k (RegExp.mkM (RegExp.pos x + length v) (RegExp.caps x)) = Some z ->
  RegExp.repeat_greedy
    (fun y c => RegExp.run non_slash input (RegExp.clear [] y) c) n x k = Some z.
Proof.
  induction v as [|c v IH]; intros r n x k z Hd Hv Hr Hn Hk.
  - cbn [length] in Hk. rewrite Nat.add_0_r in Hk.
    assert (Hx : RegExp.mkM (RegExp.pos x) (RegExp.caps x) = x) by (destruct x; reflexivity).
    rewrite Hx in Hk.
    destruct n as [|n]; [exact Hk|].
    rewrite repeat_greedy_S, (run_non_slash_none x r) by assumption. exact Hk.
  - destruct n as [|n]; [simpl in Hn; lia|].
    cbn [forallb] in Hv. apply andb_prop in Hv. destruct Hv as [Hc Hv].
    cbn [app] in Hd. destruct (read_cons _ _ _ _ Hd) as [Hl Hd'].
    rewrite repeat_greedy_S, (run_non_slash_some x c) by assumption.
    cbn [RegExp.pos]. rewrite (proj2 (Nat.eqb_neq _ _)) by lia.
    rewrite (IH r n (RegExp.mkM (S (RegExp.pos x)) (RegExp.caps x)) k z); auto.
    + simpl in Hn. lia.
    + cbn [RegExp.pos RegExp.caps]. rewrite <- Hk. f_equal. f_equal. simpl. lia.
Qed.

End Greedy.

Lemma param_segment_ast :
  param_segment
  = RegExp.mk
      (RegExp.RSeq (RegExp.RChar "/")
         (RegExp.RSeq (RegExp.RChar ":") (RegExp.RGroup 1 (RegExp.RPlus non_slash)))) 1.
Proof. reflexivity. Qed.

Lemma param_name_ast :
  param_name = RegExp.mk (RegExp.RSeq (RegExp.RChar ":") (RegExp.RPlus non_slash)) 0.
Proof. reflexivity. Qed.

Lemma star_ast : star = RegExp.mk (RegExp.RChar "*") 0.
Proof. reflexivity. Qed.

Section Matching.

Variable input : list ascii.

Lemma run_char_hit c r x (k : RegExp.Cont) :
  drop (RegExp.pos x) input = c :: r ->
  RegExp.run (RegExp.RChar c) input x k = k (RegExp.mkM (S (RegExp.pos x)) (RegExp.caps x)).
Proof.
  intros H. destruct (read_cons _ _ _ _ H) as [Hl _]. simpl. rewrite Hl.
  rewrite Ascii.eqb_refl. reflexivity.
Qed.

Lemma run_seq r1 r2 x (k : RegExp.Cont) :
  RegExp.run (RegExp.RSeq r1 r2) input x k
  = RegExp.run r1 input x (fun y => RegExp.run r2 input y k).
Proof. reflexivity. Qed.

Lemma run_group idx r x (k : RegExp.Cont) :
  RegExp.run (RegExp.RGroup idx r) input x k
  = RegExp.run r input x
      (fun y => k (RegExp.mkM (RegExp.pos y)
                     (<[Nat.pred idx := Some (RegExp.pos x, RegExp.pos y)]> (RegExp.caps y)))).
Proof. reflexivity. Qed.

Lemma run_char_miss c x (k : RegExp.Cont) :
  input !! RegExp.pos x <> Some c ->
  RegExp.run (RegExp.RChar c) input x k = None.
Proof.
  intros H. simpl. destruct (input !! RegExp.pos x) as [d|]; [|reflexivity].
  destruct (Ascii.eqb_spec d c); [congruence|reflexivity].
Qed.

(** [[^/]+] on a text without slash that a slash or the end follows. *)
Lemma run_plus_non_slash v r x (k : RegExp.Cont) z :
  drop (RegExp.pos x) input = v ++ r ->
  v <> [] ->
  forallb not_slash v = true ->
  boundary r ->
  k (RegExp.mkM (RegExp.pos x + length v) (RegExp.caps x)) = Some z ->
  RegExp.run (RegExp.RPlus non_slash) input x k = Some z.
Proof.
  intros Hd Hne Hv Hr Hk. destruct v as [|c v]; [congruence|].
  cbn [forallb] in Hv. apply andb_prop in Hv. destruct Hv as [Hc Hv].
  cbn [app] in Hd. destruct (read_cons _ _ _ _ Hd) as [Hl Hd'].
  cbn [RegExp.run]. change (RegExp.RClass true [RegExp.CChar "/"]) with non_slash.
  change (RegExp.groups_in non_slash) with (@nil nat).
  rewrite (run_non_slash_some input x c) by assumption.
  apply (greedy_non_slash input v r); auto.
  - cbn [RegExp.pos]. pose proof (f_equal length Hd') as Hlen.
    rewrite length_drop, length_app in Hlen. lia.
  - cbn [RegExp.pos RegExp.caps]. rewrite <- Hk. f_equal. f_equal. simpl. lia.
Qed.

Lemma slice_read p v r :
  drop p input = v ++ r ->
  RegExp.slice input p (p + length v) = string_of_list_ascii v.
Proof.
  intros H. unfold RegExp.slice. rewrite H.
  replace (p + length v - p) with (length v) by lia.
  rewrite take_app_length. reflexivity.
Qed.

(** Where [/\/:([^/]+)/] matches and where it does not. *)
Lemma param_segment_hit p n r :
  drop p input = "/"%char :: ":"%char :: n ++ r ->
  n <> [] -> forallb not_slash n = true -> boundary r ->
  exists mt,
    RegExp.exec_at param_segment input p = Some mt
    /\ RegExp.index mt = p
    /\ RegExp.end_index mt = p + 2 + length n.
Proof.
  intros Hd Hne Hn Hr. unfold RegExp.exec_at. rewrite param_segment_ast.
  cbn [RegExp.ast RegExp.ngroups replicate].
  destruct (read_cons _ _ _ _ Hd) as [_ Hd1].
  destruct (read_cons _ _ _ _ Hd1) as [_ Hd2].
  rewrite run_seq, (run_char_hit "/" _ (RegExp.mkM p [None])) by exact Hd.
  cbn [RegExp.pos RegExp.caps].
  rewrite run_seq, (run_char_hit ":" _ (RegExp.mkM (S p) [None])) by exact Hd1.
  cbn [RegExp.pos RegExp.caps]. rewrite run_group.
  erewrite (run_plus_non_slash n r (RegExp.mkM (S (S p)) [None])); eauto.
  cbn [RegExp.pos RegExp.caps]. eexists. split; [reflexivity|].
  cbn [RegExp.index RegExp.end_index RegExp.pos]. split; [reflexivity|lia].
Qed.

Lemma param_segment_miss p :
  (input !! p <> Some "/"%char \/ input !! S p <> Some ":"%char) ->
  RegExp.exec_at param_segment input p = None.
Proof.
  intros H. unfold RegExp.exec_at. rewrite param_segment_ast.
  cbn [RegExp.ast RegExp.ngroups replicate].
  cbn [RegExp.run RegExp.pos RegExp.caps].
  destruct (input !! p) as [d|] eqn:E; [|reflexivity].
  destruct (Ascii.eqb_spec d "/") as [->|]; [|reflexivity].
  destruct H as [H|H]; [congruence|].
  destruct (input !! S p) as [d'|]; [|reflexivity].
  destruct (Ascii.eqb_spec d' ":") as [->|]; [congruence|reflexivity].
Qed.

(** Where [/:[^/]+/] matches and where it does not. *)
Lemma param_name_hit p n r :
  drop p input = ":"%char :: n ++ r ->
  n <> [] -> forallb not_slash n = true -> boundary r ->
  exists mt,
    RegExp.exec_at param_name input p = Some mt
    /\ RegExp.index mt = p
    /\ RegExp.end_index mt = p + 1 + length n
    /\ RegExp.matched mt = string_of_list_ascii (":"%char :: n).
Proof.
  intros Hd Hne Hn Hr. unfold RegExp.exec_at. rewrite param_name_ast.
  cbn [RegExp.ast RegExp.ngroups replicate].
  destruct (read_cons _ _ _ _ Hd) as [_ Hd1].
  rewrite run_seq, (run_char_hit ":" _ (RegExp.mkM p [])) by exact Hd.
  cbn [RegExp.pos RegExp.caps].
  erewrite (run_plus_non_slash n r (RegExp.mkM (S p) [])); eauto.
  cbn [RegExp.pos RegExp.caps]. eexists. split; [reflexivity|].
  cbn [RegExp.index RegExp.end_index RegExp.matched RegExp.pos].
  split; [reflexivity|]. split; [lia|].
  replace (S p + length n) with (p + length (":"%char :: n)) by (simpl; lia).
  apply slice_read with (r := r). exact Hd.
Qed.

Lemma param_name_miss p :
  input !! p <> Some ":"%char ->
  RegExp.exec_at param_name input p = None.
Proof.
  intros H. unfold RegExp.exec_at. rewrite param_name_ast.
  cbn [RegExp.ast RegExp.ngroups replicate].
  rewrite run_seq, run_char_miss by exact H. reflexivity.
Qed.

Lemma star_miss p :
  input !! p <> Some "*"%char -> RegExp.exec_at star input p = None.
Proof.
  intros H. unfold RegExp.exec_at. rewrite star_ast.
  cbn [RegExp.ast RegExp.ngroups replicate].
  rewrite run_char_miss by exact H. reflexivity.
Qed.

End Matching.

Lemma ordinary_not c d : ordinary c = true -> In d reserved -> c <> d.
Proof.
  unfold ordinary. intros H Hd ->. apply negb_true_iff in H.
  assert (existsb (Ascii.eqb d) reserved = true); [|congruence].
  apply existsb_exists. exists d. split; [exact Hd|apply Ascii.eqb_refl].
Qed.

Lemma named_parts name value :
  well_formed (Named name value) = true ->
  list_ascii_of_string name <> []
  /\ forallb not_slash (list_ascii_of_string name) = true
  /\ list_ascii_of_string value <> []
  /\ forallb not_slash (list_ascii_of_string value) = true.
Proof.
  simpl. intros H. repeat (apply andb_prop in H; destruct H as [H ?]).
  repeat split; auto.
  - destruct name; [discriminate|simpl; discriminate].
  - destruct value; [discriminate|simpl; discriminate].
Qed.

Lemma scan_same re input fuel a b :
  RegExp.exec re input a = RegExp.exec re input b ->
  RegExp.scan re input fuel a = RegExp.scan re input fuel b.
Proof. intros H. destruct fuel; simpl; [reflexivity|]. rewrite H. reflexivity. Qed.

Lemma scan_head_index re input fuel from mt rest :
  RegExp.scan re input fuel from = mt :: rest -> from <= RegExp.index mt.
Proof.
  destruct fuel; simpl; [discriminate|].
  destruct (RegExp.exec re input from) as [mt'|] eqn:E; [|discriminate].
  intros [= <- _]. apply (exec_index _ _ _ _ E).
Qed.

Lemma substitute_shift input ms from from' replacement :
  from <= from' <= length input ->
  match ms with [] => True | mt :: _ => from' <= RegExp.index mt end ->
  RegExp.substitute input ms from replacement
  = take (from' - from) (drop from input)
    ++ RegExp.substitute input ms from' replacement.
Proof.
  intros Hle Hms. destruct ms as [|mt rest]; simpl.
  - rewrite <- (take_drop (from' - from) (drop from input)) at 1.
    rewrite drop_drop. do 2 f_equal. lia.
  - assert (E : take (RegExp.index mt - from) (drop from input)
                = take (from' - from) (drop from input)
                  ++ take (RegExp.index mt - from') (drop from' input)).
    { replace (RegExp.index mt - from)
        with ((from' - from) + (RegExp.index mt - from')) by lia.
      rewrite <- (take_drop (from' - from) (drop from input)) at 1.
      rewrite take_app_add' by (rewrite length_take, length_drop; lia).
      rewrite drop_drop. do 3 f_equal. lia. }
    rewrite E, <- app_assoc. reflexivity.
Qed.

Section Scanning.

Variable input : list ascii.

Lemma drop_length_le p (l : list ascii) : drop p input = l -> p + length l <= length input \/ l = [].
Proof.
  intros H. pose proof (f_equal length H) as Hl. rewrite length_drop in Hl.
  destruct l; [right; reflexivity|left; simpl in *; lia].
Qed.

Lemma drop_nil_ge p : drop p input = [] -> length input <= p.
Proof. intros H. pose proof (f_equal length H) as Hl. rewrite length_drop in Hl. simpl in Hl. lia. Qed.

Lemma lookup_after p l j : drop p input = l -> input !! (p + j) = l !! j.
Proof. intros <-. rewrite lookup_drop. reflexivity. Qed.

(** What [replace] makes of a template: every parameter becomes a group. *)
Lemma scan_param_segment ps : forall from fuel,
  drop from input = template_chars ps ->
  forallb well_formed ps = true ->
  count_named ps < fuel ->
  RegExp.substitute input (RegExp.scan param_segment input fuel from) from capture_chars
  = pattern_chars ps.
Proof.
  induction ps as [|[text|name value] ps IH]; intros from fuel Hd Hwf Hfuel.
  - assert (E : RegExp.exec param_segment input from = None).
    { apply exec_end; [apply drop_nil_ge, Hd|].
      apply param_segment_miss. left. rewrite lookup_ge_None_2 by lia. discriminate. }
    destruct fuel; simpl; [|rewrite E; simpl]; exact Hd.
  - cbn [forallb well_formed] in Hwf. apply andb_prop in Hwf. destruct Hwf as [Ht Hwf].
    cbn [template_chars] in Hd.
    set (t := list_ascii_of_string text) in *.
    remember (from + S (length t)) as from' eqn:Hf.
    assert (Hd' : drop from' input = template_chars ps)
      by (subst from'; apply (read_app input from ("/"%char :: t)); exact Hd).
    assert (Hlen : from' <= length input).
    { destruct (drop_length_le from _ Hd) as [H|H]; [|discriminate].
      simpl in H. rewrite length_app in H. lia. }
    assert (Hskip : RegExp.exec param_segment input from
                    = RegExp.exec param_segment input from').
    { apply exec_skip; [lia|].
      intros p [H1 H2]. apply param_segment_miss.
      replace p with (from + (p - from)) by lia.
      replace (S (from + (p - from))) with (from + S (p - from)) by lia.
      rewrite !(lookup_after from _ _ Hd).
      destruct (p - from) as [|j] eqn:Ej.
      - right. simpl. destruct t as [|c t'] eqn:Et; simpl.
        + pose proof (template_chars_boundary ps) as Hb.
          destruct (template_chars ps) as [|c r]; simpl in *; [discriminate|].
          subst c. discriminate.
        + simpl in Ht. apply andb_prop in Ht. destruct Ht as [Hc _].
          intros [= ->]. revert Hc. vm_compute. discriminate.
      - left. simpl. rewrite lookup_app_l by lia.
        destruct (t !! j) as [c|] eqn:Ec; [|discriminate].
        pose proof (lookup_forallb _ _ _ _ Ht Ec) as Hc.
        intros [= ->]. revert Hc. vm_compute. discriminate. }
    rewrite (scan_same _ _ _ _ _ Hskip).
    rewrite (substitute_shift input _ from from').
    + rewrite IH by assumption.
      replace (from' - from) with (length ("/"%char :: t)) by (simpl; lia).
      rewrite Hd. cbn [pattern_chars]. fold t.
      change ("/"%char :: t ++ template_chars ps)
        with (("/"%char :: t) ++ template_chars ps).
      rewrite take_app_length. reflexivity.
    + lia.
    + destruct (RegExp.scan param_segment input fuel from') as [|mt rest] eqn:Es;
        [exact I|]. apply (scan_head_index _ _ _ _ _ _ Es).
  - cbn [forallb] in Hwf. apply andb_prop in Hwf. destruct Hwf as [Hn Hwf].
    destruct (named_parts _ _ Hn) as (Hne & Hns & _ & _).
    cbn [template_chars] in Hd.
    set (n := list_ascii_of_string name) in *.
    destruct (param_segment_hit input from n (template_chars ps) Hd Hne Hns
                (template_chars_boundary ps)) as (mt & Hmt & Hi & He).
    assert (Hlen : from <= length input).
    { destruct (drop_length_le from _ Hd) as [H|H]; [lia|discriminate]. }
    destruct fuel as [|fuel]; [simpl in Hfuel; lia|].
    cbn [RegExp.scan]. rewrite (exec_hit _ _ _ _ Hlen Hmt).
    cbn [RegExp.substitute]. rewrite Hi, He, Nat.sub_diag, take_0.
    rewrite (proj2 (Nat.eqb_neq _ _)) by lia.
    cbn [pattern_chars]. rewrite app_nil_l. f_equal.
    apply IH; [|exact Hwf|simpl in Hfuel; lia].
    replace (from + 2 + length n) with (from + length ("/"%char :: ":"%char :: n))
      by (simpl; lia).
    apply (read_app input from ("/"%char :: ":"%char :: n)). exact Hd.
Qed.

(** The parameter names that [extractParams] finds in a template. *)
Lemma scan_param_name ps : forall from fuel,
  drop from input = template_chars ps ->
  forallb well_formed ps = true ->
  count_named ps < fuel ->
  map RegExp.matched (RegExp.scan param_name input fuel from)
  = map (String ":") (names_of ps).
Proof.
  induction ps as [|[text|name value] ps IH]; intros from fuel Hd Hwf Hfuel.
  - assert (E : RegExp.exec param_name input from = None).
    { apply exec_end; [apply drop_nil_ge, Hd|].
      apply param_name_miss. rewrite lookup_ge_None_2 by lia. discriminate. }
    destruct fuel; simpl; [|rewrite E]; reflexivity.
  - cbn [forallb well_formed] in Hwf. apply andb_prop in Hwf. destruct Hwf as [Ht Hwf].
    cbn [template_chars] in Hd.
    set (t := list_ascii_of_string text) in *.
    remember (from + S (length t)) as from' eqn:Hf.
    assert (Hd' : drop from' input = template_chars ps)
      by (subst from'; apply (read_app input from ("/"%char :: t)); exact Hd).
    assert (Hlen : from' <= length input).
    { destruct (drop_length_le from _ Hd) as [H|H]; [|discriminate].
      simpl in H. rewrite length_app in H. lia. }
    assert (Hskip : RegExp.exec param_name input from = RegExp.exec param_name input from').
    { apply exec_skip; [lia|].
      intros p [H1 H2]. apply param_name_miss.
      replace p with (from + (p - from)) by lia.
      rewrite (lookup_after from _ _ Hd).
      destruct (p - from) as [|j] eqn:Ej; [discriminate|].
      simpl. rewrite lookup_app_l by lia.
      destruct (t !! j) as [c|] eqn:Ec; [|discriminate].
      pose proof (lookup_forallb _ _ _ _ Ht Ec) as Hc.
      intros [= ->]. revert Hc. vm_compute. discriminate. }
    rewrite (scan_same _ _ _ _ _ Hskip). cbn [names_of]. apply IH; assumption.
  - cbn [forallb] in Hwf. apply andb_prop in Hwf. destruct Hwf as [Hn Hwf].
    destruct (named_parts _ _ Hn) as (Hne & Hns & _ & _).
    cbn [template_chars] in Hd.
    set (n := list_ascii_of_string name) in *.
    destruct (read_cons _ _ _ _ Hd) as [Hslash Hd1].
    destruct (param_name_hit input (S from) n (template_chars ps) Hd1 Hne Hns
                (template_chars_boundary ps)) as (mt & Hmt & Hi & He & Hm).
    assert (Hlen : S from <= length input).
    { destruct (drop_length_le from _ Hd) as [H|H]; [simpl in H; lia|discriminate]. }
    assert (Hskip : RegExp.exec param_name input from = RegExp.exec param_name input (S from)).
    { apply exec_skip; [lia|]. intros p Hp. assert (p = from) as -> by lia.
      apply param_name_miss. rewrite Hslash. discriminate. }
    destruct fuel as [|fuel]; [simpl in Hfuel; lia|].
    cbn [RegExp.scan]. rewrite Hskip, (exec_hit _ _ _ _ Hlen Hmt).
    cbn [map names_of]. rewrite Hm, Hi, He.
    rewrite (proj2 (Nat.eqb_neq _ _)) by lia. f_equal.
    + simpl. unfold n. rewrite string_of_list_ascii_of_string. reflexivity.
    + apply IH; [|exact Hwf|simpl in Hfuel; lia].
      replace (S from + 1 + length n) with (from + length ("/"%char :: ":"%char :: n))
        by (simpl; lia).
      apply (read_app input from ("/"%char :: ":"%char :: n)). exact Hd.
Qed.

End Scanning.

Lemma count_named_length ps : count_named ps <= length (template_chars ps).
Proof.
  induction ps as [|[t|n v] ps IH]; simpl; [lia| |];
    rewrite length_app; lia.
Qed.

Lemma pattern_chars_no_star ps :
  forallb well_formed ps = true ->
  forallb (fun c => negb (Ascii.eqb c "*")) (pattern_chars ps) = true.
Proof.
  induction ps as [|[t|n v] ps IH]; intros Hwf; [reflexivity| |];
    cbn [forallb] in Hwf; apply andb_prop in Hwf; destruct Hwf as [Hp Hwf].
  - cbn [pattern_chars]. cbn [forallb]. rewrite forallb_app, (IH Hwf), andb_true_r.
    simpl. simpl in Hp. apply forallb_forall. intros c Hc.
    rewrite forallb_forall in Hp. specialize (Hp c Hc).
    apply negb_true_iff. apply Ascii.eqb_neq.
    apply (ordinary_not c "*" Hp). vm_compute. tauto.
  - cbn [pattern_chars]. rewrite forallb_app, (IH Hwf). reflexivity.
Qed.

Lemma string_of_list_ascii_app l1 l2 :
  string_of_list_ascii (l1 ++ l2) = string_of_list_ascii l1 +:+ string_of_list_ascii l2.
Proof. induction l1 as [|c l1 IH]; simpl; [reflexivity|]. rewrite IH. reflexivity. Qed.

(** The source that [pathToPattern] builds for a template of segments. *)
Lemma pattern_source_pieces ps :
  forallb well_formed ps = true ->
  pattern_source (template_of ps)
  = string_of_list_ascii ("^"%char :: pattern_chars ps ++ ["$"%char]).
Proof.
  intros Hwf. unfold pattern_source, template_of.
  assert (E1 : RegExp.replace_all (string_of_list_ascii (template_chars ps))
                 param_segment "/([^/]+)"
               = string_of_list_ascii (pattern_chars ps)).
  { unfold RegExp.replace_all, RegExp.matches.
    rewrite list_ascii_of_string_of_list_ascii. f_equal.
    apply (scan_param_segment (template_chars ps) ps 0); auto.
    pose proof (count_named_length ps). lia. }
  rewrite E1.
  rewrite replace_all_none.
  - change ("^"%char :: pattern_chars ps ++ ["$"%char])
      with (["^"%char] ++ pattern_chars ps ++ ["$"%char]).
    rewrite !string_of_list_ascii_app. reflexivity.
  - intros start. rewrite list_ascii_of_string_of_list_ascii.
    apply star_miss. destruct (pattern_chars ps !! start) as [c|] eqn:E; [|discriminate].
    pose proof (lookup_forallb _ _ _ _ (pattern_chars_no_star ps Hwf) E) as Hc.
    intros [= ->]. discriminate.
Qed.

Lemma paramNames_pieces ps :
  forallb well_formed ps = true ->
  paramNames (template_of ps) = map (String ":") (names_of ps).
Proof.
  intros Hwf. unfold paramNames, RegExp.match_all, RegExp.matches, template_of.
  rewrite list_ascii_of_string_of_list_ascii.
  pose proof (scan_param_name (template_chars ps) ps 0 (S (length (template_chars ps)))
                eq_refl Hwf) as H.
  destruct (RegExp.scan param_name (template_chars ps) (S (length (template_chars ps))) 0)
    as [|mt rest].
  - rewrite <- H; [reflexivity|]. pose proof (count_named_length ps). lia.
  - rewrite <- H; [reflexivity|]. pose proof (count_named_length ps). lia.
Qed.

(** *** The pattern of a template of segments *)

Lemma lex_ordinary c :
  ordinary c = true -> RegExp.lex_step RegExp.LNormal c = inr ([RegExp.TChar c], RegExp.LNormal).
Proof.
  intros H. unfold RegExp.lex_step, RegExp.lex_normal.
  assert (N : forall d, In d reserved -> Ascii.eqb c d = false)
    by (intros d Hd; apply Ascii.eqb_neq, (ordinary_not c d H Hd)).
  rewrite !N by (vm_compute; tauto). reflexivity.
Qed.

Lemma lex_cons c rest ts :
  RegExp.lex_step RegExp.LNormal c = inr ([RegExp.TChar c], RegExp.LNormal) ->
  RegExp.lex RegExp.LNormal rest = inr ts ->
  RegExp.lex RegExp.LNormal (c :: rest) = inr (RegExp.TChar c :: ts).
Proof. intros H1 H2. cbn [RegExp.lex]. rewrite H1, H2. reflexivity. Qed.

Lemma lex_text t : forall rest ts,
  forallb ordinary t = true ->
  RegExp.lex RegExp.LNormal rest = inr ts ->
  RegExp.lex RegExp.LNormal (t ++ rest) = inr (map RegExp.TChar t ++ ts).
Proof.
  induction t as [|c t IH]; intros rest ts Ht Hr; [exact Hr|].
  cbn [forallb] in Ht. apply andb_prop in Ht. destruct Ht as [Hc Ht].
  cbn [app map]. apply lex_cons; [apply lex_ordinary, Hc|]. apply IH; assumption.
Qed.

Lemma lex_pieces ps : forall rest ts,
  forallb well_formed ps = true ->
  RegExp.lex RegExp.LNormal rest = inr ts ->
  RegExp.lex RegExp.LNormal (pattern_chars ps ++ rest) = inr (tokens_of ps ++ ts).
Proof.
  induction ps as [|[text|name value] ps IH]; intros rest ts Hwf Hr; [exact Hr| |];
    cbn [forallb] in Hwf; apply andb_prop in Hwf; destruct Hwf as [Hp Hwf].
  - cbn [pattern_chars tokens_of]. rewrite <- !app_comm_cons, <- !app_assoc.
    apply lex_cons; [reflexivity|]. apply lex_text; [exact Hp|]. apply IH; assumption.
  - cbn [pattern_chars tokens_of]. rewrite <- !app_assoc.
    specialize (IH rest ts Hwf Hr). unfold capture_chars, group_tokens.
    simpl. rewrite IH. reflexivity.
Qed.

Lemma parse_text t : forall rest cur stack n,
  exists l,
    RegExp.parse (map RegExp.TChar t ++ rest) cur stack n
    = RegExp.parse rest
        (RegExp.mkFrame (RegExp.alts cur) (rev (map RegExp.RChar t) ++ RegExp.terms cur) l)
        stack n.
Proof.
  induction t as [|c t IH]; intros rest cur stack n.
  - exists (RegExp.last cur). destruct cur; reflexivity.
  - cbn [map app RegExp.parse].
    destruct (IH rest (RegExp.push_term cur (RegExp.RChar c) RegExp.Atom) stack n) as [l ->].
    exists l. cbn [rev RegExp.push_term RegExp.alts RegExp.terms].
    rewrite <- app_assoc. reflexivity.
Qed.

Lemma parse_pieces ps : forall rest cur n,
  exists l,
    RegExp.parse (tokens_of ps ++ rest) cur [] n
    = RegExp.parse rest
        (RegExp.mkFrame (RegExp.alts cur) (rev (terms_of ps n) ++ RegExp.terms cur) l)
        [] (n + count_named ps).
Proof.
  induction ps as [|[text|name value] ps IH]; intros rest cur n.
  - exists (RegExp.last cur). rewrite Nat.add_0_r. destruct cur; reflexivity.
  - cbn [tokens_of terms_of count_named]. rewrite <- !app_comm_cons, <- !app_assoc.
    cbn [RegExp.parse].
    destruct (parse_text (list_ascii_of_string text) (tokens_of ps ++ rest)
                (RegExp.push_term cur (RegExp.RChar "/") RegExp.Atom) [] n) as [l1 ->].
    match goal with
    | |- exists l, RegExp.parse _ ?f _ _ = _ => destruct (IH rest f n) as [l2 ->]
    end.
    exists l2. cbn [RegExp.alts RegExp.terms RegExp.push_term rev].
    rewrite rev_app_distr, <- !app_assoc. reflexivity.
  - cbn [tokens_of terms_of count_named]. unfold group_tokens.
    rewrite <- !app_comm_cons. cbn [app RegExp.parse].
    cbn [RegExp.quantify RegExp.push_term RegExp.empty_frame RegExp.last RegExp.terms
         RegExp.alts RegExp.close_frame RegExp.seq_of fold_left].
    match goal with
    | |- exists l, RegExp.parse _ ?f _ ?m = _ => destruct (IH rest f m) as [l ->]
    end.
    exists l. cbn [RegExp.alts RegExp.terms rev].
    rewrite <- !app_assoc. cbn [app]. f_equal. lia.
Qed.

(** The pattern that the template compiles to. *)
Lemma compile_pieces ps :
  forallb well_formed ps = true ->
  RegExp.compile (string_of_list_ascii ("^"%char :: pattern_chars ps ++ ["$"%char]))
  = inr (RegExp.mk (pattern_ast ps) (count_named ps)).
Proof.
  intros Hwf. unfold RegExp.compile. rewrite list_ascii_of_string_of_list_ascii.
  assert (L : RegExp.lex RegExp.LNormal ("^"%char :: pattern_chars ps ++ ["$"%char])
              = inr (RegExp.TBol :: tokens_of ps ++ [RegExp.TEol])).
  { simpl RegExp.lex at 1. rewrite (lex_pieces ps ["$"%char] [RegExp.TEol] Hwf eq_refl).
    reflexivity. }
  rewrite L. cbn [RegExp.parse].
  destruct (parse_pieces ps [RegExp.TEol]
              (RegExp.push_term RegExp.empty_frame RegExp.RBol RegExp.Assertion) 0)
    as [l ->].
  cbn [RegExp.parse RegExp.push_term RegExp.alts RegExp.terms RegExp.empty_frame
       RegExp.close_frame fold_left RegExp.seq_of].
  do 2 f_equal. unfold pattern_ast.
  rewrite <- (rev_involutive (RegExp.RBol :: terms_of ps 0)), fold_left_rev_right.
  reflexivity.
Qed.

(** *** The pattern of a template on a path that fits it *)

Lemma map_insert_middle {A B : Type} (f : A -> B) (done : list B) :
  forall l rest i x y,
    map f l = done ++ y :: rest -> i = length done ->
    map f (<[i := x]> l) = done ++ f x :: rest.
Proof.
  induction done as [|d done IH]; intros l rest i x y Hl ->; destruct l as [|a l];
    try discriminate; cbn [app length] in *; injection Hl as Ha Hl.
  - simpl. rewrite Hl. reflexivity.
  - simpl. rewrite Ha. f_equal. apply (IH l rest _ x y Hl eq_refl).
Qed.

Section Running.

Variable input : list ascii.

Lemma run_text t : forall r x R (k : RegExp.Cont),
  drop (RegExp.pos x) input = t ++ r ->
  RegExp.run (fold_right RegExp.RSeq R (map RegExp.RChar t)) input x k
  = RegExp.run R input (RegExp.mkM (RegExp.pos x + length t) (RegExp.caps x)) k.
Proof.
  induction t as [|c t IH]; intros r x R k Hd.
  - cbn [map fold_right length]. rewrite Nat.add_0_r. destruct x; reflexivity.
  - cbn [map fold_right length]. cbn [app] in Hd.
    destruct (read_cons _ _ _ _ Hd) as [_ Hd'].
    rewrite run_seq, (run_char_hit input c (t ++ r)) by exact Hd.
    rewrite (IH r) by exact Hd'. cbn [RegExp.pos RegExp.caps].
    do 2 f_equal. lia.
Qed.

Lemma run_pieces ps : forall x done,
  drop (RegExp.pos x) input = path_chars ps ->
  RegExp.pos x <= length input ->
  forallb well_formed ps = true ->
  map (fun c => match c with
                | Some (s, e) => Some (RegExp.slice input s e)
                | None => None
                end) (RegExp.caps x)
  = map Some done ++ replicate (count_named ps) None ->
  exists z,
    RegExp.run (fold_right RegExp.RSeq RegExp.REol (terms_of ps (length done))) input x Some
    = Some z
    /\ RegExp.pos z = length input
    /\ map (fun c => match c with
                     | Some (s, e) => Some (RegExp.slice input s e)
                     | None => None
                     end) (RegExp.caps z)
       = map Some (done ++ values_of ps).
Proof.
  induction ps as [|[text|name value] ps IH]; intros x done Hd Hle Hwf Hc.
  - cbn [terms_of fold_right path_chars values_of count_named replicate] in *.
    apply drop_nil_ge in Hd. exists x. cbn [RegExp.run].
    replace (RegExp.pos x =? length input)%nat with true
      by (symmetry; apply Nat.eqb_eq; lia).
    rewrite !app_nil_r in *. repeat split; [lia|exact Hc].
  - cbn [forallb] in Hwf. apply andb_prop in Hwf. destruct Hwf as [_ Hwf].
    cbn [terms_of path_chars values_of count_named] in *.
    change (RegExp.RChar "/" :: map RegExp.RChar (list_ascii_of_string text)
              ++ terms_of ps (length done))
      with (map RegExp.RChar ("/"%char :: list_ascii_of_string text)
              ++ terms_of ps (length done)).
    rewrite fold_right_app.
    rewrite (run_text ("/"%char :: list_ascii_of_string text) (path_chars ps)) by exact Hd.
    apply IH; cbn [RegExp.pos RegExp.caps]; auto.
    + apply (read_app input _ ("/"%char :: list_ascii_of_string text)). exact Hd.
    + pose proof (f_equal length Hd) as Hl. rewrite length_drop in Hl.
      change ("/"%char :: list_ascii_of_string text ++ path_chars ps)
        with (("/"%char :: list_ascii_of_string text) ++ path_chars ps) in Hl.
      rewrite length_app in Hl. lia.
  - cbn [forallb] in Hwf. apply andb_prop in Hwf. destruct Hwf as [Hp Hwf].
    destruct (named_parts _ _ Hp) as (_ & _ & Hne & Hv).
    cbn [terms_of path_chars values_of count_named replicate] in *.
    destruct (read_cons _ _ _ _ Hd) as [_ Hd1].
    pose proof (f_equal length Hd1) as Hl. rewrite length_drop, length_app in Hl.
    assert (Hpos0 : 0 < length (list_ascii_of_string value))
      by (destruct (list_ascii_of_string value); [congruence|simpl; lia]).
    destruct (IH (RegExp.mkM (S (RegExp.pos x) + length (list_ascii_of_string value))
                    (<[length done := Some (S (RegExp.pos x),
                                            S (RegExp.pos x)
                                            + length (list_ascii_of_string value))]>
                       (RegExp.caps x)))
                (done ++ [value])) as (z & Hz & Hpos & Hcaps).
    + cbn [RegExp.pos]. apply (read_app input _ _ _ Hd1).
    + cbn [RegExp.pos]. lia.
    + exact Hwf.
    + cbn [RegExp.caps]. rewrite map_app, <- app_assoc. cbn [map app].
      erewrite map_insert_middle; [|exact Hc|rewrite length_map; reflexivity].
      rewrite (slice_read input _ _ _ Hd1), string_of_list_ascii_of_string.
      reflexivity.
    + rewrite length_app in Hz. cbn [length] in Hz. rewrite Nat.add_1_r in Hz.
      exists z. rewrite <- app_assoc in Hcaps. split; [|split; assumption].
      cbn [fold_right].
      rewrite run_seq, (run_char_hit input "/" _ x) by exact Hd.
      rewrite run_seq, run_group.
      apply (run_plus_non_slash input (list_ascii_of_string value) (path_chars ps));
        auto using path_chars_boundary.
Qed.

End Running.

(** The pattern of a template matches the path that fits it, and its groups
    hold the values in the order of the template. *)
Lemma match_pieces ps :
  forallb well_formed ps = true ->
  RegExp.match_first (path_of ps) (RegExp.mk (pattern_ast ps) (count_named ps))
  = Some (Some (path_of ps) :: map Some (values_of ps)).
Proof.
  intros Hwf. unfold RegExp.match_first, path_of.
  rewrite list_ascii_of_string_of_list_ascii.
  destruct (run_pieces (path_chars ps) ps
              (RegExp.mkM 0 (replicate (count_named ps) None)) [])
    as (z & Hz & Hpos & Hcaps); cbn [RegExp.pos RegExp.caps]; auto.
  - lia.
  - cbn [map app]. induction (count_named ps) as [|n IH]; simpl; [reflexivity|].
    f_equal. exact IH.
  - cbn [length app] in Hz, Hcaps.
    rewrite (exec_hit _ _ 0
               (RegExp.mkMatch 0 (length (path_chars ps))
                  (string_of_list_ascii (path_chars ps)) (map Some (values_of ps))));
      [reflexivity|lia|].
    unfold RegExp.exec_at, pattern_ast. cbn [RegExp.ast RegExp.ngroups fold_right].
    change (RegExp.run (RegExp.RSeq RegExp.RBol ?R) ?i (RegExp.mkM 0 ?c) Some)
      with (RegExp.run R i (RegExp.mkM 0 c) Some).
    rewrite Hz, Hcaps, Hpos.
    pose proof (slice_read (path_chars ps) 0 (path_chars ps) []
                  (eq_sym (app_nil_r _))) as Hs.
    cbn [Nat.add] in Hs. rewrite Hs. reflexivity.
Qed.

(** A template of segments and the path that fits it: the pattern is
    accepted, it matches the path, and every name is bound to the value at
    its position. *)
Lemma extractParams_pieces ps method handlers :
  forallb well_formed ps = true ->
  exists re,
    pathToPattern (template_of ps) = inr re
    /\ extractParams (mkRoute method (template_of ps) re handlers) (path_of ps)
       = Some (bind_params (map (String ":") (names_of ps)) 0
                 (Some (path_of ps) :: map Some (values_of ps)) ∅).
Proof.
  intros Hwf. exists (RegExp.mk (pattern_ast ps) (count_named ps)). split.
  - unfold pathToPattern. rewrite pattern_source_pieces by exact Hwf.
    apply compile_pieces, Hwf.
  - unfold extractParams. cbn [route_pattern route_path].
    rewrite match_pieces, paramNames_pieces by exact Hwf. reflexivity.
Qed.

(** C3.  [findRoute] returns the first route, in registration order, whose
    method is the method of the request and whose pattern matches the path,
    and no route when there is none.  The parameters are bound by going
    through the names of the template in the order they are declared: the
    name at position [i] receives entry [i + 1] of the match, the text of
    group [i + 1], unless the same name is declared again later.  With
    ["/users/:id"] registered, the path ["/users/123"] yields the parameters
    [{ id: "123" }].  For every template made of plain segments and named
    parameters, registration succeeds, the path that puts a value in the
    place of each parameter resolves to the route, and every name is bound
    to the value at its position, unless the name is declared again later. *)
Theorem C3_first_match_in_registration_order :
  (forall app method path,
     match findRoute app method path with
     | Some m =>
         exists found,
           first_match (routes app) method path (route m) found
           /\ params m = bind_params (paramNames (route_path (route m))) 0 found ∅
           /\ forall i name,
                paramNames (route_path (route m)) !! i = Some name ->
                slice1 name <> "__proto__" ->
                (forall j name', i < j ->
                   paramNames (route_path (route m)) !! j = Some name' ->
                   slice1 name' <> slice1 name) ->
                params m !! slice1 name = Some (mjoin (found !! S i))
     | None =>
         forall r, In r (routes app) -> route_method r = method ->
                   RegExp.match_first path (route_pattern r) = None
     end)
  /\ (forall handlers,
        exists app,
          get "/users/:id" handlers new_Halin = inr app
          /\ params <$> findRoute app "GET" "/users/123"
             = Some {[ "id" := Some "123" ]})
  /\ (forall ps handlers,
        forallb well_formed ps = true ->
        exists app m,
          get (template_of ps) handlers new_Halin = inr app
          /\ findRoute app "GET" (path_of ps) = Some m
          /\ route_path (route m) = template_of ps
          /\ forall i name value,
               names_of ps !! i = Some name ->
               values_of ps !! i = Some value ->
               name <> "__proto__" ->
               (forall j name', i < j -> names_of ps !! j = Some name' ->
                                name' <> name) ->
               params m !! name = Some (Some value)).
Proof.
  split; [|split].
  - intros app method path. unfold findRoute.
    destruct (find_in (routes app) method path) as [m|] eqn:E.
    + destruct (find_in_some _ _ _ _ E) as (found & H1 & H2).
      exists found. repeat split; auto.
      intros i name Hi Hp Hlast. rewrite H2.
      apply (bind_params_lookup _ 0 found ∅ i name Hi Hp Hlast).
    + apply find_in_none. exact E.
  - intros handlers. unfold get, on, addRoute. rewrite pathToPattern_users_id.
    eexists. split; [reflexivity|].
    unfold findRoute, new_Halin. cbn [routes app find_in route_method].
    change (toUpperCase "GET") with "GET".
    rewrite String.eqb_refl, extractParams_users_id. reflexivity.
  - intros ps handlers Hwf.
    destruct (extractParams_pieces ps "GET" handlers Hwf) as (re & Hre & Hex).
    unfold get, on, addRoute. rewrite Hre.
    change (toUpperCase "GET") with "GET".
    eexists. eexists. split; [reflexivity|].
    unfold findRoute, new_Halin. cbn [routes app find_in route_method].
    rewrite String.eqb_refl, Hex. split; [reflexivity|].
    cbn [route route_path params]. split; [reflexivity|].
    intros i name value Hn Hv Hp Hlast.
    change name with (slice1 (String ":" name)).
    rewrite (bind_params_lookup _ 0 _ ∅ i (String ":" name)).
    + cbn [Nat.add].
      change ((Some (path_of ps) :: map Some (values_of ps)) !! S i)
        with ((Some <$> values_of ps) !! i).
      rewrite list_lookup_fmap, Hv. reflexivity.
    + change (map (String ":") (names_of ps)) with (String ":" <$> names_of ps).
      rewrite list_lookup_fmap, Hn. reflexivity.
    + exact Hp.
    + intros j name' Hj Hn'.
      change (map (String ":") (names_of ps)) with (String ":" <$> names_of ps) in Hn'.
      rewrite list_lookup_fmap in Hn'.
      destruct (names_of ps !! j) as [n|] eqn:E; [|discriminate].
      injection Hn' as <-. cbn [slice1]. apply (Hlast j n Hj E).
Qed.

Lemma C3_first_match_in_registration_order_witness :
  forallb well_formed
    [Fixed "users"; Named "id" "123"; Fixed "posts"; Named "post" "7"] = true
  /\ exists app m,
       get "/users/:id/posts/:post" [] new_Halin = inr app
       /\ findRoute app "GET" "/users/123/posts/7" = Some m
       /\ params m !! "id" = Some (Some "123")
       /\ params m !! "post" = Some (Some "7").
Proof.
  split; [reflexivity|].
  destruct (proj2 (proj2 C3_first_match_in_registration_order)
              [Fixed "users"; Named "id" "123"; Fixed "posts"; Named "post" "7"]
              [] eq_refl) as (app & m & H1 & H2 & _ & H4).
  exists app, m. split; [exact H1|]. split; [exact H2|]. split.
  - apply (H4 0 "id" "123" eq_refl eq_refl); [discriminate|].
    intros [|[|j]] name' Hj Hn; [lia| |discriminate].
    injection Hn as <-. discriminate.
  - apply (H4 1 "post" "7" eq_refl eq_refl); [discriminate|].
    intros [|[|j]] name' Hj Hn; [lia|lia|discriminate].
Defined.

(** C3 fails as stated: the parameters are bound by the positions of the
    groups of the pattern, and a template hands its own text to the pattern.
    With ["/(a)/:id"] registered, the path ["/a/7"] resolves to the route and
    binds [id] to ["a"], the text of the group that the template wrote, not
    to ["7"], the text in the place of the parameter.  With
    ["/:__proto__"] registered, the path ["/x"] resolves to the route and
    binds nothing. *)
Lemma C3_counterexample :
  (exists app m,
     get "/(a)/:id" [] new_Halin = inr app
     /\ findRoute app "GET" "/a/7" = Some m
     /\ paramNames (route_path (route m)) = [":id"]
     /\ params m !! "id" = Some (Some "a"))
  /\ (exists app m,
        get "/:__proto__" [] new_Halin = inr app
        /\ findRoute app "GET" "/x" = Some m
        /\ paramNames (route_path (route m)) = [":__proto__"]
        /\ params m = ∅).
Proof.
  split.
  - eexists. eexists. split; [vm_compute; reflexivity|].
    split; [vm_compute; reflexivity|]. split; vm_compute; reflexivity.
  - eexists. eexists. split; [vm_compute; reflexivity|].
    split; [vm_compute; reflexivity|]. split; vm_compute; reflexivity.
Qed.

(** ** A chain that stops early *)

Lemma positions_app l1 l2 : positions (l1 ++ l2) = positions l1 ++ positions l2.
Proof. unfold positions. apply flat_map_app. Qed.

Lemma delivered_app l1 l2 : delivered (l1 ++ l2) = delivered l1 ++ delivered l2.
Proof. unfold delivered. apply flat_map_app. Qed.

(** A property of the store that operations and the entry of a function keep
    is kept by every run of a continuation. *)
Lemma drive_keeps declared cursor enter body_of wrap chain at_end (P : Store -> Prop) :
  (forall op s, P s -> P (snd (apply_op declared op s))) ->
  (forall h s, P s -> P (enter h s)) ->
  forall fuel s, P s ->
    ends_in P (drive declared cursor enter body_of wrap chain at_end fuel s).
Proof.
  intros Hop Henter. induction fuel as [|fuel IH]; intros s Hs; simpl.
  - destruct (chain !! cursor s); [exact I|]. destruct at_end; exact Hs.
  - destruct (chain !! cursor s) as [h|]; [|destruct at_end; exact Hs].
    apply ends_in_rethrow. apply run_script_keeps; auto.
Qed.

Lemma recover_keeps declared req wrap handlers error (P : Store -> Prop) s :
  error_stable error P -> P s -> ends_in P (recover declared req wrap handlers error s).
Proof.
  intros (Hop & Henter & Hreset) Hs. unfold recover.
  destruct handlers as [|h hs]; [exact Hs|].
  apply drive_keeps; auto.
Qed.

Lemma settle_answer_final boundary c s r :
  settle boundary (answer c s) = Some r -> final r = s.
Proof. destruct c; simpl; intros [= <-]; reflexivity. Qed.

Lemma handle_catch_keeps coerce app req e (P : Store -> Prop) s r :
  (forall error, error_stable error P) -> P s ->
  settle (handle_boundary coerce) (handle_catch coerce app req e s) = Some r ->
  P (final r).
Proof.
  intros HP Hs. unfold handle_catch.
  destruct (coerce e) as [error|t]; [|intros [= <-]; exact Hs].
  pose proof (recover_keeps true req (fun e => e) (errorHandlers app) error P s
                (HP error) Hs) as Hr.
  destruct (recover true req _ (errorHandlers app) error s) as [s'|e' s'|];
    simpl in *; [|intros [= <-]; exact Hr|discriminate].
  intros H. apply settle_answer_final in H. rewrite H. exact Hr.
Qed.

Lemma handle_dispatch_keeps coerce app req chain at_end (P : Store -> Prop) r :
  (forall error, error_stable error P) ->
  ends_in P (next true req (fun e => e) chain at_end (length chain) new_Store) ->
  settle (handle_boundary coerce) (handle_dispatch coerce app req chain at_end) = Some r ->
  P (final r).
Proof.
  intros HP Hn. unfold handle_dispatch.
  destruct (next true req _ chain at_end (length chain) new_Store) as [s|e s|];
    simpl in *; [| |discriminate].
  - destruct (final_response s) as [w|e]; [intros [= <-]; exact Hn|].
    apply handle_catch_keeps; assumption.
  - apply handle_catch_keeps; assumption.
Qed.

Lemma listen1_dispatch_keeps app req chain (P : Store -> Prop) r :
  (forall error, error_stable error P) ->
  ends_in P (next false req (fun e => e) chain None (length chain) new_Store) ->
  settle Rev1.listen_boundary (Rev1.listen_dispatch app req chain) = Some r ->
  P (final r).
Proof.
  intros HP Hn. unfold Rev1.listen_dispatch.
  destruct (next false req _ chain None (length chain) new_Store) as [s|e s|];
    simpl in *; [intros [= <-]; exact Hn| |discriminate].
  pose proof (recover_keeps false req (fun e => e) (errorHandlers app) e P s (HP e) Hn) as Hr.
  destruct (recover false req _ (errorHandlers app) e s) as [s'|e' s'|];
    simpl in *; [intros [= <-]; exact Hr|intros [= <-]; exact Hr|discriminate].
Qed.

Lemma listen2_dispatch_keeps dev app req chain (P : Store -> Prop) r :
  (forall error, error_stable error P) ->
  ends_in P (next true req Rev2.middleware_error chain None (length chain) new_Store) ->
  settle (Rev2.listen_boundary dev) (Rev2.listen_dispatch app req chain) = Some r ->
  P (final r).
Proof.
  intros HP Hn. unfold Rev2.listen_dispatch.
  destruct (next true req _ chain None (length chain) new_Store) as [s|e s|];
    simpl in *; [| |discriminate].
  - intros H. apply settle_answer_final in H. rewrite H. exact Hn.
  - pose proof (recover_keeps true req Rev2.error_handler_failed (errorHandlers app) e P s
                  (HP e) Hn) as Hr.
    destruct (recover true req _ (errorHandlers app) e s) as [s'|e' s'|];
      simpl in *; [|intros [= <-]; exact Hr|discriminate].
    intros H. apply settle_answer_final in H. rewrite H. exact Hr.
Qed.

Section ShortCircuit.

Variable req : Request.
Variables (pre : list JsFn) (h : JsFn) (post : list JsFn).

Hypothesis pre_once : forall g, In g pre -> OnceNext (call3 g req).
Hypothesis h_stops : NoNext (call3 h req).

(** The handlers after [h] do not matter to the run of the chain. *)
Lemma next_prefix declared wrap at_end :
  next declared req wrap (pre ++ h :: post) at_end (length (pre ++ h :: post)) new_Store
  = next declared req wrap (pre ++ [h]) at_end (length (pre ++ [h])) new_Store.
Proof.
  unfold next.
  rewrite (drive_prefix declared index enter_handler (fun g => call3 g req) wrap
             (fun g s => eq_refl) (apply_op_index declared)
             pre h post [] at_end at_end _ pre_once h_stops new_Store)
    by (simpl; lia).
  apply (drive_more declared index enter_handler (fun g => call3 g req) wrap).
  - rewrite !length_app. simpl. lia.
  - apply next_live.
Qed.

(** No handler after [h] is called. *)
Lemma next_positions declared wrap at_end fuel :
  ends_in (fun s => Forall (fun p => p <= length pre) (positions (calls s)))
    (next declared req wrap (pre ++ h :: post) at_end fuel new_Store).
Proof.
  eapply ends_in_impl;
    [|apply (drive_bounded declared index enter_handler (fun g => call3 g req) wrap
               (fun g s => eq_refl) (apply_op_index declared) pre h post at_end
               (fun s => Forall (fun p => p <= length pre) (positions (calls s)))
               fuel pre_once h_stops)].
  - simpl. intros s [_ H]. exact H.
  - intros op s H. rewrite apply_op_calls. exact H.
  - intros g s Hs H. simpl. rewrite positions_app. apply Forall_app. split; [exact H|].
    simpl. constructor; [exact Hs|constructor].
  - simpl. lia.
  - simpl. constructor.
Qed.

(** The call of [next] that runs [h] ends as the body of [h] ends. *)
Lemma next_at_last declared wrap at_end fuel s :
  index s = length pre ->
  next declared req wrap (pre ++ h :: post) at_end (S fuel) s
  = rethrow wrap (run_script declared probe (call3 h req) (enter_handler h s)).
Proof.
  intros Hs. unfold next at 1.
  rewrite (drive_step declared index enter_handler (fun g => call3 g req) wrap _ _ _ _ h)
    by (rewrite Hs; apply list_lookup_middle; reflexivity).
  f_equal. apply nonext_any, h_stops.
Qed.

End ShortCircuit.

Lemma positions_stable n error :
  error_stable error (fun s => Forall (fun p => p <= n) (positions (calls s))).
Proof.
  repeat split.
  - intros declared op s H. rewrite apply_op_calls. exact H.
  - intros h s H. simpl. rewrite positions_app, app_nil_r. exact H.
  - intros s H. exact H.
Qed.

(** C2, as the code has it.  Let the handler at position [length pre] not
    call [next], and let every handler before it call [next] at most once.
    Then the handlers after it do not matter to the outcome of the dispatch
    (the store with [res], and the reply where the entry point builds one
    from it); none of them is called; and the call of [next] that runs the
    handler ends as the body of the handler ends, so it returns when the
    handler returns. *)
Theorem C2_short_circuit (app : Halin) (req : Request)
    (pre : list JsFn) (h : JsFn) (post : list JsFn) :
  (forall g, In g pre -> OnceNext (call3 g req)) ->
  NoNext (call3 h req) ->
  (forall coerce at_end,
     handle_dispatch coerce app req (pre ++ h :: post) at_end
     = handle_dispatch coerce app req (pre ++ [h]) at_end)
  /\ Rev1.listen_dispatch app req (pre ++ h :: post)
     = Rev1.listen_dispatch app req (pre ++ [h])
  /\ Rev2.listen_dispatch app req (pre ++ h :: post)
     = Rev2.listen_dispatch app req (pre ++ [h])
  /\ (forall coerce at_end r,
        settle (handle_boundary coerce)
          (handle_dispatch coerce app req (pre ++ h :: post) at_end) = Some r ->
        Forall (fun p => p <= length pre) (positions (calls (final r))))
  /\ (forall r,
        settle Rev1.listen_boundary (Rev1.listen_dispatch app req (pre ++ h :: post)) = Some r ->
        Forall (fun p => p <= length pre) (positions (calls (final r))))
  /\ (forall dev r,
        settle (Rev2.listen_boundary dev) (Rev2.listen_dispatch app req (pre ++ h :: post))
        = Some r ->
        Forall (fun p => p <= length pre) (positions (calls (final r))))
  /\ (forall declared wrap at_end fuel s s',
        index s = length pre ->
        run_script declared probe (call3 h req) (enter_handler h s) = Done s' ->
        next declared req wrap (pre ++ h :: post) at_end (S fuel) s = Done s').
Proof.
  intros Hpre Hh.
  set (P := fun s => Forall (fun p => p <= length pre) (positions (calls s))).
  split; [|split; [|split; [|split; [|split; [|split]]]]].
  - intros coerce at_end. unfold handle_dispatch. rewrite next_prefix by assumption.
    reflexivity.
  - unfold Rev1.listen_dispatch. rewrite next_prefix by assumption. reflexivity.
  - unfold Rev2.listen_dispatch. rewrite next_prefix by assumption. reflexivity.
  - intros coerce at_end r.
    apply (handle_dispatch_keeps _ _ _ _ _ P); [intros; apply positions_stable|].
    apply next_positions; assumption.
  - intros r. apply (listen1_dispatch_keeps _ _ _ P); [intros; apply positions_stable|].
    apply next_positions; assumption.
  - intros dev r. apply (listen2_dispatch_keeps _ _ _ _ P); [intros; apply positions_stable|].
    apply next_positions; assumption.
  - intros declared wrap at_end fuel s s' Hs Hrun.
    rewrite next_at_last, Hrun by assumption. reflexivity.
Qed.

Lemma C2_short_circuit_witness :
  handle_dispatch Rev2.coerce new_Halin (bare_request "GET" "/x")
    ([passes] ++ stops :: [teapot]) None
  = handle_dispatch Rev2.coerce new_Halin (bare_request "GET" "/x")
      ([passes] ++ [stops]) None.
Proof.
  apply (C2_short_circuit new_Halin (bare_request "GET" "/x") [passes] stops [teapot]).
  - intros g [<-|[]]. apply once_await. constructor.
  - constructor.
Defined.

(** C2 fails as stated: the handler at position 1 returns without calling
    [next], and still the handler at position 2 is called, and sets the
    status of the reply, because the handler at position 0 calls [next] a
    second time. *)
Lemma C2_counterexample :
  NoNext (call3 stops (bare_request "GET" "/x"))
  /\ exists app r w,
       get "/x" [stops; teapot] (use [twice] new_Halin) = inr app
       /\ Rev2.handle app (bare "GET" "/x") = Some r
       /\ calls (final r) = [Invoked 0 twice; Invoked 1 stops; Invoked 2 teapot]
       /\ response r = Normal w
       /\ status w = 418%Z.
Proof.
  split; [constructor|].
  eexists. eexists. eexists. split; [vm_compute; reflexivity|].
  split; [vm_compute; reflexivity|]. split; [reflexivity|]. split; reflexivity.
Qed.


(** ** A failure on its way to the error chain *)

Lemma quiet_normal declared op s :
  quiet op = true -> fst (apply_op declared op s) = Normal tt.
Proof.
  destruct op; simpl; intros H; try discriminate; try reflexivity.
  unfold res_header. rewrite headers_set_accepted by exact H. reflexivity.
Qed.

Lemma iter_id {A : Type} n (x : A) : Nat.iter n (fun y => y) x = x.
Proof. induction n as [|n IH]; simpl; [reflexivity|exact IH]. Qed.

Section RaiseFacts.

Variable declared : bool.

Lemma raises_run e sc :
  Raises e sc -> forall nx s, exists s', run_script declared nx sc s = Threw e s'.
Proof.
  induction 1 as [|op k Hq Hk IH|f Hf IH]; intros nx s; simpl.
  - eauto.
  - pose proof (quiet_normal declared op s Hq) as Hn.
    destruct (apply_op declared op s) as [[[]|e'] s']; simpl in Hn; [apply IH|discriminate].
  - apply IH.
Qed.

Lemma forwards_run (P : Store -> Prop) nx e sc :
  (forall op s, P s -> P (snd (apply_op declared op s))) ->
  (forall s1, P s1 -> exists s2, nx s1 = Threw e s2) ->
  Forwards sc -> forall s, P s -> exists s2, run_script declared nx sc s = Threw e s2.
Proof.
  intros Hop Hnx. induction 1 as [k|op k Hq Hk IH|f Hf IH]; intros s Hs; simpl.
  - destruct (Hnx s Hs) as [s2 ->]. eauto.
  - pose proof (quiet_normal declared op s Hq) as Hn. specialize (Hop op s Hs).
    destruct (apply_op declared op s) as [[[]|e'] s']; simpl in *; [auto|discriminate].
  - apply IH, Hs.
Qed.

Lemma forwards_probe sc :
  Forwards sc -> forall s, run_script declared probe sc s = Exhausted.
Proof.
  induction 1 as [k|op k Hq Hk IH|f Hf IH]; intros s; simpl.
  - reflexivity.
  - pose proof (quiet_normal declared op s Hq) as Hn.
    destruct (apply_op declared op s) as [[[]|e] s']; simpl in Hn; [apply IH|discriminate].
  - apply IH.
Qed.

Variable cursor : Store -> nat.
Variable enter : JsFn -> Store -> Store.
Variable body_of : JsFn -> Script.
Variable wrap : Js.Thrown -> Js.Thrown.

Hypothesis enter_cursor : forall h s, cursor (enter h s) = S (cursor s).
Hypothesis op_cursor : forall op s, cursor (snd (apply_op declared op s)) = cursor s.

(** The functions before [h] forward, [h] throws [e]: the run throws what
    the [catch] clauses of the calls it leaves make of [e], one after the
    other. *)
Lemma drive_raise pre h post at_end e fuel :
  (forall g, In g pre -> Forwards (body_of g)) ->
  Raises e (body_of h) ->
  forall s, cursor s <= length pre -> length pre - cursor s < fuel ->
  exists s', drive declared cursor enter body_of wrap (pre ++ h :: post) at_end fuel s
             = Threw (Nat.iter (S (length pre - cursor s)) wrap e) s'.
Proof.
  intros Hpre Hh. induction fuel as [|fuel IH]; intros s Hs Hf; [lia|].
  destruct (decide (cursor s = length pre)) as [Heq|Hne].
  - rewrite (drive_step declared cursor enter body_of wrap _ _ _ _ h)
      by (rewrite Heq; apply list_lookup_middle; reflexivity).
    destruct (raises_run e _ Hh
                (drive declared cursor enter body_of wrap (pre ++ h :: post) at_end fuel)
                (enter h s)) as [s' ->].
    rewrite Heq, Nat.sub_diag. simpl. eauto.
  - destruct (lookup_lt_is_Some_2 pre (cursor s)) as [g Hg]; [lia|].
    rewrite (drive_step declared cursor enter body_of wrap _ _ _ _ g)
      by (rewrite lookup_app_l by lia; exact Hg).
    destruct (forwards_run (fun s1 => cursor s1 = S (cursor s))
                (drive declared cursor enter body_of wrap (pre ++ h :: post) at_end fuel)
                (Nat.iter (S (length pre - S (cursor s))) wrap e) (body_of g))
      with (s := enter g s) as [s2 ->].
    + intros op s1 H1. rewrite op_cursor. exact H1.
    + intros s1 H1. destruct (IH s1) as [s2 E]; [lia|lia|]. rewrite E, H1. eauto.
    + apply Hpre. apply list_elem_of_In, list_elem_of_lookup. eauto.
    + rewrite enter_cursor. reflexivity.
    + replace (length pre - cursor s) with (S (length pre - S (cursor s))) by lia.
      simpl. eauto.
Qed.

(** A list of functions that all forward, with the failure [e] to throw past
    the last one: the run throws what the [catch] clauses make of [e]. *)
Lemma drive_forward_end chain e fuel :
  (forall g, In g chain -> Forwards (body_of g)) ->
  forall s, cursor s <= length chain -> length chain - cursor s <= fuel ->
  exists s', drive declared cursor enter body_of wrap chain (Some e) fuel s
             = Threw (Nat.iter (S (length chain - cursor s)) wrap e) s'.
Proof.
  intros Hc. induction fuel as [|fuel IH]; intros s Hs Hf.
  - rewrite drive_end by (apply lookup_ge_None_2; lia).
    replace (length chain - cursor s) with 0 by lia. simpl. eauto.
  - destruct (chain !! cursor s) as [g|] eqn:E.
    + pose proof (lookup_lt_Some _ _ _ E) as Hlt.
      rewrite (drive_step declared cursor enter body_of wrap _ _ _ _ g E).
      destruct (forwards_run (fun s1 => cursor s1 = S (cursor s))
                  (drive declared cursor enter body_of wrap chain (Some e) fuel)
                  (Nat.iter (S (length chain - S (cursor s))) wrap e) (body_of g))
        with (s := enter g s) as [s2 ->].
      * intros op s1 H1. rewrite op_cursor. exact H1.
      * intros s1 H1. destruct (IH s1) as [s2 E2]; [lia|lia|]. rewrite E2, H1. eauto.
      * apply Hc. apply list_elem_of_In, list_elem_of_lookup. eauto.
      * rewrite enter_cursor. reflexivity.
      * replace (length chain - cursor s) with (S (length chain - S (cursor s))) by lia.
        simpl. eauto.
    + pose proof (lookup_ge_None_1 _ _ E) as Hge.
      rewrite drive_end by exact E.
      replace (length chain - cursor s) with 0 by lia. simpl. eauto.
Qed.

End RaiseFacts.

(** *** The conversions of the second revision *)

Lemma as_HalinError_halin label expression e :
  Js.is_HalinError e = true -> Rev2.as_HalinError label expression e = e.
Proof. unfold Rev2.as_HalinError. intros ->. reflexivity. Qed.

Lemma as_HalinError_text label expression e text :
  Js.is_HalinError e = false -> Js.message_text expression e = Normal text ->
  Rev2.as_HalinError label expression e = Js.HalinError 500 (label +:+ text).
Proof. unfold Rev2.as_HalinError. intros -> ->. reflexivity. Qed.

(** The message of an [Error] can be read, and is a text. *)
Lemma message_text_error expression e :
  Js.is_Error e = true -> Js.message_text expression e = Normal (Js.message e).
Proof. destruct e; simpl; intros H; [reflexivity|reflexivity|discriminate]. Qed.

Lemma iter_fixed {A : Type} (f : A -> A) x n : f x = x -> Nat.iter n f x = x.
Proof. intros H. induction n as [|n IH]; simpl; [reflexivity|]. rewrite IH. exact H. Qed.

Lemma caught_halin e i : Js.is_HalinError e = true -> Rev2.caught i e = e.
Proof.
  intros H. apply iter_fixed. apply as_HalinError_halin, H.
Qed.

Lemma caught_text e i text :
  Js.is_HalinError e = false -> Js.message_text "error.message" e = Normal text ->
  Rev2.caught i e = Js.HalinError 500 ("Middleware error: " +:+ text).
Proof.
  intros Ht Hm. unfold Rev2.caught.
  assert (H1 : Rev2.middleware_error e = Js.HalinError 500 ("Middleware error: " +:+ text))
    by (apply as_HalinError_text; assumption).
  induction i as [|i IH]; [exact H1|].
  change (Nat.iter (S (S i)) Rev2.middleware_error e)
    with (Rev2.middleware_error (Nat.iter (S i) Rev2.middleware_error e)).
  rewrite IH. reflexivity.
Qed.

Lemma uncaught_halin e n : Js.is_HalinError e = true -> Rev2.uncaught n e = e.
Proof.
  intros H. destruct n as [|n]; [reflexivity|].
  apply iter_fixed. apply as_HalinError_halin, H.
Qed.

Lemma as_Error_error e : Js.is_Error e = true -> as_Error e = Normal e.
Proof. destruct e; simpl; intros H; [reflexivity|reflexivity|discriminate]. Qed.

Lemma as_Error_value v :
  Js.convertible v = true ->
  as_Error (Js.NotError v) = Normal (Js.Error "Error" (Js.to_string v)).
Proof. unfold as_Error, Js.string_of. intros ->. reflexivity. Qed.

(** What [as_Error] gives is an [Error], and a [HalinError] only when it was
    given one. *)
Lemma as_Error_is_Error e d :
  as_Error e = Normal d ->
  Js.is_Error d = true /\ as_Error d = Normal d
  /\ Js.is_HalinError d = Js.is_HalinError e.
Proof.
  destruct e as [code m|name m|v]; simpl.
  - intros [= <-]. auto.
  - intros [= <-]. auto.
  - destruct (Js.string_of v); [|discriminate]. intros [= <-]. auto.
Qed.

(** *** The replies of the boundaries *)

Lemma typed_reply_halin code msg :
  replies_with_body code ->
  typed_reply (Js.HalinError code msg)
  = Normal (mkWire code json_headers (WText (error_body msg))).
Proof. intros H. apply construct_json, H. Qed.

Lemma untyped_reply_error e :
  Js.is_Error e = true ->
  untyped_reply e
  = Normal (mkWire 500 json_headers (WText (error_body (message_or_default e)))).
Proof.
  intros H. unfold untyped_reply, message_or_default, or_default, error_body.
  destruct e as [code m|name m|v]; [| |discriminate];
    cbn [Js.get_message Js.message Js.truthy];
    destruct (String.eqb m ""); cbn [negb]; apply construct_json, replies_500.
Qed.

Lemma no_delivery_stable declared :
  (forall op s, delivered (calls s) = [] ->
                delivered (calls (snd (apply_op declared op s))) = [])
  /\ (forall h s, delivered (calls s) = [] -> delivered (calls (enter_handler h s)) = []).
Proof.
  split.
  - intros op s H. rewrite apply_op_calls. exact H.
  - intros h s H. simpl. rewrite delivered_app, H. reflexivity.
Qed.

(** The chain of [pre ++ h :: post], where the handlers of [pre] forward and
    [h] throws [e], throws what [wrap] makes of [e] in every call of [next]
    that the failure leaves; no error handler was called by then. *)
Lemma next_raise declared req wrap pre h post at_end e :
  (forall g, In g pre -> Forwards (call3 g req)) ->
  Raises e (call3 h req) ->
  exists s,
    next declared req wrap (pre ++ h :: post) at_end (length (pre ++ h :: post)) new_Store
    = Threw (Nat.iter (S (length pre)) wrap e) s
    /\ delivered (calls s) = [].
Proof.
  intros Hpre Hh.
  destruct (drive_raise declared index enter_handler (fun g => call3 g req) wrap
              (fun g s => eq_refl) (apply_op_index declared)
              pre h post at_end e (length (pre ++ h :: post)) Hpre Hh new_Store)
    as [s E].
  - simpl. lia.
  - rewrite length_app. simpl. lia.
  - exists s. cbn [index new_Store] in E. rewrite Nat.sub_0_r in E. split; [exact E|].
    pose proof (drive_keeps declared index enter_handler (fun g => call3 g req) wrap
                  (pre ++ h :: post) at_end (fun s => delivered (calls s) = [])
                  (proj1 (no_delivery_stable declared))
                  (proj2 (no_delivery_stable declared))
                  (length (pre ++ h :: post)) new_Store eq_refl) as Hk.
    unfold next in E. rewrite E in Hk. exact Hk.
Qed.

(** The same where the [catch] clause of [next] rethrows what it caught. *)
Lemma next_raise_plain declared req pre h post at_end e :
  (forall g, In g pre -> Forwards (call3 g req)) ->
  Raises e (call3 h req) ->
  exists s,
    next declared req (fun x => x) (pre ++ h :: post) at_end
      (length (pre ++ h :: post)) new_Store
    = Threw e s
    /\ delivered (calls s) = [].
Proof.
  intros Hpre Hh.
  destruct (next_raise declared req (fun x => x) pre h post at_end e Hpre Hh)
    as (s & E & Hs).
  rewrite iter_id in E. eauto.
Qed.

Lemma delivered_trace e k l :
  delivered (trace_from (fun p h => InvokedOnError p h e) k l) = repeat e (length l).
Proof.
  revert k. induction l as [|h l IH]; intros k; simpl; [reflexivity|].
  f_equal. apply IH.
Qed.

Lemma escaped_id n e : escaped (fun x => x) n e = e.
Proof. destruct n; [reflexivity|]. apply (iter_id (S (S n))). Qed.

(** The error chain of forwarding handlers ends with the failure it was
    started with, as the [catch] clauses of [errorNext] leave it, after every
    handler was called. *)
Lemma recover_forward_end declared req wrap handlers e s :
  (forall g, In g handlers -> Forwards (call4 g e req)) ->
  exists s',
    recover declared req wrap handlers e s
    = Threw (escaped wrap (length handlers) e) s'
    /\ calls s' = calls s ++ trace_from (fun p h => InvokedOnError p h e) 0 handlers.
Proof.
  intros Hc. unfold recover. destruct handlers as [|first rest].
  - exists s. rewrite app_nil_r. auto.
  - set (chain := first :: rest) in *. unfold errorNext.
    destruct (drive_forward_end declared errorIndex (enter_errorHandler e)
                (fun g => call4 g e req) wrap (fun g s0 => eq_refl)
                (apply_op_errorIndex declared) chain e (length chain) Hc
                (reset_errorIndex s)) as [s' E]; [simpl; lia|simpl; lia|].
    cbn [errorIndex reset_errorIndex] in E. rewrite Nat.sub_0_r in E.
    exists s'. split; [exact E|].
    destruct (exists_last (l := chain)) as (pre & lst & Hch); [discriminate|].
    pose proof (drive_all declared errorIndex (enter_errorHandler e)
                  (fun p h => InvokedOnError p h e) (fun h => call4 h e req)
                  wrap (fun h s => eq_refl) (fun h s => eq_refl)
                  (apply_op_errorIndex declared) pre lst (Some e) (length chain)) as Ha.
    specialize (Ha (fun g Hg s0 => forwards_probe declared _
                      (Hc g (eq_ind_r (fun l => In g l)
                               (proj2 (in_app_iff pre [lst] g) (or_introl Hg)) Hch)) s0)
                   (reset_errorIndex s) (Nat.le_0_l _)).
    rewrite <- Hch, E in Ha. simpl in Ha. destruct Ha as [_ Ha]. exact Ha.
Qed.

(** What the [catch] clause around the chain does with the failure [e]. *)
Lemma recover_reaches declared req wrap handlers e s :
  delivered (calls s) = [] ->
  recover declared req wrap handlers e s <> Exhausted
  /\ ends_in (fun s' =>
                Forall (eq e) (delivered (calls s'))
                /\ match handlers with
                   | [] => True
                   | first :: _ =>
                       exists l2, calls s' = calls s ++ InvokedOnError 0 first e :: l2
                   end)
       (recover declared req wrap handlers e s)
  /\ (handlers = [] -> recover declared req wrap handlers e s = Threw e s).
Proof.
  intros Hs. split; [apply recover_live|]. split; [|intros ->; reflexivity].
  destruct handlers as [|first rest]; simpl.
  - rewrite Hs. split; constructor.
  - apply ends_in_rethrow.
    apply (run_script_keeps declared
             (fun s' => Forall (eq e) (delivered (calls s'))
                        /\ exists l2, calls s' = calls s ++ InvokedOnError 0 first e :: l2)).
    + intros op s1 H1. rewrite apply_op_calls. exact H1.
    + intros s1 H1.
      apply (drive_keeps declared errorIndex (enter_errorHandler e)
               (fun g => call4 g e req) wrap (first :: rest) (Some e)
               (fun s' => Forall (eq e) (delivered (calls s'))
                          /\ exists l2, calls s' = calls s ++ InvokedOnError 0 first e :: l2));
        [| |exact H1].
      * intros op s2 H2. rewrite apply_op_calls. exact H2.
      * intros g s2 [H2 [l2 H3]]. simpl. split.
        -- rewrite delivered_app. apply Forall_app. split; [exact H2|].
           simpl. constructor; [reflexivity|constructor].
        -- exists (l2 ++ [InvokedOnError (errorIndex s2) g e]).
           rewrite H3, <- app_assoc. reflexivity.
    + simpl. split.
      * rewrite delivered_app, Hs. simpl. constructor; [reflexivity|constructor].
      * exists []. reflexivity.
Qed.

(** The same for an entry point: [finish] is what it does when the error
    chain returns, and [boundary] its final [catch]. *)
Lemma reaches_of_recover declared req wrap handlers e s boundary
    (finish : Store -> Attempt) :
  delivered (calls s) = [] ->
  (forall s', exists w, settle boundary (finish s') = Some (mkResult w s')) ->
  error_reaches handlers req e (boundary (escaped wrap (length handlers) e))
    (settle boundary
       match recover declared req wrap handlers e s with
       | Done s' => finish s'
       | Threw e' s' => Failed e' s'
       | Exhausted => Stuck
       end).
Proof.
  intros Hs Hfinish.
  destruct (recover_reaches declared req wrap handlers e s Hs) as (Hl & Hk & Hnone).
  unfold error_reaches.
  destruct handlers as [|first rest].
  - rewrite Hnone by reflexivity. simpl. eexists. split; [reflexivity|]. simpl.
    rewrite Hs. split; [constructor|split; reflexivity].
  - assert (Hfw : (forall g, In g (first :: rest) -> Forwards (call4 g e req)) ->
                  exists s', recover declared req wrap (first :: rest) e s
                             = Threw (escaped wrap (length (first :: rest)) e) s'
                             /\ delivered (calls s') = repeat e (length (first :: rest))).
    { intros Hc. destruct (recover_forward_end declared req wrap _ e s Hc) as (s' & E & Hc').
      exists s'. split; [exact E|].
      rewrite Hc', delivered_app, Hs, delivered_trace. reflexivity. }
    destruct (recover declared req wrap (first :: rest) e s) as [s'|e' s'|];
      [| |congruence]; simpl in Hk; destruct Hk as [H1 [l2 H2]].
    + destruct (Hfinish s') as [w Hw]. rewrite Hw. eexists. split; [reflexivity|].
      simpl. split; [exact H1|]. split; [exists (calls s), l2; auto|].
      intros Hc. destruct (Hfw Hc) as (s2 & E & _). discriminate.
    + simpl. eexists. split; [reflexivity|].
      simpl. split; [exact H1|]. split; [exists (calls s), l2; auto|].
      intros Hc. destruct (Hfw Hc) as (s2 & E & Hd). injection E as -> ->. auto.
Qed.

Lemma settle_answer_catch coerce (c : Completion Wire) s' :
  exists w, settle (handle_boundary coerce) (answer c s') = Some (mkResult w s').
Proof. apply settle_answer. Qed.

(** The [catch] clause of [handle], given a failure that it can use. *)
Lemma handle_catch_reaches coerce app req e d s :
  coerce e = Normal d -> delivered (calls s) = [] ->
  error_reaches (errorHandlers app) req d (handle_boundary coerce d)
    (settle (handle_boundary coerce) (handle_catch coerce app req e s)).
Proof.
  intros Hc Hs. unfold handle_catch. rewrite Hc.
  pose proof (reaches_of_recover true req (fun x => x) (errorHandlers app) d s
                (handle_boundary coerce)
                (fun s' => answer (wire_of_res (res s')) s') Hs
                (fun s' => settle_answer _ _ s')) as H.
  rewrite escaped_id in H. exact H.
Qed.

Section Raised.

Variables (app : Halin) (req : Request).
Variables (pre : list JsFn) (h : JsFn) (post : list JsFn) (e : Js.Thrown).

Hypothesis pre_forward : forall g, In g pre -> Forwards (call3 g req).
Hypothesis h_raises : Raises e (call3 h req).

Lemma handle_dispatch_raised coerce d at_end :
  coerce e = Normal d ->
  error_reaches (errorHandlers app) req d (handle_boundary coerce d)
    (settle (handle_boundary coerce)
       (handle_dispatch coerce app req (pre ++ h :: post) at_end)).
Proof.
  intros Hc.
  destruct (next_raise_plain true req pre h post at_end e pre_forward h_raises)
    as (s & E & Hs).
  unfold handle_dispatch. rewrite E. apply handle_catch_reaches; assumption.
Qed.

(** When the [catch] clause cannot make an [Error] of the failure, it fails
    itself before it calls an error handler. *)
Lemma handle_dispatch_unusable coerce t at_end :
  coerce e = Abrupt t ->
  exists s,
    settle (handle_boundary coerce)
      (handle_dispatch coerce app req (pre ++ h :: post) at_end)
    = Some (mkResult (handle_boundary coerce t) s)
    /\ delivered (calls s) = [].
Proof.
  intros Hc.
  destruct (next_raise_plain true req pre h post at_end e pre_forward h_raises)
    as (s & E & Hs).
  unfold handle_dispatch, handle_catch. rewrite E, Hc. exists s. auto.
Qed.

Lemma listen1_dispatch_raised :
  error_reaches (errorHandlers app) req e (Rev1.listen_boundary e)
    (settle Rev1.listen_boundary (Rev1.listen_dispatch app req (pre ++ h :: post))).
Proof.
  destruct (next_raise_plain false req pre h post None e pre_forward h_raises)
    as (s & E & Hs).
  unfold Rev1.listen_dispatch. rewrite E.
  pose proof (reaches_of_recover false req (fun x => x) (errorHandlers app) e s
                Rev1.listen_boundary (fun s' => Failed currentResponse_undeclared s') Hs)
    as H.
  rewrite escaped_id in H. apply H.
  intros s'. eexists. reflexivity.
Qed.

Lemma listen2_dispatch_raised dev :
  error_reaches (errorHandlers app) req (Rev2.caught (length pre) e)
    (Rev2.listen_boundary dev
       (Rev2.uncaught (length (errorHandlers app)) (Rev2.caught (length pre) e)))
    (settle (Rev2.listen_boundary dev) (Rev2.listen_dispatch app req (pre ++ h :: post))).
Proof.
  destruct (next_raise true req Rev2.middleware_error pre h post None e
              pre_forward h_raises) as (s & E & Hs).
  unfold Rev2.listen_dispatch. rewrite E.
  apply (reaches_of_recover true req Rev2.error_handler_failed (errorHandlers app)
           (Rev2.caught (length pre) e) s (Rev2.listen_boundary dev)
           (fun s' => answer (final_response s') s') Hs).
  intros s'. apply settle_answer.
Qed.

End Raised.




(** ** The boundary *)

(** A failure of the error chain went through the [catch] clause of
    [errorNext], and a failure of the chain through that of [next]. *)
Lemma drive_threw declared cursor enter body_of wrap chain at_end fuel s e s' :
  drive declared cursor enter body_of wrap chain at_end fuel s = Threw e s' ->
  exists e0, e = wrap e0.
Proof.
  destruct fuel as [|fuel]; simpl; destruct (chain !! cursor s) as [h|].
  - discriminate.
  - destruct at_end; intros [= <- _] || discriminate. eauto.
  - destruct (run_script _ _ _ _) as [s1|e1 s1|]; simpl; try discriminate.
    intros [= <- _]. eauto.
  - destruct at_end; intros [= <- _] || discriminate. eauto.
Qed.

(** The requests that end unrecovered.  The [try] block of an entry point
    fails with [e]: the final [catch] answers for [e]. *)
Lemma unrecovered_reply boundary a e s :
  a = Failed e s -> settle boundary a = Some (mkResult (boundary e) s).
Proof. intros ->. reflexivity. Qed.

Lemma listen2_boundary_error dev e :
  Js.is_Error e = true -> Js.is_HalinError e = false ->
  Rev2.listen_boundary dev e = Normal (Rev2.generic_reply dev e).
Proof.
  intros He Ht. unfold Rev2.listen_boundary. rewrite (as_Error_error e He), Ht.
  apply construct_json, replies_500.
Qed.

Lemma generic_reply_production e :
  Rev2.generic_reply false e = mkWire 500 json_headers (WText (error_body "Internal Server Error")).
Proof. reflexivity. Qed.




(** ** No route *)

(** Without a route [listen] answers the failure itself, in both
    revisions: no handler of any kind is called. *)
Lemma listen_not_found app raw :
  findRoute app (raw_method raw) (raw_path raw) = None ->
  Rev1.listen app raw = Some (mkResult (typed_reply not_found) new_Store)
  /\ forall dev, Rev2.listen dev app raw = Some (mkResult (typed_reply not_found) new_Store).
Proof.
  intros H. unfold Rev1.listen, Rev1.listen_try, Rev2.listen, Rev2.listen_try.
  rewrite H. split; reflexivity.
Qed.

(** Without a route [handle] of the second revision hands the failure to
    the error chain. *)
Lemma handle2_not_found app raw :
  findRoute app (raw_method raw) (raw_path raw) = None ->
  error_reaches (errorHandlers app) (Rev2.handle_context raw ∅ Js.Null) not_found
    (handle_boundary Rev2.coerce not_found) (Rev2.handle app raw).
Proof.
  intros H. unfold Rev2.handle, Rev2.handle_try. rewrite H.
  apply handle_catch_reaches; reflexivity.
Qed.

(** C5 at the failing input.  An application with the error handler
    [reports] and no route receives a GET request for ["/missing"].
    [listen] answers 404 itself in both revisions and calls nothing;
    [handle] of the second revision calls [reports] with the failure, and
    [reports] decides the reply. *)
Theorem C5_listen_answers_not_found_itself :
  Rev1.listen (use [reports] new_Halin) (bare "GET" "/missing")
  = Some (mkResult (Normal (mkWire 404 json_headers (WText (error_body "Not Found"))))
            new_Store)
  /\ (forall dev,
        Rev2.listen dev (use [reports] new_Halin) (bare "GET" "/missing")
        = Some (mkResult
                  (Normal (mkWire 404 json_headers (WText (error_body "Not Found"))))
                  new_Store))
  /\ calls new_Store = []
  /\ exists r,
       Rev2.handle (use [reports] new_Halin) (bare "GET" "/missing") = Some r
       /\ calls (final r) = [InvokedOnError 0 reports not_found]
       /\ response r
          = Normal (mkWire 500 json_headers (WText (error_body "Not Found"))).
Proof.
  split; [reflexivity|]. split; [intros dev; reflexivity|]. split; [reflexivity|].
  eexists. split; [vm_compute; reflexivity|]. split; reflexivity.
Qed.

(** * Further properties of the code *)

(** ** The calls of a chain *)

Lemma error_positions_app l1 l2 :
  error_positions (l1 ++ l2) = error_positions l1 ++ error_positions l2.
Proof. unfold error_positions. apply flat_map_app. Qed.

(** While the chain runs no error handler has been called. *)
Lemma chain_phase_stable declared :
  (forall op s, chain_phase s -> chain_phase (snd (apply_op declared op s)))
  /\ (forall h s, chain_phase s -> chain_phase (enter_handler h s)).
Proof.
  unfold chain_phase. split.
  - intros op s (H1 & H2 & H3).
    rewrite apply_op_calls, apply_op_index, apply_op_errorIndex. auto.
  - intros h s (H1 & H2 & H3). unfold enter_handler. cbn [calls index errorIndex].
    rewrite positions_app, error_positions_app, H1, H2, seq_S. auto.
Qed.

Lemma next_in_order declared req wrap chain at_end fuel :
  ends_in chain_phase (next declared req wrap chain at_end fuel new_Store).
Proof.
  apply drive_keeps.
  - apply (proj1 (chain_phase_stable declared)).
  - apply (proj2 (chain_phase_stable declared)).
  - repeat split.
Qed.

(** ** Chains that cannot fail *)

Lemma plain_writer_op declared op s :
  plain_writer s -> plain_writer (snd (apply_op declared op s)).
Proof.
  unfold plain_writer. intros H.
  destruct op; simpl; try exact H.
  - destruct (res_header name value (res s)); exact H.
  - destruct declared; simpl; [|exact H]. intros w [= <-]. split; reflexivity.
  - destruct (currentResponse s) as [w0|] eqn:E; [|simpl; rewrite E; exact H].
    destruct (H w0 eq_refl) as [H1 H2].
    unfold sse_send. destruct (closed w0); simpl; [intros w [= <-]; auto|].
    destruct (enqueue _ (controller w0)); simpl; intros w [= <-]; auto.
  - destruct (currentResponse s) as [w0|] eqn:E; [|simpl; rewrite E; exact H].
    destruct (H w0 eq_refl) as [H1 H2].
    unfold sse_close. destruct (closed w0); simpl; [intros w [= <-]; auto|].
    destruct (controller_close (controller w0)); simpl; intros w [= <-]; auto.
Qed.

Lemma plain_writer_stable error : error_stable error plain_writer.
Proof.
  split; [|split].
  - intros declared op s. apply plain_writer_op.
  - intros h s H w Hw. apply H. exact Hw.
  - intros s H w Hw. apply H. exact Hw.
Qed.

Lemma next_plain_writer declared req wrap chain at_end fuel :
  ends_in plain_writer (next declared req wrap chain at_end fuel new_Store).
Proof.
  apply drive_keeps.
  - intros op s. apply plain_writer_op.
  - intros h s H w Hw. apply H. exact Hw.
  - intros w Hw. discriminate.
Qed.

Lemma not_thrown_rethrow wrap o : not_thrown (rethrow wrap o) <-> not_thrown o.
Proof. destruct o; simpl; tauto. Qed.

Lemma calm_run declared nx sc :
  Calm sc -> (forall s, not_thrown (nx s)) ->
  forall s, not_thrown (run_script declared nx sc s).
Proof.
  intros Hsc Hnx.
  induction Hsc as [|op k Hq Hk IH|f Hf IH|k Hk IH|b h k Hh IHh Hk IHk|b h k Hb IHb Hk IHk];
    intros s; simpl.
  - exact I.
  - pose proof (quiet_normal declared op s Hq) as Hn.
    destruct (apply_op declared op s) as [[[]|e] s']; simpl in Hn; [apply IH|discriminate].
  - apply IH.
  - specialize (Hnx s). destruct (nx s) as [s'|e s'|]; simpl in *; auto.
  - destruct (run_script declared nx b s) as [s'|e s'|]; [apply IHk| |exact I].
    specialize (IHh e s').
    destruct (run_script declared nx (h e) s') as [s''|e' s''|]; simpl in *; auto.
  - specialize (IHb s).
    destruct (run_script declared nx b s) as [s'|e s'|]; simpl in *; auto. contradiction.
Qed.

Lemma calm_drive declared cursor enter body_of wrap chain :
  (forall h, In h chain -> Calm (body_of h)) ->
  forall fuel s, not_thrown (drive declared cursor enter body_of wrap chain None fuel s).
Proof.
  intros Hc. induction fuel as [|fuel IH]; intros s; simpl.
  - destruct (chain !! cursor s); exact I.
  - destruct (chain !! cursor s) as [h|] eqn:E; [|exact I].
    apply not_thrown_rethrow. apply calm_run; [|exact IH].
    apply Hc. apply list_elem_of_In, list_elem_of_lookup. eauto.
Qed.

(** The response stays one that the host accepts. *)
Lemma buildable_op declared op s :
  accepted_status op -> buildable s -> buildable (snd (apply_op declared op s)).
Proof.
  intros Ha [Hs Hw]. split; [|apply plain_writer_op, Hw].
  destruct op; simpl in *; try exact Hs; try exact Ha.
  - unfold res_header. destruct (headers_set name value (headers (res s))); exact Hs.
  - unfold res_send. destruct (String.eqb _ _); exact Hs.
  - destruct declared; exact Hs.
  - destruct (currentResponse s) as [w|]; [|exact Hs]. destruct (sse_send data w); exact Hs.
  - destruct (currentResponse s) as [w|]; [|exact Hs]. destruct (sse_close w); exact Hs.
Qed.

Lemma buildable_run declared nx sc :
  Accepted sc -> (forall s, buildable s -> ends_in buildable (nx s)) ->
  forall s, buildable s -> ends_in buildable (run_script declared nx sc s).
Proof.
  intros Hsc Hnx.
  induction Hsc as [|op k Ha Hk IH|f Hf IH|k Hk IH|b h k Hb IHb Hh IHh Hk IHk|e];
    intros s Hs; simpl.
  - exact Hs.
  - pose proof (buildable_op declared op s Ha Hs) as H1.
    destruct (apply_op declared op s) as [[[]|e] s']; simpl in *; auto.
  - apply IH, Hs.
  - specialize (Hnx s Hs). destruct (nx s) as [s'|e s'|]; simpl in *; auto.
  - specialize (IHb s Hs).
    destruct (run_script declared nx b s) as [s'|e s'|]; simpl in *; auto.
    specialize (IHh e s' IHb).
    destruct (run_script declared nx (h e) s') as [s''|e' s''|]; simpl in *; auto.
  - exact Hs.
Qed.

Lemma buildable_drive declared cursor enter body_of wrap chain at_end :
  (forall h, In h chain -> Accepted (body_of h)) ->
  (forall h s, buildable s -> buildable (enter h s)) ->
  forall fuel s, buildable s ->
    ends_in buildable (drive declared cursor enter body_of wrap chain at_end fuel s).
Proof.
  intros Hc Henter. induction fuel as [|fuel IH]; intros s Hs; simpl.
  - destruct (chain !! cursor s); [exact I|]. destruct at_end; exact Hs.
  - destruct (chain !! cursor s) as [h|] eqn:E; [|destruct at_end; exact Hs].
    apply ends_in_rethrow. apply buildable_run; auto.
    apply Hc. apply list_elem_of_In, list_elem_of_lookup. eauto.
Qed.

Lemma buildable_new : buildable new_Store.
Proof. split; [split; [simpl; lia|reflexivity]|]. intros w Hw. discriminate. Qed.

(** A response that the host accepts is the reply. *)
Lemma buildable_final s :
  buildable s ->
  exists w, final_response s = Normal w
            /\ status w = match currentResponse s with
                          | Some _ => 200%Z
                          | None => statusCode (res s)
                          end.
Proof.
  intros [[Hc Hn] Hw]. unfold final_response.
  destruct (currentResponse s) as [w|] eqn:E.
  - destruct (Hw w E) as [H1 H2]. unfold wire_of_sse. rewrite H1, H2.
    eexists. split; reflexivity.
  - unfold wire_of_res, construct. cbn [status wire_body wire_headers].
    destruct (Z.ltb_spec (statusCode (res s)) 200); [lia|].
    destruct (Z.ltb_spec 599 (statusCode (res s))); [lia|]. cbn [orb]. rewrite Hn.
    destruct (body (res s)); cbn [wire_of_body];
      try destruct (headers (res s) !! "content-type");
      eexists; split; reflexivity.
Qed.

Lemma calm_next declared req wrap chain :
  (forall h, In h chain -> Calm (call3 h req) /\ Accepted (call3 h req)) ->
  exists s w,
    next declared req wrap chain None (length chain) new_Store = Done s
    /\ delivered (calls s) = []
    /\ final_response s = Normal w.
Proof.
  intros Hc.
  pose proof (calm_drive declared index enter_handler (fun h => call3 h req) wrap chain
                (fun h Hh => proj1 (Hc h Hh)) (length chain) new_Store) as Hn.
  pose proof (next_live declared req wrap chain None) as Hl.
  pose proof (drive_keeps declared index enter_handler (fun g => call3 g req) wrap
                chain None (fun s => delivered (calls s) = [])
                (proj1 (no_delivery_stable declared))
                (proj2 (no_delivery_stable declared))
                (length chain) new_Store eq_refl) as Hk.
  pose proof (buildable_drive declared index enter_handler (fun g => call3 g req) wrap
                chain None (fun h Hh => proj2 (Hc h Hh))
                (fun h s H => H) (length chain) new_Store buildable_new) as Hb.
  unfold next in *.
  destruct (drive declared index enter_handler _ wrap chain None (length chain) new_Store)
    as [s|e s|]; [|contradiction|congruence].
  destruct (buildable_final s Hb) as (w & Hw & _).
  exists s, w. split; [reflexivity|]. split; [exact Hk|exact Hw].
Qed.

(** X2.  Let a route match, let the body of the request be readable, and let
    no handler of the chain be able to fail: its operations are operations
    on [res] with headers that the host accepts, the statuses it sets are
    statuses that the host accepts together with a body, and it throws
    nothing that it does not catch.  Then no error handler is called, and
    [handle] of both revisions and [listen] of the second one answer with
    the response that the handlers left, without passing through any
    [catch].  [listen] of the first revision answers 500, because its
    callback reads a variable that it does not declare. *)
Theorem calm_chain_is_answered_from_res (app : Halin) (raw : RawRequest)
    (m : RouteMatch) :
  findRoute app (raw_method raw) (raw_path raw) = Some m ->
  readable_body raw ->
  (forall h req, In h (middlewares app ++ route_handlers (route m)) ->
                 Calm (call3 h req) /\ Accepted (call3 h req)) ->
  (exists s w, Rev1.handle app raw = Some (mkResult (Normal w) s)
               /\ final_response s = Normal w
               /\ delivered (calls s) = [])
  /\ (exists s w, Rev2.handle app raw = Some (mkResult (Normal w) s)
                  /\ final_response s = Normal w
                  /\ delivered (calls s) = [])
  /\ (forall dev, exists s w,
        Rev2.listen dev app raw = Some (mkResult (Normal w) s)
        /\ final_response s = Normal w
        /\ delivered (calls s) = [])
  /\ (exists s,
        Rev1.listen app raw
        = Some (mkResult
                  (Normal (mkWire 500 json_headers
                             (WText (error_body "Internal Server Error")))) s)
        /\ delivered (calls s) = []).
Proof.
  intros Hm Hb Hc.
  destruct (readable_handle_body raw Hb) as [v Hv].
  destruct (readable_listen_body1 raw Hb) as [v1 Hv1].
  destruct (readable_listen_body2 raw Hb) as [v2 Hv2].
  split; [|split; [|split]].
  - unfold Rev1.handle, Rev1.handle_try. rewrite Hm, Hv. unfold handle_dispatch.
    destruct (calm_next true (Rev1.context raw (params m) v)
                (fun e => e) (middlewares app ++ route_handlers (route m)))
      as (s & w & -> & Hs & Hw); [intros h Hh; apply Hc, Hh|].
    exists s, w. rewrite Hw. auto.
  - unfold Rev2.handle, Rev2.handle_try. rewrite Hm, Hv. unfold handle_dispatch.
    destruct (calm_next true (Rev2.handle_context raw (params m) v)
                (fun e => e) (middlewares app ++ route_handlers (route m)))
      as (s & w & -> & Hs & Hw); [intros h Hh; apply Hc, Hh|].
    exists s, w. rewrite Hw. auto.
  - intros dev. unfold Rev2.listen, Rev2.listen_try. rewrite Hm, Hv2.
    unfold Rev2.listen_dispatch.
    destruct (calm_next true (Rev2.listen_context raw (params m) v2)
                Rev2.middleware_error (middlewares app ++ route_handlers (route m)))
      as (s & w & -> & Hs & Hw); [intros h Hh; apply Hc, Hh|].
    exists s, w. rewrite Hw. auto.
  - unfold Rev1.listen, Rev1.listen_try. rewrite Hm, Hv1.
    unfold Rev1.listen_dispatch.
    destruct (calm_next false (Rev1.context raw (params m) v1)
                (fun e => e) (middlewares app ++ route_handlers (route m)))
      as (s & w & -> & Hs & Hw); [intros h Hh; apply Hc, Hh|].
    exists s. split; [|exact Hs]. cbn [settle]. unfold Rev1.listen_boundary.
    cbn [Js.is_HalinError currentResponse_undeclared].
    rewrite construct_json by apply replies_500. reflexivity.
Qed.

Lemma calm_chain_is_answered_from_res_witness :
  exists s w,
    Rev2.handle (mkHalin [mkRoute "GET" "/x" (RegExp.literal "^/x$") [answers]]
                   [passes] [] "" [])
      (bare "GET" "/x")
    = Some (mkResult (Normal w) s)
    /\ final_response s = Normal w
    /\ delivered (calls s) = [].
Proof.
  refine (proj1 (proj2
    (calm_chain_is_answered_from_res
       (mkHalin [mkRoute "GET" "/x" (RegExp.literal "^/x$") [answers]] [passes] [] "" [])
       (bare "GET" "/x")
       (mkRouteMatch (mkRoute "GET" "/x" (RegExp.literal "^/x$") [answers]) ∅)
       _ _ _))).
  - vm_compute. reflexivity.
  - exact I.
  - intros h req [<-|[<-|[]]].
    + split; [apply calm_await, calm_return|apply acc_await, acc_return].
    + split; [apply calm_do; [reflexivity|apply calm_return]
             |apply acc_do; [exact I|apply acc_return]].
Defined.

(** ** A [HalinError] that nothing recovers *)

(** The reply of a request whose failure nothing recovered. *)
Lemma unrecovered_of_reaches handlers req e unrecovered reply :
  error_reaches handlers req e unrecovered reply ->
  (forall g, In g handlers -> Forwards (call4 g e req)) ->
  exists s, reply = Some (mkResult unrecovered s)
            /\ delivered (calls s) = repeat e (length handlers).
Proof.
  intros ([w s] & -> & Hd & H) Hf. simpl in *. exists s.
  destruct handlers as [|first rest].
  - destruct H as [-> ->]. auto.
  - destruct H as [_ H]. destruct (H Hf) as [H1 ->]. auto.
Qed.



(** ** Error handlers *)

(** The error chain from its start, when its first handler throws. *)
Lemma recover_first_raises declared req wrap first rest e e' s :
  Raises e' (call4 first e req) ->
  exists s',
    recover declared req wrap (first :: rest) e s = Threw (wrap e') s'
    /\ calls s' = calls s ++ [InvokedOnError 0 first e].
Proof.
  intros Hr. unfold recover, errorNext.
  set (nx := drive declared errorIndex (enter_errorHandler e)
               (fun h => call4 h e req) wrap (first :: rest) (Some e) (length rest)).
  cbn [length drive reset_errorIndex errorIndex lookup list_lookup]. fold nx.
  destruct (raises_run declared e' _ Hr nx
              (enter_errorHandler e first (reset_errorIndex s))) as [s' E].
  pose proof (run_script_keeps declared
                (fun s1 => calls s1 = calls s ++ [InvokedOnError 0 first e])
                probe) as Hk.
  specialize (Hk (fun op s1 H1 => eq_trans (apply_op_calls declared op s1) H1)
                 (fun s1 H1 => I) (call4 first e req)
                 (enter_errorHandler e first (reset_errorIndex s)) eq_refl).
  destruct (raises_run declared e' _ Hr probe
              (enter_errorHandler e first (reset_errorIndex s))) as [s2 E2].
  assert (Hsame : run_script declared nx (call4 first e req)
                    (enter_errorHandler e first (reset_errorIndex s))
                  = run_script declared probe (call4 first e req)
                      (enter_errorHandler e first (reset_errorIndex s))).
  { apply run_script_probe. rewrite E2. discriminate. }
  rewrite Hsame, E2 in E. injection E as <-. rewrite E2 in Hk.
  exists s2. cbn [enter_errorHandler reset_errorIndex errorIndex] in *.
  rewrite Hsame, E2. split; [reflexivity|exact Hk].
Qed.

(** An [Error] is converted once, by the first call of [next] that it
    leaves. *)
Lemma caught_error e i :
  Js.is_Error e = true -> Rev2.caught i e = Rev2.middleware_error e.
Proof.
  intros He. destruct (Js.is_HalinError e) eqn:Ht.
  - rewrite caught_halin by exact Ht. symmetry. apply as_HalinError_halin, Ht.
  - rewrite (caught_text e i _ Ht (message_text_error _ e He)).
    symmetry. apply as_HalinError_text; [exact Ht|apply message_text_error, He].
Qed.

(** What the final [catch] of the second revision's [listen] answers for a
    [HalinError]. *)
Lemma listen2_boundary_halin dev e :
  Js.is_HalinError e = true -> Rev2.listen_boundary dev e = typed_reply e.
Proof.
  intros Ht. unfold Rev2.listen_boundary. destruct e; try discriminate. reflexivity.
Qed.



(** The error chain from its start, when its first handler is [reports] and
    the failure is an [Error]. *)
Lemma recover_reports declared req wrap rest e s :
  Js.is_Error e = true ->
  exists s',
    recover declared req wrap (reports :: rest) e s = Done s'
    /\ res s' = res_json (Js.Obj [("error", Js.Str (Js.message e))])
                  (res_status 500 (res s))
    /\ calls s' = calls s ++ [InvokedOnError 0 reports e].
Proof.
  intros He. unfold recover, errorNext.
  destruct e as [code m|name m|v]; [| |discriminate]; eexists;
    cbn [length drive reset_errorIndex errorIndex lookup list_lookup reports call4
         run_script apply_op rethrow enter_errorHandler with_res res calls
         currentResponse index Js.get_message Js.message];
    (split; [reflexivity|]; split; reflexivity).
Qed.

(** The reply that [handle] builds from what [reports] leaves in [res]. *)
Lemma wire_of_reports text r :
  exists w,
    wire_of_res (res_json (Js.Obj [("error", Js.Str text)]) (res_status 500 r)) = Normal w
    /\ status w = 500%Z
    /\ headers_get "Content-Type" (wire_headers w) = Some "application/json"
    /\ wire_body w = WText (error_body text).
Proof.
  eexists. split.
  - unfold wire_of_res.
    apply (construct_text _ _ _ "application/json" replies_500).
    unfold res_json, res_content_type. cbn [headers]. apply lookup_insert_eq.
  - cbn [status wire_headers wire_body]. repeat split.
    unfold headers_get, res_json, res_content_type. cbn [headers].
    apply lookup_insert_eq.
Qed.

Lemma test_app_answer coerce (app : Halin) (req : Request)
    (pre : list JsFn) (h : JsFn) (post : list JsFn) (e d : Js.Thrown) at_end :
  errorHandlers app = errorHandlers createTestApp ->
  (forall g, In g pre -> Forwards (call3 g req)) ->
  Raises e (call3 h req) ->
  coerce e = Normal d -> Js.is_Error d = true ->
  exists s w,
    settle (handle_boundary coerce)
      (handle_dispatch coerce app req (pre ++ h :: post) at_end)
    = Some (mkResult (Normal w) s)
    /\ status w = 500%Z
    /\ headers_get "Content-Type" (wire_headers w) = Some "application/json"
    /\ wire_body w = WText (error_body (Js.message d))
    /\ delivered (calls s) = [d].
Proof.
  intros He Hpre Hh Hd Herr.
  destruct (next_raise_plain true req pre h post at_end e Hpre Hh) as (s & E & Hs).
  unfold handle_dispatch, handle_catch. rewrite E, He, Hd.
  change (errorHandlers createTestApp) with [reports].
  destruct (recover_reports true req (fun x => x) [] d s Herr) as (s' & -> & Hr & Hc).
  rewrite Hr.
  destruct (wire_of_reports (Js.message d) (res s)) as (w & -> & Hw).
  exists s', w. split; [reflexivity|].
  destruct Hw as (H1 & H2 & H3). repeat split; try assumption.
  rewrite Hc, delivered_app, Hs. reflexivity.
Qed.



(** ** The first revision's [listen] *)

(** X6.  [listen] of the first revision never answers with the response the
    handlers built: whatever the application and the request, its reply is
    the one its final [catch] makes of some error, a JSON body with the field
    [error], unless the status code of a [HalinError] is one that no response
    can have.  The callback reads [currentResponse], which it does not
    declare, right after the chain. *)
Theorem listen1_answers_only_errors (app : Halin) (raw : RawRequest) (r : Result) :
  Rev1.listen app raw = Some r ->
  exists e,
    response r = Rev1.listen_boundary e
    /\ (forall w, response r = Normal w ->
          wire_headers w = json_headers
          /\ exists text, wire_body w = WText (error_body text))
    /\ (Js.is_HalinError e = false \/ replies_with_body (halin_status e) ->
        exists w, response r = Normal w).
Proof.
  assert (Hb : forall e,
             (forall w, Rev1.listen_boundary e = Normal w ->
                wire_headers w = json_headers
                /\ exists text, wire_body w = WText (error_body text))
             /\ (Js.is_HalinError e = false \/ replies_with_body (halin_status e) ->
                 exists w, Rev1.listen_boundary e = Normal w)).
  { intros e. unfold Rev1.listen_boundary, typed_reply. split.
    - intros w Hw.
      destruct (Js.is_HalinError e); apply construct_json_inv in Hw; subst w;
        simpl; eauto.
    - intros H. destruct (Js.is_HalinError e).
      + destruct H as [H|H]; [discriminate|]. rewrite (construct_json _ _ H). eauto.
      + rewrite (construct_json _ _ replies_500). eauto. }
  assert (Hf : forall a, (forall w s, a <> Returned w s) ->
                 settle Rev1.listen_boundary a = Some r ->
                 exists e, response r = Rev1.listen_boundary e
                           /\ (forall w, response r = Normal w ->
                                 wire_headers w = json_headers
                                 /\ exists text, wire_body w = WText (error_body text))
                           /\ (Js.is_HalinError e = false
                               \/ replies_with_body (halin_status e) ->
                               exists w, response r = Normal w)).
  { intros [w s|e s|] Ha; simpl; [destruct (Ha w s eq_refl)| |discriminate].
    intros [= <-]. exists e. simpl. split; [reflexivity|apply Hb]. }
  unfold Rev1.listen, Rev1.listen_try. apply Hf. intros w s.
  destruct (findRoute app _ _) as [m|]; [|discriminate].
  destruct (Rev1.listen_body raw) as [v|e]; [|discriminate].
  unfold Rev1.listen_dispatch.
  destruct (next false _ _ _ None _ new_Store) as [s1|e1 s1|]; try discriminate.
  destruct (recover false _ _ _ e1 s1); discriminate.
Qed.

Lemma listen1_answers_only_errors_witness :
  exists e,
    Normal (mkWire 500 json_headers (WText (error_body "Internal Server Error")))
    = Rev1.listen_boundary e
    /\ (forall w,
          Normal (mkWire 500 json_headers (WText (error_body "Internal Server Error")))
          = Normal w ->
          wire_headers w = json_headers
          /\ exists text, wire_body w = WText (error_body text))
    /\ (Js.is_HalinError e = false \/ replies_with_body (halin_status e) ->
        exists w,
          Normal (mkWire 500 json_headers (WText (error_body "Internal Server Error")))
          = Normal w).
Proof.
  apply (listen1_answers_only_errors
           (mkHalin [mkRoute "GET" "/x" (RegExp.literal "^/x$") [answers]] [] [] "" [])
           (bare "GET" "/x")
           (mkResult
              (Normal (mkWire 500 json_headers (WText (error_body "Internal Server Error"))))
              (mkStore (res_json (Js.Obj [("ok", Js.Bool true)]) new_Response) None 1 0
                 [Invoked 0 answers]))).
  vm_compute. reflexivity.
Defined.

(** ** A request that no route matches *)

Lemma positions_trace k l : positions (trace_from Invoked k l) = seq k (length l).
Proof.
  revert k. induction l as [|h l IH]; intros k; simpl; [reflexivity|].
  f_equal. apply IH.
Qed.

Lemma positions_kept (l : list nat) error :
  error_stable error (fun s => positions (calls s) = l).
Proof.
  repeat split.
  - intros declared op s H. rewrite apply_op_calls. exact H.
  - intros h s H. simpl. rewrite positions_app, app_nil_r. exact H.
  - intros s H. exact H.
Qed.

(** The chain of forwarding handlers, with a failure past its end. *)
Lemma next_forward_end declared req chain e :
  (forall g, In g chain -> Forwards (call3 g req)) ->
  exists s,
    next declared req (fun x => x) chain (Some e) (length chain) new_Store = Threw e s
    /\ positions (calls s) = seq 0 (length chain)
    /\ delivered (calls s) = [].
Proof.
  intros Hc.
  assert (Hd : ends_in (fun s => delivered (calls s) = [])
                 (next declared req (fun x => x) chain (Some e) (length chain) new_Store)).
  { apply (drive_keeps declared index enter_handler (fun g => call3 g req) (fun x => x)
             chain (Some e) (fun s => delivered (calls s) = [])
             (proj1 (no_delivery_stable declared))
             (proj2 (no_delivery_stable declared))). reflexivity. }
  assert (G : forall fuel s, length chain - index s <= fuel ->
                exists s', drive declared index enter_handler (fun g => call3 g req)
                             (fun x => x) chain (Some e) fuel s = Threw e s').
  { induction fuel as [|fuel IH]; intros s Hf.
    - rewrite drive_end by (apply lookup_ge_None_2; lia). eauto.
    - destruct (chain !! index s) as [g|] eqn:E.
      + rewrite (drive_step declared index enter_handler (fun g => call3 g req)
                   (fun x => x) _ _ _ _ g E).
        destruct (forwards_run declared (fun s1 => index s1 = S (index s))
                    (drive declared index enter_handler (fun g => call3 g req)
                       (fun x => x) chain (Some e) fuel)
                    e (call3 g req)) with (s := enter_handler g s) as [s2 ->].
        * intros op s1 H1. rewrite apply_op_index. exact H1.
        * intros s1 H1. apply IH. lia.
        * apply Hc. apply list_elem_of_In, list_elem_of_lookup. eauto.
        * reflexivity.
        * simpl. eauto.
      + rewrite drive_end by exact E. eauto. }
  destruct (G (length chain) new_Store) as [s E]; [simpl; lia|].
  exists s. split; [exact E|]. unfold next in Hd. rewrite E in Hd. simpl in Hd.
  split; [|exact Hd].
  destruct (list_eq_nil_dec chain) as [->|Hne].
  - simpl in E. injection E as <-. reflexivity.
  - destruct (exists_last Hne) as (pre & lst & ->).
    pose proof (drive_all declared index enter_handler Invoked (fun h => call3 h req)
                  (fun x => x) (fun h s => eq_refl) (fun h s => eq_refl)
                  (apply_op_index declared) pre lst (Some e) (length (pre ++ [lst]))) as Ha.
    specialize (Ha (fun g Hg s' => forwards_probe declared _
                      (Hc g (proj2 (in_app_iff pre [lst] g) (or_introl Hg))) s')
                   new_Store (Nat.le_0_l _)).
    rewrite E in Ha. simpl in Ha. destruct Ha as [_ Ha].
    rewrite Ha, positions_trace. reflexivity.
Qed.



(** ** A body that cannot be read *)

(** X8.  Let a route match a request that has a body, declares JSON in its
    content type, and whose body the host cannot parse.  [listen] answers
    400 itself, before the chain starts: no handler and no error handler is
    called.  The first revision writes "Invalid JSON body", the second one
    "Invalid request body: " and the message of the host's error.  [handle]
    of the second revision hands the failure 400 "Invalid JSON body" to the
    error chain, without calling a handler of the chain. *)
Theorem unreadable_json_body_is_answered_400 (app : Halin) (raw : RawRequest)
    (m : RouteMatch) (b : RawBody) (e : Js.Thrown) :
  findRoute app (raw_method raw) (raw_path raw) = Some m ->
  raw_body raw = Some b ->
  content_type_includes "application/json" raw = true ->
  body_json b = Abrupt e ->
  Rev1.listen app raw
  = Some (mkResult
            (Normal (mkWire 400 json_headers (WText (error_body "Invalid JSON body"))))
            new_Store)
  /\ (forall dev text,
        Js.message_text "error.message" e = Normal text ->
        Rev2.listen dev app raw
        = Some (mkResult
                  (Normal (mkWire 400 json_headers
                             (WText (error_body ("Invalid request body: " +:+ text)))))
                  new_Store))
  /\ (Js.is_Error e = true -> Js.message_text "error.message" e = Normal (Js.message e))
  /\ error_reaches (errorHandlers app) (Rev2.handle_context raw (params m) Js.Null)
       (Js.HalinError 400 "Invalid JSON body")
       (handle_boundary Rev2.coerce (Js.HalinError 400 "Invalid JSON body"))
       (Rev2.handle app raw)
  /\ exists r, Rev2.handle app raw = Some r /\ positions (calls (final r)) = [].
Proof.
  intros Hm Hb Hct He. split; [|split; [|split; [|split]]].
  - unfold Rev1.listen, Rev1.listen_try, Rev1.listen_body. rewrite Hm, Hb, Hct, He.
    reflexivity.
  - intros dev text Ht. unfold Rev2.listen, Rev2.listen_try, Rev2.listen_body.
    rewrite Hm, Hb, Hct, He, Ht. cbn [settle]. unfold Rev2.listen_boundary.
    cbn [as_Error Js.is_HalinError]. rewrite typed_reply_halin; [reflexivity|].
    split; [lia|reflexivity].
  - apply message_text_error.
  - unfold Rev2.handle, Rev2.handle_try, handle_body. rewrite Hm, Hb, Hct, He.
    apply handle_catch_reaches; reflexivity.
  - unfold Rev2.handle, Rev2.handle_try, handle_body. rewrite Hm, Hb, Hct, He.
    unfold handle_catch.
    change (Rev2.coerce (Js.HalinError 400 "Invalid JSON body"))
      with (Normal (A:=Js.Thrown) (Js.HalinError 400 "Invalid JSON body")).
    cbv beta iota.
    match goal with
    | |- context [recover true ?q ?w ?hs ?x new_Store] =>
        pose proof (recover_keeps true q w hs x _ new_Store (positions_kept [] x) eq_refl)
          as Hk;
        pose proof (recover_live true q w hs x new_Store) as Hl;
        destruct (recover true q w hs x new_Store) as [s'|e' s'|]
    end; [| |congruence]; simpl in Hk; cbv beta iota.
    + destruct (settle_answer (handle_boundary Rev2.coerce) (wire_of_res (res s')) s')
        as [w ->]. eexists. split; [reflexivity|exact Hk].
    + eexists. split; [reflexivity|exact Hk].
Qed.

Lemma unreadable_json_body_is_answered_400_witness :
  Rev1.listen
    (mkHalin [mkRoute "POST" "/x" (RegExp.literal "^/x$") [answers]] [] [] "" [])
    (mkRaw "POST" "/x" [] (headers_of [("Content-Type", "application/json")])
       (Some (mkRawBody "{" (Abrupt (Js.Error "SyntaxError" "JSON Parse error"))
                (Normal [])))
       "http://localhost/x")
  = Some (mkResult
            (Normal (mkWire 400 json_headers (WText (error_body "Invalid JSON body"))))
            new_Store).
Proof.
  refine (proj1 (unreadable_json_body_is_answered_400
                  (mkHalin [mkRoute "POST" "/x" (RegExp.literal "^/x$") [answers]]
                     [] [] "" [])
                  (mkRaw "POST" "/x" [] (headers_of [("Content-Type", "application/json")])
                     (Some (mkRawBody "{"
                              (Abrupt (Js.Error "SyntaxError" "JSON Parse error"))
                              (Normal [])))
                     "http://localhost/x")
                  (mkRouteMatch (mkRoute "POST" "/x" (RegExp.literal "^/x$") [answers]) ∅)
                  (mkRawBody "{" (Abrupt (Js.Error "SyntaxError" "JSON Parse error"))
                     (Normal []))
                  (Js.Error "SyntaxError" "JSON Parse error") _ _ _ _)).
  - vm_compute. reflexivity.
  - reflexivity.
  - vm_compute. reflexivity.
  - reflexivity.
Defined.

(** ** The reply of a request that opened an SSE writer *)

Lemma final_response_writer s w :
  plain_writer s -> currentResponse s = Some w ->
  final_response s = Normal (mkWire 200 sse_wire_headers (WEvents (controller w))).
Proof.
  intros H Hw. destruct (H w Hw) as [H1 H2].
  unfold final_response, wire_of_sse. rewrite Hw, H1, H2. reflexivity.
Qed.

(** X9.  In [listen] of the second revision, when a handler opened an SSE
    writer with [res.sse()], the reply is either an error reply of the final
    [catch], or the stream of the writer with status 200 and exactly the
    headers [Content-Type: text/event-stream], [Cache-Control: no-cache] and
    [Connection: keep-alive].  What handlers set with [res.status] and
    [res.header] is not part of such a reply.  Handlers are taken to use the
    methods of [res] and of the writer only. *)
Theorem sse_reply_ignores_res (dev : bool) (app : Halin) (raw : RawRequest)
    (r : Result) (w : SSEWriter) :
  Rev2.listen dev app raw = Some r ->
  currentResponse (final r) = Some w ->
  (response r = Normal (mkWire 200 sse_wire_headers (WEvents (controller w)))
   \/ exists e, response r = Rev2.listen_boundary dev e)
  /\ headers_get "Content-Type" sse_wire_headers = Some "text/event-stream"
  /\ headers_get "Cache-Control" sse_wire_headers = Some "no-cache"
  /\ headers_get "Connection" sse_wire_headers = Some "keep-alive"
  /\ size sse_wire_headers = 3.
Proof.
  intros Hr Hw. split; [|repeat split; vm_compute; reflexivity].
  unfold Rev2.listen in Hr.
  destruct (Rev2.listen_try app raw) as [wire s|e s|] eqn:Et; simpl in Hr;
    [| |discriminate]; injection Hr as <-; simpl in *.
  - left. unfold Rev2.listen_try in Et.
    destruct (findRoute app _ _) as [m|]; [|discriminate].
    destruct (Rev2.listen_body raw) as [v|e]; [|discriminate].
    unfold Rev2.listen_dispatch in Et.
    match type of Et with
    | context [next true ?q ?wr ?ch None ?f new_Store] =>
        pose proof (next_plain_writer true q wr ch None f) as Hn;
        destruct (next true q wr ch None f new_Store) as [s1|e1 s1|]
    end; simpl in Hn; [| |discriminate].
    + destruct (final_response s1) as [w1|e1] eqn:Ef; simpl in Et; [|discriminate].
      injection Et as <- <-. rewrite <- Ef. apply final_response_writer; assumption.
    + match type of Et with
      | context [recover true ?q ?wr ?hs ?x ?s0] =>
          pose proof (recover_keeps true q wr hs x plain_writer s0
                        (plain_writer_stable x) Hn) as Hk;
          destruct (recover true q wr hs x s0) as [s2|e2 s2|]
      end; simpl in Hk; [|discriminate|discriminate].
      destruct (final_response s2) as [w1|e3] eqn:Ef; simpl in Et; [|discriminate].
      injection Et as <- <-. rewrite <- Ef. apply final_response_writer; assumption.
  - right. exists e. reflexivity.
Qed.

Lemma sse_reply_ignores_res_witness :
  (Normal (mkWire 200 sse_wire_headers (WEvents (mkController Readable [] 0)))
   = Normal (mkWire 200 sse_wire_headers (WEvents (controller new_SSEWriter)))
   \/ exists e, Normal (mkWire 200 sse_wire_headers (WEvents (mkController Readable [] 0)))
                = Rev2.listen_boundary false e)
  /\ headers_get "Content-Type" sse_wire_headers = Some "text/event-stream"
  /\ headers_get "Cache-Control" sse_wire_headers = Some "no-cache"
  /\ headers_get "Connection" sse_wire_headers = Some "keep-alive"
  /\ size sse_wire_headers = 3.
Proof.
  refine (sse_reply_ignores_res false
            (mkHalin [mkRoute "GET" "/events" (RegExp.literal "^/events$")
                        [mkFn 2 (fun _ => Do (OpStatus 201) (Do OpSse Return))
                           (fun _ _ => Return)]] [] [] "" [])
            (bare "GET" "/events")
            (mkResult
               (Normal (mkWire 200 sse_wire_headers (WEvents (mkController Readable [] 0))))
               (mkStore (res_status 201 new_Response) (Some new_SSEWriter) 1 0
                  [Invoked 0 (mkFn 2 (fun _ => Do (OpStatus 201) (Do OpSse Return))
                                (fun _ _ => Return))]))
            new_SSEWriter _ _).
  - vm_compute. reflexivity.
  - reflexivity.
Defined.

(** ** The reply of [handle] after the error chain *)

Lemma wire_of_res_no_events r c w :
  wire_of_res r = Normal w -> wire_body w <> WEvents c.
Proof.
  unfold wire_of_res. intros H. apply construct_keeps in H. destruct H as (_ & -> & _).
  cbn [wire_body]. destruct (body r); discriminate.
Qed.

Lemma handle_boundary_no_events coerce e c w :
  handle_boundary coerce e = Normal w -> wire_body w <> WEvents c.
Proof.
  unfold handle_boundary, typed_reply, untyped_reply.
  destruct (coerce e) as [d|t]; [|discriminate].
  destruct (Js.is_HalinError d).
  - intros H. apply construct_keeps in H. destruct H as (_ & -> & _). discriminate.
  - destruct (Js.get_message _ d); [|discriminate].
    intros H. apply construct_keeps in H. destruct H as (_ & -> & _). discriminate.
Qed.

Lemma handle_catch_no_events coerce app req error s r c w :
  settle (handle_boundary coerce) (handle_catch coerce app req error s) = Some r ->
  response r = Normal w ->
  wire_body w <> WEvents c.
Proof.
  unfold handle_catch.
  destruct (coerce error) as [d|t].
  - destruct (recover true req _ (errorHandlers app) d s) as [s'|e' s'|]; simpl;
      [| |discriminate].
    + destruct (wire_of_res (res s')) as [w'|t] eqn:Ew; simpl; intros [= <-]; simpl.
      * intros [= <-]. eapply wire_of_res_no_events, Ew.
      * apply handle_boundary_no_events.
    + intros [= <-]; simpl. apply handle_boundary_no_events.
  - simpl. intros [= <-]; simpl. apply handle_boundary_no_events.
Qed.

Lemma handle_dispatch_no_events coerce app req chain at_end r c w :
  settle (handle_boundary coerce) (handle_dispatch coerce app req chain at_end) = Some r ->
  delivered (calls (final r)) <> [] ->
  response r = Normal w ->
  wire_body w <> WEvents c.
Proof.
  unfold handle_dispatch.
  pose proof (drive_keeps true index enter_handler (fun g => call3 g req) (fun e => e)
                chain at_end (fun s => delivered (calls s) = [])
                (proj1 (no_delivery_stable true)) (proj2 (no_delivery_stable true))
                (length chain) new_Store eq_refl) as Hk.
  fold (next true req (fun e => e) chain at_end) in Hk.
  destruct (next true req _ chain at_end (length chain) new_Store) as [s|e s|];
    simpl in Hk.
  - destruct (final_response s) as [w'|t].
    + simpl. intros [= <-] Hd. simpl in Hd. contradiction.
    + intros Hr _. eapply handle_catch_no_events, Hr.
  - intros Hr _. eapply handle_catch_no_events, Hr.
  - discriminate.
Qed.

(** X10.  In [handle] of both revisions, once an error handler was called
    the reply is never the stream of an SSE writer, even when a handler had
    opened one before the failure: after the error chain [handle] builds the
    reply from [res] alone. *)
Theorem handle_after_errors_never_streams (app : Halin) (raw : RawRequest)
    (r : Result) (c : Controller) (w : Wire) :
  (Rev1.handle app raw = Some r \/ Rev2.handle app raw = Some r) ->
  delivered (calls (final r)) <> [] ->
  response r = Normal w ->
  wire_body w <> WEvents c.
Proof.
  intros [Hr|Hr] Hd.
  - unfold Rev1.handle, Rev1.handle_try in Hr.
    destruct (handle_body raw) as [v|e].
    + eapply handle_dispatch_no_events; eauto.
    + eapply handle_catch_no_events, Hr.
  - unfold Rev2.handle, Rev2.handle_try in Hr.
    destruct (findRoute app _ _) as [m|]; [|eapply handle_catch_no_events, Hr].
    destruct (handle_body raw) as [v|e].
    + eapply handle_dispatch_no_events; eauto.
    + eapply handle_catch_no_events, Hr.
Qed.

(** ** Setting up an application *)

Lemma RouterCall_induction (P : RouterCall -> Prop) :
  (forall v path handlers, P (CallVerb v path handlers)) ->
  (forall method path handlers, P (CallOn method path handlers)) ->
  (forall path uses body, Forall P body -> P (CallGroup path uses body)) ->
  (forall arg uses body, Forall P body -> P (CallAppGroup arg uses body)) ->
  forall c, P c.
Proof.
  intros Hv Ho Hg Ha. fix IH 1. intros [v p hs|m p hs|p u body|arg u body].
  - apply Hv.
  - apply Ho.
  - apply Hg. induction body as [|c body IHb]; constructor; [apply IH|exact IHb].
  - apply Ha. induction body as [|c body IHb]; constructor; [apply IH|exact IHb].
Qed.

Lemma run_call_group path uses body r app :
  run_call (CallGroup path uses body) r app
  = run_calls body (router_of (builder_uses uses (router_group path r))) app.
Proof. reflexivity. Qed.

Lemma run_call_app_group arg uses body r app :
  run_call (CallAppGroup arg uses body) r app
  = run_calls body (router_of (builder_uses uses (group arg app))) app.
Proof. reflexivity. Qed.

Lemma string_append_assoc (a b c : string) : (a +:+ b) +:+ c = a +:+ (b +:+ c).
Proof.
  induction a as [|x a IH]; [reflexivity|].
  change (String x ((a +:+ b) +:+ c) = String x (a +:+ (b +:+ c))).
  rewrite IH. reflexivity.
Qed.

Lemma string_append_nil_r (a : string) : a +:+ "" = a.
Proof.
  induction a as [|x a IH]; [reflexivity|].
  change (String x (a +:+ "") = String x a). rewrite IH. reflexivity.
Qed.

Lemma upper_char_idem c : upper_char (upper_char c) = upper_char c.
Proof. destruct c as [[] [] [] [] [] [] [] []]; reflexivity. Qed.

Lemma toUpperCase_idem s : toUpperCase (toUpperCase s) = toUpperCase s.
Proof.
  unfold toUpperCase. induction s as [|c s IH]; simpl; [reflexivity|].
  rewrite upper_char_idem, IH. reflexivity.
Qed.

Lemma builder_uses_fields uses : forall b,
  builder_prefix (builder_uses uses b) = builder_prefix b
  /\ _middlewares (builder_uses uses b) = _middlewares b ++ concat uses.
Proof.
  unfold builder_uses.
  induction uses as [|u uses IH]; intros b; simpl.
  - rewrite app_nil_r. auto.
  - destruct (IH (builder_use u b)) as [H1 H2]. rewrite H1, H2. simpl.
    rewrite <- app_assoc. auto.
Qed.

Lemma adds_routes_refl app : adds_routes app app [].
Proof. unfold adds_routes. rewrite app_nil_r. auto. Qed.

Lemma adds_routes_trans app1 app2 app3 l1 l2 :
  adds_routes app1 app2 l1 -> adds_routes app2 app3 l2 ->
  adds_routes app1 app3 (l1 ++ l2).
Proof.
  unfold adds_routes. intros (A1 & A2 & A3 & A4 & A5) (B1 & B2 & B3 & B4 & B5).
  rewrite B1, A1, B2, B3, B4, B5, <- app_assoc. auto.
Qed.

(** One route through a router: the application afterwards. *)
Lemma router_addRoute_adds method path handlers r app :
  toUpperCase method = method ->
  exists added,
    adds_routes app (fst (attempt (router_addRoute method path handlers r app) app)) added
    /\ Forall sound_route added
    /\ Forall (in_group r) added.
Proof.
  intros Hm. unfold router_addRoute.
  destruct (pathToPattern (router_prefix r +:+ path)) as [f|pattern] eqn:E; simpl.
  - exists []. split; [apply adds_routes_refl|]. split; constructor.
  - eexists. split; [repeat split|]. split.
    + constructor; [|constructor]. split; [exact E|exact Hm].
    + constructor; [|constructor]. split; [eexists; reflexivity|eexists; reflexivity].
Qed.

Lemma addRoute_adds method path handlers app :
  toUpperCase method = method ->
  exists added,
    adds_routes app (fst (attempt (addRoute method path handlers app) app)) added
    /\ Forall sound_route added.
Proof.
  intros Hm. unfold addRoute.
  destruct (pathToPattern path) as [f|pattern] eqn:E; simpl.
  - exists []. split; [apply adds_routes_refl|constructor].
  - eexists. split; [repeat split|].
    constructor; [|constructor]. split; [exact E|exact Hm].
Qed.

Lemma in_group_nested r path uses route :
  in_group (router_of (builder_uses uses (router_group path r))) route ->
  in_group r route.
Proof.
  unfold in_group, router_of. cbn [router_prefix groupMiddlewares].
  destruct (builder_uses_fields uses (router_group path r)) as [-> ->].
  unfold router_group, builder_use. cbn [builder_prefix _middlewares app].
  intros [[suffix Hs] [rest Hr]]. split.
  - exists (path +:+ suffix). rewrite Hs. apply string_append_assoc.
  - exists (concat uses ++ rest). rewrite Hr, <- app_assoc. reflexivity.
Qed.

(** What a callback adds to the application. *)
Lemma run_call_adds c : forall r app,
  exists added,
    adds_routes app (fst (run_call c r app)) added
    /\ Forall sound_route added
    /\ (through_router c -> Forall (in_group r) added).
Proof.
  induction c as [v path hs|m path hs|path uses body IH|arg uses body IH]
    using RouterCall_induction; intros r app.
  - destruct (router_addRoute_adds
                match v with
                | Get => "GET" | Post => "POST" | Put => "PUT"
                | Delete => "DELETE" | Patch => "PATCH"
                end path hs r app) as (added & H1 & H2 & H3);
      [destruct v; reflexivity|].
    exists added. split; [|split; [exact H2|intros _; exact H3]].
    destruct v; exact H1.
  - destruct (router_addRoute_adds (toUpperCase m) path hs r app (toUpperCase_idem m))
      as (added & H1 & H2 & H3).
    exists added. split; [exact H1|]. split; [exact H2|intros _; exact H3].
  - rewrite run_call_group.
    set (r' := router_of (builder_uses uses (router_group path r))).
    assert (G : forall app0, exists added,
               adds_routes app0 (fst (run_calls body r' app0)) added
               /\ Forall sound_route added
               /\ (Forall through_router body -> Forall (in_group r') added)).
    { induction IH as [|c body Hc Hbody IHb]; intros app0; simpl.
      - exists []. split; [apply adds_routes_refl|]. split; [constructor|].
        intros _. constructor.
      - destruct (Hc r' app0) as (l1 & A1 & A2 & A3).
        destruct (run_call c r' app0) as [app1 [f|]]; simpl in *.
        + exists l1. split; [exact A1|]. split; [exact A2|].
          intros Ht. inversion Ht; subst. auto.
        + destruct (IHb app1) as (l2 & B1 & B2 & B3).
          exists (l1 ++ l2). split; [eapply adds_routes_trans; eauto|].
          split; [apply Forall_app; auto|].
          intros Ht. inversion Ht; subst. apply Forall_app. auto. }
    destruct (G app) as (added & H1 & H2 & H3).
    exists added. split; [exact H1|]. split; [exact H2|].
    intros Ht. inversion Ht; subst.
    apply List.Forall_forall. intros route Hin.
    apply (in_group_nested r path uses). revert route Hin.
    apply List.Forall_forall. apply H3. assumption.
  - rewrite run_call_app_group.
    set (r' := router_of (builder_uses uses (group arg app))).
    assert (G : forall app0, exists added,
               adds_routes app0 (fst (run_calls body r' app0)) added
               /\ Forall sound_route added).
    { clearbody r'.
      induction IH as [|c body Hc Hbody IHb]; intros app0; simpl.
      - exists []. split; [apply adds_routes_refl|constructor].
      - destruct (Hc r' app0) as (l1 & A1 & A2 & A3).
        destruct (run_call c r' app0) as [app1 [f|]]; simpl in *.
        + exists l1. auto.
        + destruct (IHb app1) as (l2 & B1 & B2).
          exists (l1 ++ l2). split; [eapply adds_routes_trans; eauto|].
          apply Forall_app; auto. }
    destruct (G app) as (added & H1 & H2).
    exists added. split; [exact H1|]. split; [exact H2|].
    intros Ht. inversion Ht.
Qed.

Lemma run_calls_adds body : forall r app,
  exists added,
    adds_routes app (fst (run_calls body r app)) added
    /\ Forall sound_route added
    /\ (Forall through_router body -> Forall (in_group r) added).
Proof.
  induction body as [|c body IH]; intros r app; simpl.
  - exists []. split; [apply adds_routes_refl|]. split; [constructor|].
    intros _. constructor.
  - destruct (run_call_adds c r app) as (l1 & A1 & A2 & A3).
    destruct (run_call c r app) as [app1 [f|]]; simpl in *.
    + exists l1. split; [exact A1|]. split; [exact A2|].
      intros Ht. inversion Ht; subst. auto.
    + destruct (IH r app1) as (l2 & B1 & B2 & B3).
      exists (l1 ++ l2). split; [eapply adds_routes_trans; eauto|].
      split; [apply Forall_app; auto|].
      intros Ht. inversion Ht; subst. apply Forall_app. auto.
Qed.

Lemma use_fields handlers : forall app,
  routes (use handlers app) = routes app
  /\ middlewares (use handlers app)
     = middlewares app ++ List.filter (fun h => negb (fn_length h =? 4)%nat) handlers
  /\ errorHandlers (use handlers app)
     = errorHandlers app ++ List.filter (fun h => (fn_length h =? 4)%nat) handlers
  /\ prefix (use handlers app) = prefix app
  /\ currentGroupMiddlewares (use handlers app) = currentGroupMiddlewares app.
Proof.
  unfold use. induction handlers as [|h hs IH]; intros app; simpl.
  - rewrite !app_nil_r. auto.
  - destruct (IH (use1 app h)) as (H1 & H2 & H3 & H4 & H5).
    rewrite H1, H2, H3, H4, H5. unfold use1.
    destruct (fn_length h =? 4)%nat; simpl; rewrite <- ?app_assoc; auto.
Qed.

(** What one call of the set-up adds. *)
Lemma register_adds c app :
  exists added,
    routes (fst (register c app)) = routes app ++ added
    /\ Forall sound_route added
    /\ starts_with (middlewares app) (middlewares (fst (register c app)))
    /\ starts_with (errorHandlers app) (errorHandlers (fst (register c app)))
    /\ prefix (fst (register c app)) = prefix app
    /\ currentGroupMiddlewares (fst (register c app)) = currentGroupMiddlewares app.
Proof.
  assert (Hadd : forall app' added,
            adds_routes app app' added -> Forall sound_route added ->
            exists added,
              routes app' = routes app ++ added
              /\ Forall sound_route added
              /\ starts_with (middlewares app) (middlewares app')
              /\ starts_with (errorHandlers app) (errorHandlers app')
              /\ prefix app' = prefix app
              /\ currentGroupMiddlewares app' = currentGroupMiddlewares app).
  { intros app' added (A1 & A2 & A3 & A4 & A5) Hs. exists added.
    rewrite A2, A3. repeat split; auto; exists []; rewrite app_nil_r; reflexivity. }
  destruct c as [hs|v path hs|path hs|path hs|m path hs|arg uses callback]; simpl.
  - destruct (use_fields hs app) as (H1 & H2 & H3 & H4 & H5).
    exists []. rewrite H1, H2, H3, app_nil_r.
    repeat split; auto; eexists; reflexivity.
  - destruct (addRoute_adds
                match v with
                | Get => "GET" | Post => "POST" | Put => "PUT"
                | Delete => "DELETE" | Patch => "PATCH"
                end path hs app) as (added & H1 & H2); [destruct v; reflexivity|].
    apply (Hadd _ added); [|exact H2]. destruct v; exact H1.
  - destruct (addRoute_adds "OPTIONS" path hs app eq_refl) as (added & H1 & H2).
    apply (Hadd _ added); assumption.
  - destruct (addRoute_adds "HEAD" path hs app eq_refl) as (added & H1 & H2).
    apply (Hadd _ added); assumption.
  - destruct (addRoute_adds (toUpperCase m) path hs app (toUpperCase_idem m))
      as (added & H1 & H2).
    apply (Hadd _ added); assumption.
  - unfold builder_routes.
    destruct (run_calls_adds callback (router_of (builder_uses uses (group arg app))) app)
      as (added & H1 & H2 & _).
    apply (Hadd _ added); assumption.
Qed.

Lemma built_sound app :
  Built app ->
  prefix app = "" /\ currentGroupMiddlewares app = [] /\ Forall sound_route (routes app).
Proof.
  induction 1 as [|c app Hb (H1 & H2 & H3)].
  - repeat split. constructor.
  - destruct (register_adds c app) as (added & A1 & A2 & _ & _ & A5 & A6).
    rewrite A1, A5, A6. repeat split; auto. apply Forall_app. auto.
Qed.

(** X11.  Every application that a program sets up from [new Halin()] with
    [use], [on], the shortcuts and groups keeps three things, also when a
    registration throws: its private fields [prefix] and
    [currentGroupMiddlewares] are still empty; the pattern of every route is
    the one its path compiles to; and the method of every route is in upper
    case.  So the private method [addGroupRoute], which reads the two fields,
    would register what [addRoute] registers. *)
Theorem set_up_keeps_routes_sound (app : Halin) :
  Built app ->
  prefix app = ""
  /\ currentGroupMiddlewares app = []
  /\ (forall r, In r (routes app) ->
                pathToPattern (route_path r) = inr (route_pattern r)
                /\ toUpperCase (route_method r) = route_method r)
  /\ (forall method path handlers,
        addGroupRoute method path handlers app = addRoute method path handlers app).
Proof.
  intros Hb. destruct (built_sound app Hb) as (H1 & H2 & H3).
  split; [exact H1|]. split; [exact H2|]. split.
  - intros r Hr. rewrite List.Forall_forall in H3. apply H3. exact Hr.
  - intros method path handlers. unfold addGroupRoute, addRoute. rewrite H1, H2.
    reflexivity.
Qed.

Lemma set_up_keeps_routes_sound_witness :
  prefix (fst (register (RegGroup (PathArg "/api") [[passes]]
                           [CallVerb Get "/x" [answers]]) new_Halin)) = ""
  /\ currentGroupMiddlewares
       (fst (register (RegGroup (PathArg "/api") [[passes]]
                         [CallVerb Get "/x" [answers]]) new_Halin)) = []
  /\ (forall r,
        In r (routes (fst (register (RegGroup (PathArg "/api") [[passes]]
                                       [CallVerb Get "/x" [answers]]) new_Halin))) ->
        pathToPattern (route_path r) = inr (route_pattern r)
        /\ toUpperCase (route_method r) = route_method r)
  /\ (forall method path handlers,
        addGroupRoute method path handlers
          (fst (register (RegGroup (PathArg "/api") [[passes]]
                            [CallVerb Get "/x" [answers]]) new_Halin))
        = addRoute method path handlers
            (fst (register (RegGroup (PathArg "/api") [[passes]]
                              [CallVerb Get "/x" [answers]]) new_Halin))).
Proof.
  apply (set_up_keeps_routes_sound
           (fst (register (RegGroup (PathArg "/api") [[passes]]
                             [CallVerb Get "/x" [answers]]) new_Halin))).
  apply built_step, built_new.
Defined.

Lemma find_in_none_method rs method path :
  Forall (fun r => route_method r <> method) rs -> find_in rs method path = None.
Proof.
  induction 1 as [|r rs Hr Hrs IH]; simpl; [reflexivity|].
  destruct (String.eqb_spec (route_method r) method); [contradiction|exact IH].
Qed.

(** X12.  In an application set up from [new Halin()], a request whose method
    is not written in upper case matches no route, whatever was registered:
    [on] turns the method of a route to upper case and [findRoute] compares
    methods exactly.  A route registered with [on("patch", ...)] is found
    for the method "PATCH" and not for the method "patch". *)
Theorem method_not_in_upper_case_matches_nothing (app : Halin)
    (method path : string) :
  Built app ->
  toUpperCase method <> method ->
  findRoute app method path = None.
Proof.
  intros Hb Hm. destruct (built_sound app Hb) as (_ & _ & H).
  unfold findRoute. apply find_in_none_method.
  eapply List.Forall_impl; [|exact H].
  intros r [_ Hr] E. apply Hm. rewrite <- E. exact Hr.
Qed.

Lemma method_not_in_upper_case_matches_nothing_witness :
  findRoute (fst (register (RegOn "patch" "/x" [answers]) new_Halin)) "patch" "/x" = None.
Proof.
  apply (method_not_in_upper_case_matches_nothing
           (fst (register (RegOn "patch" "/x" [answers]) new_Halin)) "patch" "/x").
  - apply built_step, built_new.
  - discriminate.
Defined.

Lemma find_in_app rs added method path m :
  find_in rs method path = Some m -> find_in (rs ++ added) method path = Some m.
Proof.
  induction rs as [|r rs IH]; simpl; [discriminate|].
  destruct (String.eqb (route_method r) method); [|exact IH].
  destruct (extractParams r path); [auto|exact IH].
Qed.

(** X13.  Registration only ever adds at the end: a call of the set-up
    leaves the routes, the middleware and the error handlers that were there
    in their places.  So the route that answers a request keeps answering it
    after any further registration; a later route cannot take a match
    away from an earlier one. *)
Theorem later_registration_keeps_the_match (c : Registration) (app : Halin) :
  starts_with (routes app) (routes (fst (register c app)))
  /\ starts_with (middlewares app) (middlewares (fst (register c app)))
  /\ starts_with (errorHandlers app) (errorHandlers (fst (register c app)))
  /\ forall method path m,
       findRoute app method path = Some m ->
       findRoute (fst (register c app)) method path = Some m.
Proof.
  destruct (register_adds c app) as (added & H1 & _ & H3 & H4 & _).
  split; [exists added; exact H1|]. split; [exact H3|]. split; [exact H4|].
  intros method path m Hm. unfold findRoute in *. rewrite H1.
  apply find_in_app, Hm.
Qed.

(** X14.  Every route that the callback of a group registers through the
    router it is given, at any depth of nesting through the router, has the
    prefix of the group at the start of its path and the middleware of the
    group, in order, at the start of its handlers.  The callback adds routes
    at the end and changes nothing else of the application, also when one of
    its registrations throws. *)
Theorem group_routes_carry_prefix_and_middleware (callback : list RouterCall)
    (b : GroupBuilder) (app : Halin) :
  Forall through_router callback ->
  exists added,
    routes (fst (builder_routes callback b app)) = routes app ++ added
    /\ middlewares (fst (builder_routes callback b app)) = middlewares app
    /\ errorHandlers (fst (builder_routes callback b app)) = errorHandlers app
    /\ forall route, In route added ->
         (exists suffix, route_path route = builder_prefix b +:+ suffix)
         /\ starts_with (_middlewares b) (route_handlers route).
Proof.
  intros Ht. unfold builder_routes.
  destruct (run_calls_adds callback (router_of b) app)
    as (added & (H1 & H2 & H3 & _) & _ & H4).
  exists added. split; [exact H1|]. split; [exact H2|]. split; [exact H3|].
  intros route Hin. specialize (H4 Ht). rewrite List.Forall_forall in H4.
  apply (H4 route Hin).
Qed.

Lemma group_routes_carry_prefix_and_middleware_witness :
  exists added,
    routes (fst (builder_routes
                   [CallVerb Get "/x" [answers];
                    CallGroup "/v1" [[teapot]] [CallVerb Post "/y" [answers]]]
                   (builder_use [passes] (group (PathArg "/api") new_Halin)) new_Halin))
    = routes new_Halin ++ added
    /\ middlewares (fst (builder_routes
                   [CallVerb Get "/x" [answers];
                    CallGroup "/v1" [[teapot]] [CallVerb Post "/y" [answers]]]
                   (builder_use [passes] (group (PathArg "/api") new_Halin)) new_Halin))
       = middlewares new_Halin
    /\ errorHandlers (fst (builder_routes
                   [CallVerb Get "/x" [answers];
                    CallGroup "/v1" [[teapot]] [CallVerb Post "/y" [answers]]]
                   (builder_use [passes] (group (PathArg "/api") new_Halin)) new_Halin))
       = errorHandlers new_Halin
    /\ forall route, In route added ->
         (exists suffix,
            route_path route
            = builder_prefix (builder_use [passes] (group (PathArg "/api") new_Halin))
              +:+ suffix)
         /\ starts_with
              (_middlewares (builder_use [passes] (group (PathArg "/api") new_Halin)))
              (route_handlers route).
Proof.
  apply (group_routes_carry_prefix_and_middleware
           [CallVerb Get "/x" [answers];
            CallGroup "/v1" [[teapot]] [CallVerb Post "/y" [answers]]]
           (builder_use [passes] (group (PathArg "/api") new_Halin)) new_Halin).
  repeat constructor.
Defined.

Lemma run_calls_one c r app : run_calls [c] r app = run_call c r app.
Proof. simpl. destruct (run_call c r app) as [a [f|]]; reflexivity. Qed.

(** X15.  How groups compose.  A route of a group is the route that
    [addRoute] registers for the prefix followed by the path, with the
    middleware of the group before the handlers.  A group opened through the
    router inside the callback continues the prefix and the middleware of
    the outer group.  A group opened through the application inside the
    callback starts from the prefix of the application, which is empty: it
    inherits neither the prefix nor the middleware of the group around it. *)
Theorem groups_compose (app : Halin) (p q path : string)
    (ms us hs : list JsFn) (v : Verb) :
  prefix app = "" ->
  let b := builder_use ms (group (PathArg p) app) in
  let method := match v with
                | Get => "GET" | Post => "POST" | Put => "PUT"
                | Delete => "DELETE" | Patch => "PATCH"
                end in
  builder_routes [CallVerb v path hs] b app
  = attempt (addRoute method (p +:+ path) (ms ++ hs) app) app
  /\ builder_routes [CallGroup q [us] [CallVerb v path hs]] b app
     = attempt (addRoute method (p +:+ q +:+ path) (ms ++ us ++ hs) app) app
  /\ builder_routes [CallAppGroup (PathArg q) [us] [CallVerb v path hs]] b app
     = attempt (addRoute method (q +:+ path) (us ++ hs) app) app.
Proof.
  intros Hp b method.
  unfold builder_routes, b. rewrite !run_calls_one.
  rewrite run_call_group, run_call_app_group, !run_calls_one.
  unfold builder_uses, router_group, router_of, builder_use, group.
  cbn [fold_left builder_prefix _middlewares router_prefix groupMiddlewares List.app
       run_call].
  rewrite Hp. change ("" +:+ p) with p. change ("" +:+ q) with q.
  subst method.
  destruct v; unfold router_verb, router_get, router_post, router_put, router_delete,
    router_patch, addRoute, router_addRoute; cbn [router_prefix groupMiddlewares];
    rewrite string_append_assoc, <- app_assoc; repeat split; reflexivity.
Qed.

Lemma groups_compose_witness :
  builder_routes [CallVerb Get "/x" [answers]]
    (builder_use [passes] (group (PathArg "/api") new_Halin)) new_Halin
  = attempt (addRoute "GET" ("/api" +:+ "/x") ([passes] ++ [answers]) new_Halin) new_Halin.
Proof.
  apply (proj1 (groups_compose new_Halin "/api" "/v1" "/x" [passes] [teapot] [answers]
                  Get eq_refl)).
Defined.

Lemma template_chars_app ps1 ps2 :
  template_chars (ps1 ++ ps2) = template_chars ps1 ++ template_chars ps2.
Proof.
  induction ps1 as [|[text|name value] ps1 IH]; simpl; [reflexivity| |];
    rewrite IH, <- ?app_assoc; reflexivity.
Qed.

Lemma template_of_app ps1 ps2 :
  template_of (ps1 ++ ps2) = template_of ps1 +:+ template_of ps2.
Proof. unfold template_of. rewrite template_chars_app. apply string_of_list_ascii_app. Qed.



(** X17.  [use(...handlers)] sorts its arguments by their declared number of
    parameters and by nothing else: those with exactly four go to the end of
    the error handlers, all others to the end of the middleware, each group
    in the order of the call; the routes are left alone. *)
Theorem use_sorts_by_declared_length (handlers : list JsFn) (app : Halin) :
  routes (use handlers app) = routes app
  /\ middlewares (use handlers app)
     = middlewares app ++ List.filter (fun h => negb (fn_length h =? 4)%nat) handlers
  /\ errorHandlers (use handlers app)
     = errorHandlers app ++ List.filter (fun h => (fn_length h =? 4)%nat) handlers.
Proof.
  destruct (use_fields handlers app) as (H1 & H2 & H3 & _). auto.
Qed.

(** ** The paths that a template of segments matches *)

Section Inverting.

Variable input : list ascii.

Lemma run_char_inv c x (k : RegExp.Cont) z :
  RegExp.run (RegExp.RChar c) input x k = Some z ->
  drop (RegExp.pos x) input = c :: drop (S (RegExp.pos x)) input
  /\ k (RegExp.mkM (S (RegExp.pos x)) (RegExp.caps x)) = Some z.
Proof.
  simpl. destruct (input !! RegExp.pos x) as [d|] eqn:E; [|discriminate].
  destruct (Ascii.eqb_spec d c) as [->|]; [|discriminate].
  intros H. split; [|exact H]. apply drop_S. exact E.
Qed.

Lemma run_non_slash_inv y (c : RegExp.Cont) z :
  RegExp.run non_slash input (RegExp.clear [] y) c = Some z ->
  exists d,
    drop (RegExp.pos y) input = d :: drop (S (RegExp.pos y)) input
    /\ not_slash d = true
    /\ c (RegExp.mkM (S (RegExp.pos y)) (RegExp.caps y)) = Some z.
Proof.
  simpl. destruct (input !! RegExp.pos y) as [d|] eqn:E; [|discriminate].
  unfold RegExp.in_class, not_slash. simpl.
  destruct (Ascii.eqb d "/") eqn:Ed; [discriminate|].
  intros H. exists d. rewrite Ed. split; [|split; [reflexivity|exact H]].
  apply drop_S. exact E.
Qed.

Lemma greedy_non_slash_inv n : forall x (k : RegExp.Cont) z,
  RegExp.repeat_greedy
    (fun y c => RegExp.run non_slash input (RegExp.clear [] y) c) n x k = Some z ->
  exists v,
    forallb not_slash v = true
    /\ drop (RegExp.pos x) input = v ++ drop (RegExp.pos x + length v) input
    /\ k (RegExp.mkM (RegExp.pos x + length v) (RegExp.caps x)) = Some z.
Proof.
  assert (Hstay : forall x (k : RegExp.Cont) z, k x = Some z ->
            exists v,
              forallb not_slash v = true
              /\ drop (RegExp.pos x) input = v ++ drop (RegExp.pos x + length v) input
              /\ k (RegExp.mkM (RegExp.pos x + length v) (RegExp.caps x)) = Some z).
  { intros x k z Hk. exists []. cbn [length forallb List.app].
    rewrite Nat.add_0_r. repeat split. destruct x; exact Hk. }
  induction n as [|n IH]; intros x k z; [apply Hstay|].
  rewrite repeat_greedy_S.
  destruct (RegExp.run non_slash input (RegExp.clear [] x) _) as [z'|] eqn:E;
    [|apply Hstay].
  intros [= ->]. apply run_non_slash_inv in E. destruct E as (d & Hd & Hn & Hk).
  cbn [RegExp.pos] in Hk. rewrite (proj2 (Nat.eqb_neq _ _)) in Hk by lia.
  apply IH in Hk. destruct Hk as (v & Hv & Hdrop & Hk).
  cbn [RegExp.pos RegExp.caps] in *.
  exists (d :: v). cbn [forallb length List.app]. rewrite Hn, Hv.
  replace (RegExp.pos x + S (length v)) with (S (RegExp.pos x) + length v) by lia.
  split; [reflexivity|]. split; [|exact Hk].
  rewrite Hd at 1. rewrite Hdrop at 1. reflexivity.
Qed.

Lemma run_plus_non_slash_inv x (k : RegExp.Cont) z :
  RegExp.run (RegExp.RPlus non_slash) input x k = Some z ->
  exists v,
    v <> [] /\ forallb not_slash v = true
    /\ drop (RegExp.pos x) input = v ++ drop (RegExp.pos x + length v) input
    /\ k (RegExp.mkM (RegExp.pos x + length v) (RegExp.caps x)) = Some z.
Proof.
  cbn [RegExp.run]. change (RegExp.RClass true [RegExp.CChar "/"]) with non_slash.
  change (RegExp.groups_in non_slash) with (@nil nat).
  intros H. apply run_non_slash_inv in H. destruct H as (d & Hd & Hn & Hk).
  apply greedy_non_slash_inv in Hk. destruct Hk as (v & Hv & Hdrop & Hk).
  cbn [RegExp.pos RegExp.caps] in *.
  exists (d :: v). cbn [forallb length List.app]. rewrite Hn, Hv.
  replace (RegExp.pos x + S (length v)) with (S (RegExp.pos x) + length v) by lia.
  split; [discriminate|]. split; [reflexivity|]. split; [|exact Hk].
  rewrite Hd at 1. rewrite Hdrop at 1. reflexivity.
Qed.

Lemma run_text_inv t : forall x R (k : RegExp.Cont) z,
  RegExp.run (fold_right RegExp.RSeq R (map RegExp.RChar t)) input x k = Some z ->
  drop (RegExp.pos x) input = t ++ drop (RegExp.pos x + length t) input
  /\ RegExp.run R input (RegExp.mkM (RegExp.pos x + length t) (RegExp.caps x)) k = Some z.
Proof.
  induction t as [|c t IH]; intros x R k z H.
  - cbn [map fold_right length List.app] in *. rewrite Nat.add_0_r.
    split; [reflexivity|]. destruct x; exact H.
  - cbn [map fold_right length List.app] in *. rewrite run_seq in H.
    apply run_char_inv in H. destruct H as [Hd H]. apply IH in H.
    cbn [RegExp.pos RegExp.caps] in H. destruct H as [Hd' H].
    replace (RegExp.pos x + S (length t)) with (S (RegExp.pos x) + length t) by lia.
    split; [|exact H]. rewrite Hd at 1. rewrite Hd' at 1. reflexivity.
Qed.

(** When the pattern of a template matches, the input is a path that fits
    the template. *)
Lemma run_pieces_inv ps : forall g x z,
  forallb well_formed ps = true ->
  RegExp.run (fold_right RegExp.RSeq RegExp.REol (terms_of ps g)) input x Some = Some z ->
  exists ps',
    forallb well_formed ps' = true
    /\ template_chars ps' = template_chars ps
    /\ drop (RegExp.pos x) input = path_chars ps'.
Proof.
  induction ps as [|[text|name value] ps IH]; intros g x z Hwf H.
  - exists []. split; [reflexivity|]. split; [reflexivity|].
    cbn [terms_of fold_right RegExp.run] in H.
    destruct (Nat.eqb_spec (RegExp.pos x) (length input)) as [E|]; [|discriminate].
    rewrite E. apply drop_all.
  - cbn [forallb] in Hwf. apply andb_prop in Hwf. destruct Hwf as [Hp Hwf].
    cbn [terms_of] in H.
    change (RegExp.RChar "/" :: map RegExp.RChar (list_ascii_of_string text)
              ++ terms_of ps g)
      with (map RegExp.RChar ("/"%char :: list_ascii_of_string text) ++ terms_of ps g)
      in H.
    rewrite fold_right_app in H. apply run_text_inv in H. destruct H as [Hd H].
    apply IH in H; [|exact Hwf]. destruct H as (ps' & Hwf' & Ht & Hd').
    cbn [RegExp.pos] in Hd'.
    exists (Fixed text :: ps'). cbn [forallb template_chars path_chars].
    rewrite Hwf', Ht, Hp. split; [reflexivity|]. split; [reflexivity|].
    rewrite Hd at 1. rewrite Hd'. reflexivity.
  - cbn [forallb] in Hwf. apply andb_prop in Hwf. destruct Hwf as [Hp Hwf].
    destruct (named_parts _ _ Hp) as (Hn1 & Hn2 & _ & _).
    cbn [terms_of fold_right] in H. rewrite run_seq in H.
    apply run_char_inv in H. destruct H as [Hd H].
    rewrite run_seq, run_group in H. apply run_plus_non_slash_inv in H.
    destruct H as (v & Hne & Hv & Hdv & H). cbn [RegExp.pos RegExp.caps] in *.
    apply IH in H; [|exact Hwf]. destruct H as (ps' & Hwf' & Ht & Hd').
    cbn [RegExp.pos] in Hd'.
    exists (Named name (string_of_list_ascii v) :: ps').
    cbn [forallb template_chars path_chars]. rewrite Hwf', Ht.
    rewrite list_ascii_of_string_of_list_ascii.
    split; [|split; [reflexivity|]].
    + cbn [well_formed].
      rewrite list_ascii_of_string_of_list_ascii, Hv, Hn2, !andb_true_r.
      apply andb_true_intro. split.
      * destruct name; [contradiction Hn1; reflexivity|reflexivity].
      * destruct v; [contradiction Hne; reflexivity|reflexivity].
    + rewrite Hd at 1. rewrite Hdv at 1. rewrite Hd'. reflexivity.
Qed.

End Inverting.

Lemma search_found re input n : forall start mt,
  RegExp.search re input n start = Some mt ->
  exists p, RegExp.exec_at re input p = Some mt.
Proof.
  induction n as [|n IH]; intros start mt; simpl;
    destruct (RegExp.exec_at re input start) as [mt'|] eqn:E.
  - intros [= <-]. eauto.
  - discriminate.
  - intros [= <-]. eauto.
  - apply IH.
Qed.

(** A path that the pattern of a template matches fits the template. *)
Lemma match_pieces_inv ps path found :
  forallb well_formed ps = true ->
  RegExp.match_first path (RegExp.mk (pattern_ast ps) (count_named ps)) = Some found ->
  exists ps',
    forallb well_formed ps' = true
    /\ template_of ps' = template_of ps
    /\ path_of ps' = path.
Proof.
  intros Hwf. unfold RegExp.match_first, RegExp.exec.
  destruct (_ <? _)%nat; [discriminate|].
  destruct (RegExp.search _ _ _ 0) as [mt|] eqn:E; [|discriminate]. intros _.
  apply search_found in E. destruct E as [p E].
  unfold RegExp.exec_at, pattern_ast in E. cbn [RegExp.ast RegExp.ngroups fold_right] in E.
  destruct (RegExp.run _ _ _ Some) as [z|] eqn:R; [|discriminate].
  rewrite run_seq in R. cbn [RegExp.run RegExp.pos] in R.
  destruct (Nat.eqb_spec p 0) as [->|]; [|discriminate].
  apply run_pieces_inv in R; [|exact Hwf]. destruct R as (ps' & Hwf' & Ht & Hd).
  exists ps'. split; [exact Hwf'|]. unfold template_of, path_of.
  rewrite Ht. split; [reflexivity|]. cbn [RegExp.pos] in Hd. rewrite drop_0 in Hd.
  rewrite <- Hd. apply string_of_list_ascii_of_string.
Qed.

(** X18.  The paths that the route of a template of segments matches are
    exactly the paths that fit it: the path has the literal segments of the
    template at their places, and at the place of every parameter a segment
    that is not empty and holds no slash.  So a parameter never matches
    across a slash, an empty segment never stands for a parameter, and a
    path with a segment more or less than the template, or with a slash at
    its end, is not matched. *)
Theorem template_matches_the_fitting_paths (ps : list Piece) (path : string) :
  forallb well_formed ps = true ->
  template_matches (template_of ps) path = true
  <-> exists ps',
        forallb well_formed ps' = true
        /\ template_of ps' = template_of ps
        /\ path_of ps' = path.
Proof.
  intros Hwf. unfold template_matches, pathToPattern.
  rewrite pattern_source_pieces, compile_pieces by exact Hwf. split.
  - destruct (RegExp.match_first path _) as [found|] eqn:E; [|discriminate].
    intros _. apply (match_pieces_inv ps path found Hwf E).
  - intros (ps' & Hwf' & Ht & <-).
    pose proof (compile_pieces ps' Hwf') as C'.
    rewrite <- pattern_source_pieces in C' by exact Hwf'.
    pose proof (compile_pieces ps Hwf) as C.
    rewrite <- pattern_source_pieces in C by exact Hwf.
    rewrite Ht, C in C'.
    assert (Heq : RegExp.mk (pattern_ast ps) (count_named ps)
                  = RegExp.mk (pattern_ast ps') (count_named ps')) by congruence.
    rewrite Heq, match_pieces by exact Hwf'. reflexivity.
Qed.

Lemma template_matches_the_fitting_paths_witness :
  template_matches (template_of [Fixed "users"; Named "id" "1"]) "/users/1/2" = true
  <-> exists ps',
        forallb well_formed ps' = true
        /\ template_of ps' = template_of [Fixed "users"; Named "id" "1"]
        /\ path_of ps' = "/users/1/2".
Proof.
  apply (template_matches_the_fitting_paths [Fixed "users"; Named "id" "1"] "/users/1/2").
  reflexivity.
Defined.

(** ** The parameters of a match *)

Lemma bind_params_proto names : forall k found ps,
  bind_params names k found ps !! "__proto__" = ps !! "__proto__".
Proof.
  induction names as [|n names IH]; intros k found ps; simpl; [reflexivity|].
  rewrite IH. unfold set_param.
  destruct (String.eqb_spec (slice1 n) "__proto__") as [E|E]; [reflexivity|].
  apply lookup_insert_ne. exact E.
Qed.

Lemma bind_params_declared key names : forall k found ps,
  key <> "__proto__" ->
  (exists name, In name names /\ slice1 name = key) \/ is_Some (ps !! key) ->
  is_Some (bind_params names k found ps !! key).
Proof.
  induction names as [|n names IH]; intros k found ps Hk H; simpl.
  - destruct H as [(name & [] & _)|H]. exact H.
  - apply IH; [exact Hk|].
    destruct (String.eqb_spec (slice1 n) key) as [E|E].
    + right. unfold set_param. rewrite E.
      destruct (String.eqb_spec key "__proto__"); [contradiction|].
      rewrite lookup_insert_eq. eauto.
    + destruct H as [(name & [<-|Hin] & Hs)|H].
      * contradiction.
      * left. eauto.
      * right. unfold set_param.
        destruct (String.eqb (slice1 n) "__proto__"); [exact H|].
        rewrite lookup_insert_ne by exact E. exact H.
Qed.

(** X19.  The parameters of a match hold an entry only for a name that the
    template of the route declares, and never one for the name [__proto__]:
    the assignment [params[name] = value] does not create it.  For every
    other declared name there is an entry. *)
Theorem params_hold_declared_names_only (app : Halin) (method path : string)
    (m : RouteMatch) :
  findRoute app method path = Some m ->
  params m !! "__proto__" = None
  /\ (forall key,
        (forall name, In name (paramNames (route_path (route m))) -> slice1 name <> key) ->
        params m !! key = None)
  /\ (forall name,
        In name (paramNames (route_path (route m))) ->
        slice1 name <> "__proto__" ->
        is_Some (params m !! slice1 name)).
Proof.
  intros Hm. unfold findRoute in Hm.
  destruct (find_in_some _ _ _ _ Hm) as (found & _ & ->).
  split; [apply bind_params_proto|]. split.
  - intros key Hk. rewrite bind_params_other by exact Hk. reflexivity.
  - intros name Hin Hp. apply bind_params_declared; [exact Hp|]. left. eauto.
Qed.

Lemma params_hold_declared_names_only_witness :
  params (mkRouteMatch
            (mkRoute "GET" "/:__proto__/:id" (RegExp.literal "^/([^/]+)/([^/]+)$") [])
            {[ "id" := Some "7" ]}) !! "__proto__" = None
  /\ (forall key,
        (forall name, In name (paramNames "/:__proto__/:id") -> slice1 name <> key) ->
        ({[ "id" := Some "7" ]} : gmap string (option string)) !! key = None)
  /\ (forall name,
        In name (paramNames "/:__proto__/:id") ->
        slice1 name <> "__proto__" ->
        is_Some (({[ "id" := Some "7" ]} : gmap string (option string)) !! slice1 name)).
Proof.
  refine (params_hold_declared_names_only
            (mkHalin [mkRoute "GET" "/:__proto__/:id"
                        (RegExp.literal "^/([^/]+)/([^/]+)$") []] [] [] "" [])
            "GET" "/x/7" _ _).
  vm_compute. reflexivity.
Defined.

(** ** The query of a request *)

Lemma find_app_first {A : Type} (f : A -> bool) (l1 l2 : list A) :
  List.find f (l1 ++ l2)
  = match List.find f l1 with
    | Some x => Some x
    | None => List.find f l2
    end.
Proof.
  induction l1 as [|x l1 IH]; simpl; [reflexivity|].
  destruct (f x); [reflexivity|exact IH].
Qed.

Lemma query_fold entries : forall (m : gmap string string) k,
  fold_left (fun m e => <[fst e := snd e]> m) entries m !! k
  = match List.find (fun e => String.eqb (fst e) k) (rev entries) with
    | Some e => Some (snd e)
    | None => m !! k
    end.
Proof.
  induction entries as [|[k0 v0] entries IH]; intros m k; simpl; [reflexivity|].
  rewrite IH, find_app_first.
  destruct (List.find _ (rev entries)) as [e|]; [reflexivity|]. simpl.
  destruct (String.eqb_spec k0 k) as [->|E].
  - apply lookup_insert_eq.
  - apply lookup_insert_ne. exact E.
Qed.

(** X20.  The query of a request holds, for every key of the query string,
    the value of its last occurrence, and nothing for a key that does not
    occur. *)
Theorem query_keeps_the_last_value (entries : list (string * string)) (k : string) :
  query_of entries !! k
  = snd <$> List.find (fun e => String.eqb (fst e) k) (rev entries).
Proof.
  unfold query_of. rewrite query_fold.
  destruct (List.find _ (rev entries)); reflexivity.
Qed.

(** ** The content type of a request *)

Lemma prefix_append needle post : String.prefix needle (needle +:+ post) = true.
Proof.
  induction needle as [|c needle IH].
  { change ("" +:+ post) with post. destruct post; reflexivity. }
  change (String c needle +:+ post) with (String c (needle +:+ post)).
  simpl. destruct (ascii_dec c c); [exact IH|contradiction].
Qed.

Lemma includes_append needle pre post : includes needle (pre +:+ needle +:+ post) = true.
Proof.
  induction pre as [|c pre IH].
  - change ("" +:+ needle +:+ post) with (needle +:+ post).
    pose proof (prefix_append needle post) as H.
    destruct (needle +:+ post) as [|c s].
    + change (includes needle "") with (String.prefix needle "" || false).
      rewrite H. reflexivity.
    + change (includes needle (String c s))
        with (String.prefix needle (String c s) || includes needle s).
      rewrite H. reflexivity.
  - change (String c pre +:+ needle +:+ post) with (String c (pre +:+ needle +:+ post)).
    simpl. rewrite IH. apply orb_true_r.
Qed.

Lemma prefix_split needle : forall hay,
  String.prefix needle hay = true -> exists post, hay = needle +:+ post.
Proof.
  induction needle as [|c needle IH]; intros hay H.
  - exists hay. reflexivity.
  - destruct hay as [|d hay]; [discriminate|].
    simpl in H. destruct (ascii_dec c d) as [->|]; [|discriminate].
    destruct (IH hay H) as [post ->]. exists post. reflexivity.
Qed.

Lemma includes_split needle : forall hay,
  includes needle hay = true -> exists pre post, hay = pre +:+ needle +:+ post.
Proof.
  induction hay as [|c hay IH]; intros H.
  - change (includes needle "") with (String.prefix needle "" || false) in H.
    rewrite orb_false_r in H. destruct (prefix_split _ _ H) as [post Hp].
    exists "", post. exact Hp.
  - change (includes needle (String c hay))
      with (String.prefix needle (String c hay) || includes needle hay) in H.
    apply orb_true_iff in H. destruct H as [H|H].
    + destruct (prefix_split _ _ H) as [post Hp]. exists "", post. exact Hp.
    + destruct (IH H) as (pre & post & ->). exists (String c pre), post. reflexivity.
Qed.

(** X21.  The test for a JSON body is a test for a substring, on a header
    whose name is looked up without regard to case: the body of a request is
    parsed as JSON exactly when the text "application/json" occurs somewhere
    in the value of its [Content-Type] header.  A charset parameter after the
    media type does not matter, and neither does any text before it. *)
Theorem json_body_test_is_a_substring_test (raw : RawRequest) :
  content_type_includes "application/json" raw = true
  <-> exists pre post,
        headers_get "CONTENT-TYPE" (raw_headers raw)
        = Some (pre +:+ "application/json" +:+ post).
Proof.
  unfold content_type_includes, headers_get.
  change (toLowerCase "CONTENT-TYPE") with (toLowerCase "Content-Type").
  destruct (raw_headers raw !! toLowerCase "Content-Type") as [ct|]; split.
  - intros H. destruct (includes_split _ _ H) as (pre & post & ->). eauto.
  - intros (pre & post & [= ->]). apply includes_append.
  - discriminate.
  - intros (pre & post & H). discriminate.
Qed.

(** ** The response builder *)

(** X23.  How the methods of [res] compose.  The last of [json] and [text]
    decides the body and the content type, whatever was written before, also
    when the content type was set under a name in another case; [status]
    commutes with them and is changed by none of them, nor by [send]; and
    [stream] replaces the body and leaves the headers as they are. *)
Theorem res_last_write_wins (r : Response) (d d' : Js.Value) (t : string)
    (code : Z) (content : list string) :
  res_json d (res_json d' r) = res_json d r
  /\ res_json d (res_text t r) = res_json d r
  /\ res_text t (res_json d r) = res_text t r
  /\ res_status code (res_json d r) = res_json d (res_status code r)
  /\ res_status code (res_text t r) = res_text t (res_status code r)
  /\ statusCode (res_send d r) = statusCode r
  /\ (exists r', res_header "CONTENT-TYPE" "text/html" r = Normal r'
                  /\ res_json d r' = res_json d r)
  /\ res_stream content (res_json d r)
     = mkResponse (statusCode r) (headers (res_json d r)) (BStream content).
Proof.
  assert (Hh : res_header "CONTENT-TYPE" "text/html" r
               = Normal (res_content_type "text/html" r)) by reflexivity.
  rewrite Hh. clear Hh.
  unfold res_send, res_json, res_text, res_status, res_content_type, res_stream.
  cbn [statusCode headers body].
  split; [rewrite insert_insert_eq; reflexivity|].
  split; [rewrite insert_insert_eq; reflexivity|].
  split; [rewrite insert_insert_eq; reflexivity|].
  split; [reflexivity|]. split; [reflexivity|].
  split; [destruct (String.eqb _ "object"); reflexivity|].
  split; [|reflexivity].
  eexists. split; [reflexivity|]. cbn [statusCode headers body].
  rewrite insert_insert_eq. reflexivity.
Qed.

(** X24.  [send(data)] always writes a text body: the JSON text with the
    content type [application/json] when [typeof data] is "object", which
    includes [null] and arrays, and otherwise [String(data)] with
    [text/plain], so that a string is sent as it is and [undefined] as the
    text "undefined".  [json(undefined)] writes no body at all, under the
    content type [application/json]. *)
Theorem send_always_writes_text (data : Js.Value) (r : Response) :
  (exists text,
     body (res_send data r) = BText text
     /\ match data with
        | Js.Null | Js.Arr _ | Js.Obj _ =>
            Js.stringify data = Some text
            /\ headers_get "Content-Type" (headers (res_send data r))
               = Some "application/json"
        | _ =>
            text = Js.to_string data
            /\ headers_get "Content-Type" (headers (res_send data r)) = Some "text/plain"
        end)
  /\ res_send (Js.Str "hi") r = res_text "hi" r
  /\ body (res_send Js.Undefined r) = BText "undefined"
  /\ body (res_json Js.Undefined r) = BUndefined
  /\ (forall w, wire_of_res (res_json Js.Undefined r) = Normal w -> wire_body w = WEmpty)
  /\ ((200 <= statusCode r <= 599)%Z ->
      exists w, wire_of_res (res_json Js.Undefined r) = Normal w)
  /\ headers_get "Content-Type" (headers (res_json Js.Undefined r))
     = Some "application/json".
Proof.
  split; [|split; [reflexivity|]; split; [reflexivity|]; split; [reflexivity|];
           split; [|split; [|apply lookup_insert_eq]]].
  2: { intros w H. apply construct_keeps in H. destruct H as (_ & -> & _). reflexivity. }
  2: { intros H. unfold wire_of_res, construct.
       cbn [status wire_body res_json res_content_type statusCode body Js.stringify
            wire_of_body].
       destruct (Z.ltb_spec (statusCode r) 200); [lia|].
       destruct (Z.ltb_spec 599 (statusCode r)); [lia|]. eauto. }
  unfold res_send, res_json, res_text, res_content_type, headers_get.
  destruct data as [| |[]|n|s|items|props]; cbn [Js.typeof String.eqb Ascii.eqb
    Bool.eqb body headers Js.stringify]; simpl String.eqb; cbn [body headers];
    eexists; (split; [reflexivity|]); split; try reflexivity; apply lookup_insert_eq.
Qed.

(** ** Sequences of operations on an SSE writer *)

Lemma sse_open_readable_step ev w :
  (closed w = false -> stream_state (controller w) = Readable) ->
  close_signals (controller w) <= (if closed w then 1 else 0) ->
  fst (sse_step ev w) = Normal tt
  /\ (closed (snd (sse_step ev w)) = false ->
      stream_state (controller (snd (sse_step ev w))) = Readable)
  /\ close_signals (controller (snd (sse_step ev w)))
     <= (if closed (snd (sse_step ev w)) then 1 else 0)
  /\ (closed w = true -> closed (snd (sse_step ev w)) = true
                         /\ chunks (controller (snd (sse_step ev w)))
                            = chunks (controller w))
  /\ (closed w = false ->
      match ev with
      | SseSend data =>
          closed (snd (sse_step ev w)) = false
          /\ chunks (controller (snd (sse_step ev w)))
             = chunks (controller w) ++ [sse_frame data]
      | _ =>
          closed (snd (sse_step ev w)) = true
          /\ chunks (controller (snd (sse_step ev w))) = chunks (controller w)
      end).
Proof.
  intros Hr Hc. destruct w as [st hd [state ch sig] cl]. cbn [closed controller
    stream_state close_signals chunks] in *.
  destruct ev as [data| |]; destruct cl; cbn in *;
    try (rewrite Hr by reflexivity); cbn; repeat split; auto; try discriminate; lia.
Qed.

Lemma sse_run_closed evs : forall w,
  (closed w = false -> stream_state (controller w) = Readable) ->
  close_signals (controller w) <= (if closed w then 1 else 0) ->
  closed w = true ->
  fst (sse_run evs w) = false
  /\ chunks (controller (snd (sse_run evs w))) = chunks (controller w)
  /\ close_signals (controller (snd (sse_run evs w))) <= 1.
Proof.
  induction evs as [|ev evs IH]; intros w Hr Hc Hcl.
  - simpl. rewrite Hcl in Hc. auto.
  - destruct (sse_open_readable_step ev w Hr Hc) as (H1 & H2 & H3 & H4 & _).
    destruct (H4 Hcl) as [H5 H6]. cbn [sse_run].
    destruct (sse_step ev w) as [[[]|e] w']; cbn [fst snd] in *; [|discriminate].
    rewrite <- H6. apply IH; assumption.
Qed.

(** X25.  Whatever sequence of [send] and [close] calls a handler makes on a
    writer, and whenever the consumer cancels the stream in between, no call
    throws.  The stream holds one chunk, [data: <text>] followed by an empty
    line, for every event sent before the first [close] or cancellation, in
    the order of the calls, and nothing else; the controller is closed at
    most once.  [send] of the second revision does to the writer what
    [send] of the first one does. *)
Theorem sse_calls_never_throw (evs : list SseEvent) :
  fst (sse_run evs new_SSEWriter) = false
  /\ chunks (controller (snd (sse_run evs new_SSEWriter)))
     = map sse_frame (sent_while_open evs)
  /\ close_signals (controller (snd (sse_run evs new_SSEWriter))) <= 1
  /\ forall data w,
       sse_send_void data w = (discard (fst (sse_send data w)), snd (sse_send data w)).
Proof.
  assert (G : forall evs w,
            (closed w = false -> stream_state (controller w) = Readable) ->
            close_signals (controller w) <= (if closed w then 1 else 0) ->
            closed w = false ->
            fst (sse_run evs w) = false
            /\ chunks (controller (snd (sse_run evs w)))
               = chunks (controller w) ++ map sse_frame (sent_while_open evs)
            /\ close_signals (controller (snd (sse_run evs w))) <= 1).
  { clear evs. induction evs as [|ev evs IH]; intros w Hr Hc Hcl.
    - simpl. rewrite app_nil_r, Hcl in *. repeat split. lia.
    - destruct (sse_open_readable_step ev w Hr Hc) as (H1 & H2 & H3 & _ & H5).
      specialize (H5 Hcl). cbn [sse_run].
      destruct (sse_step ev w) as [[[]|e] w'] eqn:E; cbn [fst snd] in *; [|discriminate].
      destruct ev as [data| |]; destruct H5 as [H5 H6]; cbn [sent_while_open map].
      + destruct (IH w' H2 H3 H5) as (A & B & C). rewrite A, B, H6, <- app_assoc. auto.
      + destruct (sse_run_closed evs w' H2 H3 H5) as (A & B & C).
        rewrite A, B, H6, app_nil_r. auto.
      + destruct (sse_run_closed evs w' H2 H3 H5) as (A & B & C).
        rewrite A, B, H6, app_nil_r. auto. }
  destruct (G evs new_SSEWriter (fun _ => eq_refl) (le_n 0) eq_refl) as (A & B & C).
  split; [exact A|]. split; [exact B|]. split; [exact C|].
  intros data w. unfold sse_send_void, sse_send.
  destruct (closed w); [reflexivity|]. destruct (enqueue _ _); reflexivity.
Qed.

(** ** The mock stream of the test utilities *)

(** X26.  [createMockStream(data)] never throws: it gives a stream that
    holds the messages in their order, one chunk each, and that was closed
    once. *)
Theorem mock_stream_holds_the_messages (messages : list string) :
  createMockStream messages = Normal (mkController Closed messages 1).
Proof.
  unfold createMockStream.
  assert (G : forall msgs ch,
            fold_left (fun acc msg => match acc with
                                      | Normal c => enqueue msg c
                                      | Abrupt e => Abrupt e
                                      end) msgs (Normal (mkController Readable ch 0))
            = Normal (mkController Readable (ch ++ msgs) 0)).
  { induction msgs as [|m msgs IH]; intros ch; simpl.
    - rewrite app_nil_r. reflexivity.
    - unfold enqueue at 2. cbn [stream_state chunks close_signals].
      rewrite IH, <- app_assoc. reflexivity. }
  unfold new_stream. rewrite G. reflexivity.
Qed.

(** ** Templates that end with a wildcard *)

Lemma list_ascii_of_string_app (a b : string) :
  list_ascii_of_string (a +:+ b) = list_ascii_of_string a ++ list_ascii_of_string b.
Proof.
  induction a as [|c a IH]; [reflexivity|].
  change (String c a +:+ b) with (String c (a +:+ b)). simpl. rewrite IH. reflexivity.
Qed.

Lemma literal_char_not c d :
  literal_char c = true -> In d [":"; "*"]%char -> c <> d.
Proof.
  unfold literal_char. intros H Hd ->.
  destruct Hd as [<-|[<-|[]]]; discriminate.
Qed.

Lemma lex_literal c :
  literal_char c = true ->
  RegExp.lex_step RegExp.LNormal c = inr ([RegExp.TChar c], RegExp.LNormal).
Proof.
  unfold literal_char. intros H. apply orb_true_iff in H. destruct H as [H|H].
  - apply Ascii.eqb_eq in H. subst c. reflexivity.
  - apply lex_ordinary, H.
Qed.

Lemma lex_literals t : forall rest ts,
  forallb literal_char t = true ->
  RegExp.lex RegExp.LNormal rest = inr ts ->
  RegExp.lex RegExp.LNormal (t ++ rest) = inr (map RegExp.TChar t ++ ts).
Proof.
  induction t as [|c t IH]; intros rest ts Ht Hr; [exact Hr|].
  cbn [forallb] in Ht. apply andb_prop in Ht. destruct Ht as [Hc Ht].
  cbn [List.app map]. apply lex_cons; [apply lex_literal, Hc|]. apply IH; assumption.
Qed.

Section Wildcard.

Variable t : list ascii.
Hypothesis t_literal : forallb literal_char t = true.

Lemma literal_lookup i c d :
  (t ++ ["*"%char]) !! i = Some c -> i < length t -> In d [":"; "*"]%char -> c <> d.
Proof.
  intros Hi Hlt Hd. rewrite lookup_app_l in Hi by exact Hlt.
  apply (literal_char_not c d); [|exact Hd].
  apply (lookup_forallb _ _ _ _ t_literal Hi).
Qed.

Lemma wildcard_no_colon i : (t ++ ["*"%char]) !! i <> Some ":"%char.
Proof.
  intros Hi. destruct (Nat.lt_ge_cases i (length t)) as [Hlt|Hge].
  - apply (literal_lookup i ":" ":" Hi Hlt); [left; reflexivity|reflexivity].
  - rewrite lookup_app_r in Hi by exact Hge.
    destruct (i - length t) as [|[|j]]; discriminate.
Qed.

(** The first [replace] of [pathToPattern] finds no parameter. *)
Lemma wildcard_param_segment :
  RegExp.replace_all (string_of_list_ascii (t ++ ["*"%char])) param_segment "/([^/]+)"
  = string_of_list_ascii (t ++ ["*"%char]).
Proof.
  apply replace_all_none. intros start.
  rewrite list_ascii_of_string_of_list_ascii.
  apply param_segment_miss. right. apply wildcard_no_colon.
Qed.

Lemma wildcard_paramNames :
  paramNames (string_of_list_ascii (t ++ ["*"%char])) = [].
Proof.
  unfold paramNames, RegExp.match_all, RegExp.matches.
  rewrite list_ascii_of_string_of_list_ascii.
  rewrite scan_none; [reflexivity|].
  intros start. apply param_name_miss, wildcard_no_colon.
Qed.

(** The second [replace] finds the star at the end. *)
Lemma wildcard_star :
  RegExp.replace_all (string_of_list_ascii (t ++ ["*"%char])) star ".*"
  = string_of_list_ascii (t ++ [".";"*"]%char).
Proof.
  unfold RegExp.replace_all, RegExp.matches.
  rewrite list_ascii_of_string_of_list_ascii. f_equal.
  set (input := t ++ ["*"%char]).
  assert (Hlen : length input = S (length t))
    by (unfold input; rewrite length_app; simpl; lia).
  assert (Hat : RegExp.exec_at star input (length t)
                = Some (RegExp.mkMatch (length t) (S (length t)) "*" [])).
  { unfold RegExp.exec_at. rewrite star_ast. cbn [RegExp.ast RegExp.ngroups replicate].
    rewrite (run_char_hit input "*" [] (RegExp.mkM (length t) []))
      by (cbn [RegExp.pos]; unfold input; rewrite drop_app_length; reflexivity).
    cbn [RegExp.pos RegExp.caps map]. do 2 f_equal.
    unfold RegExp.slice, input. rewrite drop_app_length.
    replace (S (length t) - length t) with 1 by lia. reflexivity. }
  assert (Hfirst : RegExp.exec star input 0
                   = Some (RegExp.mkMatch (length t) (S (length t)) "*" [])).
  { rewrite (exec_skip star input 0 (length t)).
    - apply exec_hit; [lia|exact Hat].
    - lia.
    - intros p Hp. apply star_miss. intros Hl.
      apply (literal_lookup p "*" "*" Hl); [lia|right; left; reflexivity|reflexivity]. }
  assert (Hnext : RegExp.exec star input (S (length t)) = None).
  { apply exec_end; [lia|]. rewrite Hlen. apply star_miss.
    unfold input. rewrite lookup_ge_None_2 by (rewrite length_app; simpl; lia).
    discriminate. }
  rewrite Hlen. cbn [RegExp.scan]. rewrite Hfirst.
  cbn [RegExp.index RegExp.end_index].
  rewrite (proj2 (Nat.eqb_neq (S (length t)) (length t))) by lia.
  cbn [RegExp.scan]. rewrite Hnext.
  cbn [RegExp.substitute RegExp.index RegExp.end_index].
  rewrite Nat.sub_0_r, drop_0. unfold input.
  rewrite take_app_length, drop_ge by (rewrite length_app; simpl; lia).
  reflexivity.
Qed.

Lemma wildcard_source :
  pattern_source (string_of_list_ascii (t ++ ["*"%char]))
  = string_of_list_ascii ("^"%char :: t ++ [".";"*";"$"]%char).
Proof.
  unfold pattern_source. rewrite wildcard_param_segment, wildcard_star.
  change ("^" +:+ ?s +:+ "$") with (String "^" (s +:+ "$")).
  cbn [string_of_list_ascii]. f_equal.
  change "$" with (string_of_list_ascii ["$"%char]).
  rewrite <- string_of_list_ascii_app, <- app_assoc. reflexivity.
Qed.

Lemma wildcard_compile :
  RegExp.compile (string_of_list_ascii ("^"%char :: t ++ [".";"*";"$"]%char))
  = inr (RegExp.mk
           (fold_right RegExp.RSeq RegExp.REol
              (RegExp.RBol :: map RegExp.RChar t ++ [RegExp.RStar RegExp.RAny])) 0).
Proof.
  unfold RegExp.compile. rewrite list_ascii_of_string_of_list_ascii.
  assert (L : RegExp.lex RegExp.LNormal ("^"%char :: t ++ [".";"*";"$"]%char)
              = inr (RegExp.TBol :: map RegExp.TChar t
                     ++ [RegExp.TAny; RegExp.TStar; RegExp.TEol])).
  { simpl RegExp.lex at 1.
    rewrite (lex_literals t [".";"*";"$"]%char
               [RegExp.TAny; RegExp.TStar; RegExp.TEol] t_literal eq_refl).
    reflexivity. }
  rewrite L. cbn [RegExp.parse].
  destruct (parse_text t [RegExp.TAny; RegExp.TStar; RegExp.TEol]
              (RegExp.push_term RegExp.empty_frame RegExp.RBol RegExp.Assertion) [] 0)
    as [l ->].
  cbn [RegExp.parse RegExp.push_term RegExp.alts RegExp.terms RegExp.empty_frame
       RegExp.quantify RegExp.last RegExp.close_frame fold_left RegExp.seq_of].
  do 2 f_equal.
  rewrite <- (rev_involutive (RegExp.RBol :: map RegExp.RChar t ++ [RegExp.RStar RegExp.RAny])),
    fold_left_rev_right.
  cbn [rev]. rewrite rev_app_distr. reflexivity.
Qed.

Variable rest : list ascii.
Hypothesis rest_printable : forallb printable rest = true.

Lemma printable_no_terminator c : printable c = true -> RegExp.line_terminator c = false.
Proof.
  unfold printable, RegExp.line_terminator. intros H.
  destruct (Ascii.eqb_spec c Js.LF) as [->|]; [discriminate|].
  destruct (Ascii.eqb_spec c Js.CR) as [->|]; [discriminate|reflexivity].
Qed.

Lemma run_any_some input y d (c : RegExp.Cont) :
  input !! RegExp.pos y = Some d -> RegExp.line_terminator d = false ->
  RegExp.run RegExp.RAny input (RegExp.clear [] y) c
  = c (RegExp.mkM (S (RegExp.pos y)) (RegExp.caps y)).
Proof. intros Hd Hn. simpl. rewrite Hd, Hn. reflexivity. Qed.

Lemma run_any_end input y (c : RegExp.Cont) :
  input !! RegExp.pos y = None ->
  RegExp.run RegExp.RAny input (RegExp.clear [] y) c = None.
Proof. intros Hd. simpl. rewrite Hd. reflexivity. Qed.

(** The loop of [.*] takes all that is left of a path. *)
Lemma greedy_any input v : forall n x (k : RegExp.Cont) z,
  drop (RegExp.pos x) input = v ->
  forallb printable v = true ->
  length v <= n ->
  k (RegExp.mkM (RegExp.pos x + length v) (RegExp.caps x)) = Some z ->
  RegExp.repeat_greedy
    (fun y c => RegExp.run RegExp.RAny input (RegExp.clear [] y) c) n x k = Some z.
Proof.
  induction v as [|c v IH]; intros n x k z Hd Hv Hn Hk.
  - cbn [length] in Hk. rewrite Nat.add_0_r in Hk.
    assert (Hx : RegExp.mkM (RegExp.pos x) (RegExp.caps x) = x) by (destruct x; reflexivity).
    rewrite Hx in Hk. destruct n as [|n]; [exact Hk|].
    rewrite repeat_greedy_S, run_any_end by (apply (read_nil _ _ Hd)). exact Hk.
  - destruct n as [|n]; [simpl in Hn; lia|].
    cbn [forallb] in Hv. apply andb_prop in Hv. destruct Hv as [Hc Hv].
    destruct (read_cons _ _ _ _ Hd) as [Hl Hd'].
    rewrite repeat_greedy_S,
      (run_any_some input x c _ Hl (printable_no_terminator c Hc)).
    cbn [RegExp.pos]. rewrite (proj2 (Nat.eqb_neq _ _)) by lia.
    rewrite (IH n (RegExp.mkM (S (RegExp.pos x)) (RegExp.caps x)) k z); auto.
    + simpl in Hn. lia.
    + cbn [RegExp.pos RegExp.caps]. rewrite <- Hk. f_equal. f_equal. simpl. lia.
Qed.

Lemma wildcard_match :
  RegExp.match_first (string_of_list_ascii (t ++ rest))
    (RegExp.mk
       (fold_right RegExp.RSeq RegExp.REol
          (RegExp.RBol :: map RegExp.RChar t ++ [RegExp.RStar RegExp.RAny])) 0)
  = Some [Some (string_of_list_ascii (t ++ rest))].
Proof.
  unfold RegExp.match_first. rewrite list_ascii_of_string_of_list_ascii.
  set (input := t ++ rest).
  rewrite (exec_hit _ _ 0 (RegExp.mkMatch 0 (length input) (string_of_list_ascii input) []));
    [reflexivity|lia|].
  unfold RegExp.exec_at. cbn [RegExp.ast RegExp.ngroups fold_right replicate].
  change (RegExp.run (RegExp.RSeq RegExp.RBol ?R) ?i (RegExp.mkM 0 ?c) Some)
    with (RegExp.run R i (RegExp.mkM 0 c) Some).
  rewrite fold_right_app, (run_text input t rest) by reflexivity.
  cbn [fold_right RegExp.pos RegExp.caps Nat.add]. rewrite run_seq.
  cbn [RegExp.run RegExp.groups_in].
  rewrite (greedy_any input rest _ _ _ (RegExp.mkM (length input) [])).
  - cbn [RegExp.pos RegExp.caps map]. do 2 f_equal.
    pose proof (slice_read input 0 input [] (eq_sym (app_nil_r _))) as Hs.
    cbn [Nat.add] in Hs. exact Hs.
  - cbn [RegExp.pos]. unfold input. apply drop_app_length.
  - exact rest_printable.
  - cbn [RegExp.pos]. unfold input. rewrite length_app. lia.
  - cbn [RegExp.pos RegExp.caps RegExp.run]. unfold input. rewrite length_app.
    rewrite Nat.eqb_refl. reflexivity.
Qed.

End Wildcard.

(** X27.  A template of literal text with a star at its end, such as ["*"]
    or ["/files/*"], is accepted, and its route matches every path that
    begins with the literal text, whatever printable text follows it:
    nothing, one segment, or several segments with slashes between them.  The
    match binds no parameter. *)
Theorem wildcard_matches_every_continuation (prefix rest method : string)
    (handlers : list JsFn) :
  forallb literal_char (list_ascii_of_string prefix) = true ->
  forallb printable (list_ascii_of_string rest) = true ->
  exists re,
    pathToPattern (prefix +:+ "*") = inr re
    /\ extractParams (mkRoute method (prefix +:+ "*") re handlers) (prefix +:+ rest)
       = Some ∅.
Proof.
  intros Hp Hr.
  assert (Et : prefix +:+ "*" = string_of_list_ascii (list_ascii_of_string prefix ++ ["*"%char])).
  { rewrite <- (string_of_list_ascii_of_string (prefix +:+ "*")).
    rewrite list_ascii_of_string_app. reflexivity. }
  assert (Ep : prefix +:+ rest
               = string_of_list_ascii (list_ascii_of_string prefix
                                       ++ list_ascii_of_string rest)).
  { rewrite <- (string_of_list_ascii_of_string (prefix +:+ rest)).
    rewrite list_ascii_of_string_app. reflexivity. }
  rewrite Et, Ep. eexists. split.
  - unfold pathToPattern. rewrite wildcard_source by exact Hp.
    apply wildcard_compile, Hp.
  - unfold extractParams. cbn [route_pattern route_path].
    rewrite wildcard_match by assumption.
    rewrite wildcard_paramNames by exact Hp. reflexivity.
Qed.

Lemma wildcard_matches_every_continuation_witness :
  exists re,
    pathToPattern ("/files/" +:+ "*") = inr re
    /\ extractParams (mkRoute "GET" ("/files/" +:+ "*") re []) ("/files/" +:+ "a/b.txt")
       = Some ∅.
Proof.
  apply (wildcard_matches_every_continuation "/files/" "a/b.txt" "GET" []);
    reflexivity.
Defined.

(** ** An error chain that recovers nothing *)

Lemma error_positions_trace e k l :
  error_positions (trace_from (fun p h => InvokedOnError p h e) k l) = seq k (length l).
Proof.
  revert k. induction l as [|h l IH]; intros k; simpl; [reflexivity|].
  f_equal. apply IH.
Qed.

Lemma middleware_error_halin e :
  Js.is_Error e = true -> Js.is_HalinError (Rev2.middleware_error e) = true.
Proof.
  intros He. destruct (Js.is_HalinError e) eqn:Ht.
  - unfold Rev2.middleware_error. rewrite as_HalinError_halin by exact Ht. exact Ht.
  - unfold Rev2.middleware_error.
    rewrite (as_HalinError_text _ _ e _ Ht (message_text_error _ e He)). reflexivity.
Qed.



Lemma handle_after_errors_never_streams_witness :
  exists r w,
    Rev2.handle
      (mkHalin [mkRoute "GET" "/events" (RegExp.literal "^/events$")
                  [mkFn 2 (fun _ => Do OpSse (Throw (Js.Error "Error" "boom")))
                     (fun _ _ => Return)]] [] [reports] "" [])
      (bare "GET" "/events") = Some r
    /\ currentResponse (final r) = Some new_SSEWriter
    /\ response r = Normal w
    /\ wire_body w <> WEvents new_stream.
Proof.
  eexists. eexists. split; [vm_compute; reflexivity|]. split; [reflexivity|].
  split; [reflexivity|].
  eapply (handle_after_errors_never_streams
            (mkHalin [mkRoute "GET" "/events" (RegExp.literal "^/events$")
                        [mkFn 2 (fun _ => Do OpSse (Throw (Js.Error "Error" "boom")))
                           (fun _ _ => Return)]] [] [reports] "" [])
            (bare "GET" "/events")).
  - right. vm_compute. reflexivity.
  - discriminate.
  - reflexivity.
Defined.
